(** * river: a verification development for the builder, links and handles

    The development embeds the C++ sources of the [river] library
    (src/builder.hpp, src/builder.cpp, src/link.hpp, src/river.hpp,
    src/channel.hpp, src/channel.cpp, src/rivulet.hpp, src/rivulet.cpp)
    and states the properties of its specification over that embedding.

    Conventions of the embedding:
    - [int32_t] return codes are [Z]; [size_t] quantities are [nat]
      (no claim depends on wrap-around of sizes);
    - a [std::string] is a [string], a byte buffer is a [list Byte.byte];
    - objects behind [std::shared_ptr] ([Link], [River], [Lock]) live in a
      heap and are named by their index, so that aliasing between the
      metadata tree and the handles is kept;
    - undefined behaviour (null dereference, failed [assert], out-of-range
      [memcpy], use of an uninitialised [size_t]) is the outcome [Fault]. *)

From Stdlib Require Import ZArith Ascii String.
From stdpp Require Import base list.

Local Open Scope Z_scope.

(* ===================================================================== *)
(** ** Outcomes: a small error monad for undefined behaviour *)
(* ===================================================================== *)

Inductive outcome (A : Type) : Type :=
| Ok (a : A)
| Fault.
Arguments Ok {A} a.
Arguments Fault {A}.

Definition obind {A B} (m : outcome A) (k : A -> outcome B) : outcome B :=
  match m with
  | Ok a => k a
  | Fault => Fault
  end.

Notation "x <- m ;; k" := (obind m (fun x => k))
  (at level 100, m at next level, right associativity).

(** A null [shared_ptr] is [None]; dereferencing it is undefined. *)
Definition deref {A} (p : option A) : outcome A :=
  match p with
  | Some a => Ok a
  | None => Fault
  end.

(* ===================================================================== *)
(** ** Raw memory: [std::memcpy] over byte vectors *)
(* ===================================================================== *)

Abbreviation bytes := (list Byte.byte).

(** [memcpy(dest, st.data() + off, n)]: the [n] bytes of [st] from [off];
    undefined when the range leaves the vector. *)
Definition read_bytes (st : bytes) (off n : nat) : outcome bytes :=
  if (off + n <=? length st)%nat then Ok (take n (drop off st)) else Fault.

(** [memcpy(st.data() + off, src, length src)]: [st] with the bytes from
    [off] overwritten by [src]; undefined when the range leaves [st]. *)
Definition write_bytes (st : bytes) (off : nat) (src : bytes) : outcome bytes :=
  if (off + length src <=? length st)%nat
  then Ok (take off st ++ src ++ drop (off + length src) st)
  else Fault.

(* ===================================================================== *)
(** ** Links, rivers and locks (link.hpp, river.hpp, lock.hpp) *)
(* ===================================================================== *)

Module Link.

(** [struct Link].  The three [size_t] members have no initialiser: they
    are [None] until the builder assigns them.  [river] and [lock] are
    shared pointers, [None] when null. *)
Record t : Type := mk {
  river : option nat;
  channel_offset : option nat;
  rivulet_offset : option nat;
  rivulet_size : option nat;
  lock : option nat
}.

(** [new Link] *)
Definition fresh : t := mk None None None None None.

Definition set_river (v : option nat) (L : t) : t :=
  mk v (channel_offset L) (rivulet_offset L) (rivulet_size L) (lock L).
Definition set_channel_offset (v : option nat) (L : t) : t :=
  mk (river L) v (rivulet_offset L) (rivulet_size L) (lock L).
Definition set_rivulet_offset (v : option nat) (L : t) : t :=
  mk (river L) (channel_offset L) v (rivulet_size L) (lock L).
Definition set_rivulet_size (v : option nat) (L : t) : t :=
  mk (river L) (channel_offset L) (rivulet_offset L) v (lock L).
Definition set_lock (v : option nat) (L : t) : t :=
  mk (river L) (channel_offset L) (rivulet_offset L) (rivulet_size L) v.

End Link.

(** Calls made on a [Lock] (lock.hpp): the interface is abstract, so the
    embedding records the calls. *)
Inductive LockEvent : Type :=
| Acquire (k : nat)
| Release (k : nat).

(** The objects owned through shared pointers, apart from the nodes of the
    metadata tree: every [Link] ever allocated, the storage vector of every
    [River] ever built, and the calls made on locks so far. *)
Record Heap : Type := mkHeap {
  links : list Link.t;
  rivers : list bytes;
  lock_trace : list LockEvent
}.

Definition empty_heap : Heap := mkHeap [] [] [].

Definition with_links (h : Heap) (ls : list Link.t) : Heap :=
  mkHeap ls (rivers h) (lock_trace h).
Definition with_rivers (h : Heap) (rs : list bytes) : Heap :=
  mkHeap (links h) rs (lock_trace h).
Definition log_event (h : Heap) (e : LockEvent) : Heap :=
  mkHeap (links h) (rivers h) (lock_trace h ++ [e]).

(** [new Link]: the address is the next free index. *)
Definition new_link (h : Heap) : nat * Heap :=
  (length (links h), with_links h (links h ++ [Link.fresh])).

Definition get_link (h : Heap) (l : nat) : outcome Link.t :=
  deref (links h !! l).

(** An assignment [link->field = v]. *)
Definition upd_link (h : Heap) (l : nat) (f : Link.t -> Link.t) : outcome Heap :=
  L <- get_link h l ;;
  Ok (with_links h (<[l := f L]> (links h))).

(** Modelled from the spec: [River::River()] is declared in river.hpp and
    its body is not among the sources; "By default, the river is empty":
    the constructor allocates an empty storage vector. *)
Definition new_river (h : Heap) : nat * Heap :=
  (length (rivers h), with_rivers h (rivers h ++ [[]])).

(** [*river->storage] *)
Definition get_storage (h : Heap) (r : nat) : outcome bytes :=
  deref (rivers h !! r).

Definition set_storage (h : Heap) (r : nat) (st : bytes) : outcome Heap :=
  _ <- get_storage h r ;;
  Ok (with_rivers h (<[r := st]> (rivers h))).

(** [if (link->lock) link->lock->acquire();] and its counterpart. *)
Definition acquire_if_locked (h : Heap) (L : Link.t) : Heap :=
  match Link.lock L with
  | Some k => log_event h (Acquire k)
  | None => h
  end.

Definition release_if_locked (h : Heap) (L : Link.t) : Heap :=
  match Link.lock L with
  | Some k => log_event h (Release k)
  | None => h
  end.

Module Linkable.

(** Modelled from the spec: [Linkable::linked()] is declared in link.hpp
    and its body is not among the sources.  "A handle is linked exactly
    when its Link has a non-null storage reference"; a handle that was
    never given a Link is not linked. *)
Definition linked (link : option nat) (h : Heap) : bool :=
  match link with
  | None => false
  | Some l =>
      match links h !! l with
      | Some L => bool_decide (is_Some (Link.river L))
      | None => false
      end
  end.

End Linkable.

(* ===================================================================== *)
(** ** Channel handles (channel.hpp, channel.cpp) *)
(* ===================================================================== *)

Module Channel.

(** A [Channel<T>]: the [link] inherited from [Linkable] ([None] when
    null) and [sizeof(T)].  A value of type [T] is its [size] bytes. *)
Record t : Type := mk {
  link : option nat;
  size : nat
}.

(** A default-constructed handle. *)
Definition unbound (sz : nat) : t := mk None sz.

(** [T()]: the value-initialised scalar. *)
Definition default_value (c : t) : bytes := repeat Byte.x00 (size c).

(** [ChannelBase::serialize]: [dest] is the buffer behind the pointer. *)
Definition serialize (c : t) (dest : bytes) (h : Heap) : outcome (bytes * Heap) :=
  if negb (Linkable.linked (link c) h) then Ok (dest, h)
  else
    l <- deref (link c) ;;
    L <- get_link h l ;;
    let h1 := acquire_if_locked h L in
    r <- deref (Link.river L) ;;
    st <- get_storage h1 r ;;
    off <- deref (Link.channel_offset L) ;;
    src <- read_bytes st off (size c) ;;
    dest' <- write_bytes dest 0 src ;;
    Ok (dest', release_if_locked h1 L).

(** [ChannelBase::deserialize]: [src] is the buffer behind the pointer. *)
Definition deserialize (c : t) (src : bytes) (h : Heap) : outcome Heap :=
  if negb (Linkable.linked (link c) h) then Ok h
  else
    l <- deref (link c) ;;
    L <- get_link h l ;;
    let h1 := acquire_if_locked h L in
    r <- deref (Link.river L) ;;
    st <- get_storage h1 r ;;
    off <- deref (Link.channel_offset L) ;;
    val <- read_bytes src 0 (size c) ;;
    st' <- write_bytes st off val ;;
    h2 <- set_storage h1 r st' ;;
    Ok (release_if_locked h2 L).

(** [Channel<T>::get] *)
Definition get (c : t) (h : Heap) : outcome (bytes * Heap) :=
  let val := default_value c in
  serialize c val h.

(** [Channel<T>::set] *)
Definition set (c : t) (val : bytes) (h : Heap) : outcome Heap :=
  deserialize c val h.

End Channel.

(* ===================================================================== *)
(** ** Rivulet handles (rivulet.hpp, rivulet.cpp) *)
(* ===================================================================== *)

Module Rivulet.

Record t : Type := mk {
  link : option nat
}.

(** A default-constructed handle. *)
Definition unbound : t := mk None.

(** [Rivulet::read]: [dest] is [None] for a null pointer, else the
    caller's buffer, returned as the call leaves it. *)
Definition read (rv : t) (dest : option bytes) (h : Heap)
  : outcome (option bytes * Heap) :=
  match dest with
  | None => Ok (dest, h)
  | Some buf =>
      if negb (Linkable.linked (link rv) h) then Ok (dest, h)
      else
        l <- deref (link rv) ;;
        L <- get_link h l ;;
        let h1 := acquire_if_locked h L in
        r <- deref (Link.river L) ;;
        st <- get_storage h1 r ;;
        off <- deref (Link.rivulet_offset L) ;;
        n <- deref (Link.rivulet_size L) ;;
        src <- read_bytes st off n ;;
        buf' <- write_bytes buf 0 src ;;
        Ok (Some buf', release_if_locked h1 L)
  end.

(** [Rivulet::write]: [src] is [None] for a null pointer. *)
Definition write (rv : t) (src : option bytes) (h : Heap) : outcome Heap :=
  match src with
  | None => Ok h
  | Some buf =>
      if negb (Linkable.linked (link rv) h) then Ok h
      else
        l <- deref (link rv) ;;
        L <- get_link h l ;;
        let h1 := acquire_if_locked h L in
        r <- deref (Link.river L) ;;
        st <- get_storage h1 r ;;
        off <- deref (Link.rivulet_offset L) ;;
        n <- deref (Link.rivulet_size L) ;;
        val <- read_bytes buf 0 n ;;
        st' <- write_bytes st off val ;;
        h2 <- set_storage h1 r st' ;;
        Ok (release_if_locked h2 L)
  end.

(** [Rivulet::size] *)
Definition size (rv : t) (h : Heap) : outcome nat :=
  if negb (Linkable.linked (link rv) h) then Ok 0%nat
  else
    l <- deref (link rv) ;;
    L <- get_link h l ;;
    deref (Link.rivulet_size L).

End Rivulet.

(* ===================================================================== *)
(** ** The builder (builder.hpp, builder.cpp) *)
(* ===================================================================== *)

Module Builder.

(** Error codes of the builder interface. *)
Definition ERR_INVALID : Z := 1.
Definition ERR_NOTFOUND : Z := 2.
Definition ERR_DUPE : Z := 3.
Definition ERR_NOTROOT : Z := 4.

(** [ChannelInfo<T>]: the initial value, as its [sizeof(T)] bytes. *)
Record ChannelInfo : Type := mkChannelInfo {
  init_val : bytes
}.

(** [ChannelInfo<T>::size] *)
Definition size (ci : ChannelInfo) : nat := length (init_val ci).

(** [struct Node].  A node is owned by its parent's [children] vector;
    [link] is the index of the node's [Link] in the heap, [None] when
    the pointer is null. *)
Unset Elimination Schemes.
Inductive Node : Type := mkNode {
  name : string;
  channel_info : option ChannelInfo;
  link : option nat;
  children : list Node
}.
Set Elimination Schemes.

(** [new Node] *)
Definition empty_node : Node := mkNode EmptyString None None [].

Definition with_channel_info (n : Node) (ci : option ChannelInfo) : Node :=
  mkNode (name n) ci (link n) (children n).
Definition with_link (n : Node) (l : option nat) : Node :=
  mkNode (name n) (channel_info n) l (children n).
Definition with_name (n : Node) (s : string) : Node :=
  mkNode s (channel_info n) (link n) (children n).
Definition with_children (n : Node) (cs : list Node) : Node :=
  mkNode (name n) (channel_info n) (link n) cs.

(** A [shared_ptr<Node>] into the tree is the list of child indices that
    leads to the node; [get_node] dereferences it and [set_node] stores
    through it. *)
Fixpoint get_node (n : Node) (p : list nat) : option Node :=
  match p with
  | [] => Some n
  | i :: p' =>
      match children n !! i with
      | Some c => get_node c p'
      | None => None
      end
  end.

Fixpoint set_node (n : Node) (p : list nat) (new : Node) : Node :=
  match p with
  | [] => new
  | i :: p' =>
      match children n !! i with
      | Some c => with_children n (<[i := set_node c p' new]> (children n))
      | None => n
      end
  end.

(** The metadata tree of a root builder together with the heap. *)
Record State : Type := mkState {
  tree : Node;
  heap : Heap
}.

(** [class Builder]: [root] points into the tree, [is_root] tells the
    root builder from the builders handed out by [sub]. *)
Record t : Type := mk {
  root : list nat;
  is_root : bool
}.

(** [Builder::Builder()] *)
Definition new_builder : t * State :=
  (mk [] true, mkState empty_node empty_heap).

(** *** Path tokenization: [Builder::tokenize_path] *)

Definition dot : ascii := "."%char.

(** [std::isalnum] in the "C" locale. *)
Definition isalnum (c : ascii) : bool :=
  let n := nat_of_ascii c in
  ((48 <=? n)%nat && (n <=? 57)%nat)
  || ((65 <=? n)%nat && (n <=? 90)%nat)
  || ((97 <=? n)%nat && (n <=? 122)%nat).

(** The lambda [char_is_invalid]: the dot is let through here, but no
    token ever holds one, since the path was split on dots. *)
Definition char_is_invalid (c : ascii) : bool :=
  negb (isalnum c) && negb (Ascii.eqb c "_"%char) && negb (Ascii.eqb c dot).

(** [std::find_if(token.begin(), token.end(), char_is_invalid) != token.end()] *)
Fixpoint has_invalid_char (token : string) : bool :=
  match token with
  | EmptyString => false
  | String c rest => char_is_invalid c || has_invalid_char rest
  end.

(** The loop [while (std::getline(ss, token, '.')) tokens.push_back(token);]
    run one character of the stream at a time.  [ss] is the unread part of
    the stream, [token] what the current [getline] call has extracted so
    far and [tokens] the vector.
    - a dot ends the current call with success (the delimiter is extracted
      and dropped), the token is pushed and the next call starts empty;
    - at the end of the stream a call that extracted nothing sets failbit
      and ends the loop without a push; a call that extracted characters
      succeeds with eofbit set, its token is pushed, and the next call
      fails at once. *)
Fixpoint getline_loop (ss : string) (token : string) (tokens : list string)
  : list string :=
  match ss with
  | EmptyString =>
      match token with
      | EmptyString => tokens
      | _ => tokens ++ [token]
      end
  | String c ss' =>
      if Ascii.eqb c dot
      then getline_loop ss' EmptyString (tokens ++ [token])
      else getline_loop ss' (token ++ String c EmptyString)%string tokens
  end.

(** The range-for over [tokens]: the first offending token decides. *)
Fixpoint check_tokens (tokens : list string) : Z :=
  match tokens with
  | [] => 0
  | token :: rest =>
      match token with
      | EmptyString => ERR_INVALID
      | _ => if has_invalid_char token then ERR_INVALID else check_tokens rest
      end
  end.

(** [Builder::tokenize_path]: the return code and the contents of the
    output vector [tokens] (filled whatever the return code). *)
Definition tokenize_path (path : string) : Z * list string :=
  let tokens := getline_loop path EmptyString [] in
  match tokens with
  | [] => (ERR_INVALID, tokens)
  | _ => (check_tokens tokens, tokens)
  end.

(** Re-joining tokens with dots. *)
Definition join (tokens : list string) : string := String.concat "." tokens.

(** *** Tree insertion: [Builder::insert_node] *)

(** The search loop of [insert_node]: index of the first child whose name
    is the token. *)
Fixpoint find_child (token : string) (cs : list Node) : option (nat * Node) :=
  match cs with
  | [] => None
  | child :: rest =>
      if String.eqb (name child) token then Some (0%nat, child)
      else
        match find_child token rest with
        | Some (i, c) => Some (S i, c)
        | None => None
        end
  end.

(** [insert_node(node, path, index, create, node_ret)], with [path] here
    the tokens from [index] on.  The result is the subtree as the call
    leaves it and [node_ret], relative to [node] ([None]: left null). *)
Fixpoint insert_node (node : Node) (path : list string) (create : bool)
  : Node * option (list nat) :=
  match path with
  | [] => (node, Some [])
  | token :: rest =>
      match find_child token (children node) with
      | Some (i, child) =>
          let '(child', node_ret) := insert_node child rest create in
          (with_children node (<[i := child']> (children node)),
           cons i <$> node_ret)
      | None =>
          if create then
            let new_child := mkNode token None None [] in
            let '(child', node_ret) := insert_node new_child rest create in
            (with_children node (children node ++ [child']),
             cons (length (children node)) <$> node_ret)
          else (node, None)
      end
  end.

(** *** Traversal: [Builder::for_each_node] *)

(** A [std::function<int32_t(shared_ptr<Node>)>] whose captures and the
    heap it touches are the state [S].  It returns its code, the node as
    it leaves it and the state.  None of the lambdas of the builder
    changes [children], and the traversal goes on over the children the
    node had. *)
Definition visitor (S : Type) : Type := Node -> S -> outcome (Z * Node * S).

(** The loop over the children in [for_each_node], [rec] being the
    recursive call. *)
Definition for_each_children {S : Type} (rec : visitor S)
  : list Node -> S -> outcome (Z * list Node * S) :=
  fix loop (cs : list Node) (s : S) :=
    match cs with
    | [] => Ok (0, [], s)
    | child :: rest =>
        match rec child s with
        | Fault => Fault
        | Ok (ret, child', s1) =>
            if negb (ret =? 0) then Ok (ret, child' :: rest, s1)
            else
              match loop rest s1 with
              | Fault => Fault
              | Ok (ret', rest', s2) => Ok (ret', child' :: rest', s2)
              end
        end
    end.

Fixpoint for_each_node {S : Type} (func : visitor S) (node : Node) (s : S)
  : outcome (Z * Node * S) :=
  match func node s with
  | Fault => Fault
  | Ok (ret, node1, s1) =>
      if negb (ret =? 0) then Ok (ret, node1, s1)
      else
        match for_each_children (for_each_node func) (children node) s1 with
        | Fault => Fault
        | Ok (ret', cs', s2) => Ok (ret', with_children node1 cs', s2)
        end
  end.

(** *** The lambdas handed to [for_each_node] *)

(** [check_for_locks] in [Builder::lock]; both asserts guard a
    dereference, so a null [link] is a fault with or without NDEBUG. *)
Definition check_for_locks : visitor Heap := fun node h =>
  l <- deref (link node) ;;
  L <- get_link h l ;;
  Ok (match Link.lock L with Some _ => -1 | None => 0 end, node, h).

(** [assign_lock] in [Builder::lock], capturing [lock]. *)
Definition assign_lock (lock : option nat) : visitor Heap := fun node h =>
  l <- deref (link node) ;;
  L <- get_link h l ;;
  match Link.lock L with
  | Some _ => Fault
  | None =>
      h' <- upd_link h l (Link.set_lock lock) ;;
      Ok (0, node, h')
  end.

(** [remove_link] in [Builder::build]: [node->link.reset()]. *)
Definition remove_link : visitor unit := fun node s =>
  Ok (0, with_link node None, s).

(** [sum_size] in [Builder::build_node], capturing [rivulet_size]. *)
Definition sum_size : visitor nat := fun node rivulet_size =>
  match channel_info node with
  | Some ci => Ok (0, node, (rivulet_size + size ci)%nat)
  | None => Ok (0, node, rivulet_size)
  end.

(** *** Layout: [Builder::build_node] *)

(** The loop [for (child : node->children) for_each_node(child, sum_size);] *)
Fixpoint sum_children (cs : list Node) (rivulet_size : nat) : outcome nat :=
  match cs with
  | [] => Ok rivulet_size
  | child :: rest =>
      r <- for_each_node sum_size child rivulet_size ;;
      sum_children rest (snd r)
  end.

(** The first half of [build_node]: bind the link to the river and, for a
    channel, append its initial value to the storage. *)
Definition establish_link (node : Node) (river : nat) (h : Heap) : outcome Heap :=
  match link node with
  | None => Ok h
  | Some l =>
      h1 <- upd_link h l (Link.set_river (Some river)) ;;
      match channel_info node with
      | None => Ok h1
      | Some ci =>
          st <- get_storage h1 river ;;
          let old_river_size := length st in
          h2 <- set_storage h1 river (st ++ repeat Byte.x00 (size ci)) ;;
          h3 <- upd_link h2 l (Link.set_channel_offset (Some old_river_size)) ;;
          L <- get_link h3 l ;;
          off <- deref (Link.channel_offset L) ;;
          st3 <- get_storage h3 river ;;
          st4 <- write_bytes st3 off (init_val ci) ;;
          set_storage h3 river st4
      end
  end.

(** The last part of [build_node]: size and offset of the rivulet rooted
    at the node.  [children[0]->link] is dereferenced without a check; the
    [channel_offset] read there is copied as it is, assigned or not. *)
Definition set_rivulet (node : Node) (h : Heap) : outcome Heap :=
  match link node with
  | None => Ok h
  | Some l =>
      rivulet_size <- sum_children (children node) 0%nat ;;
      h1 <- upd_link h l (Link.set_rivulet_size (Some rivulet_size)) ;;
      off <- match children node with
             | [] => Ok (Some 0%nat)
             | child0 :: _ =>
                 l0 <- deref (link child0) ;;
                 L0 <- get_link h1 l0 ;;
                 Ok (Link.channel_offset L0)
             end ;;
      upd_link h1 l (Link.set_rivulet_offset off)
  end.

(** The loop over the children in [build_node]. *)
Definition build_children (rec : Node -> nat -> Heap -> outcome Heap) (river : nat)
  : list Node -> Heap -> outcome Heap :=
  fix loop (cs : list Node) (h : Heap) :=
    match cs with
    | [] => Ok h
    | child :: rest =>
        match rec child river h with
        | Fault => Fault
        | Ok h1 => loop rest h1
        end
    end.

(** [Builder::build_node].  The node is never null here: the root of a
    builder always exists. *)
Fixpoint build_node (node : Node) (river : nat) (h : Heap) : outcome Heap :=
  match establish_link node river h with
  | Fault => Fault
  | Ok h1 =>
      match build_children build_node river (children node) h1 with
      | Fault => Fault
      | Ok h2 => set_rivulet node h2
      end
  end.

(** *** The public interface *)

Definition with_tree (σ : State) (n : Node) : State := mkState n (heap σ).
Definition with_heap (σ : State) (h : Heap) : State := mkState (tree σ) h.

(** [Builder::channel<T>]: [channel] is the caller's handle, returned as
    the call leaves it. *)
Definition channel (b : t) (path : string) (init_val : bytes)
  (channel : Channel.t) (σ : State) : outcome (Z * Channel.t * State) :=
  let '(tokenize_ret, tokens) := tokenize_path path in
  if negb (tokenize_ret =? 0) then Ok (tokenize_ret, channel, σ)
  else
    root_node <- deref (get_node (tree σ) (root b)) ;;
    let '(root_node', node_ret) := insert_node root_node tokens true in
    p <- deref node_ret ;;
    channel_node <- deref (get_node root_node' p) ;;
    let tree1 := set_node (tree σ) (root b) root_node' in
    match channel_info channel_node with
    | Some _ => Ok (ERR_DUPE, channel, with_tree σ tree1)
    | None =>
        let n1 := with_name channel_node (List.last tokens EmptyString) in
        let n2 := with_channel_info n1 (Some (mkChannelInfo init_val)) in
        let '(l, h1) := match link n2 with
                        | Some l => (l, heap σ)
                        | None => new_link (heap σ)
                        end in
        let n3 := with_link n2 (Some l) in
        Ok (0, Channel.mk (Some l) (Channel.size channel),
            mkState (set_node tree1 (root b ++ p) n3) h1)
    end.

(** [Builder::rivulet] *)
Definition rivulet (b : t) (path : string) (rivulet : Rivulet.t) (σ : State)
  : outcome (Z * Rivulet.t * State) :=
  let '(tokenize_ret, tokens) := tokenize_path path in
  if negb (tokenize_ret =? 0) then Ok (tokenize_ret, rivulet, σ)
  else
    root_node <- deref (get_node (tree σ) (root b)) ;;
    let '(root_node', node_ret) := insert_node root_node tokens false in
    let tree1 := set_node (tree σ) (root b) root_node' in
    match node_ret with
    | None => Ok (ERR_NOTFOUND, rivulet, with_tree σ tree1)
    | Some p =>
        rivulet_node <- deref (get_node root_node' p) ;;
        let '(l, h1) := match link rivulet_node with
                        | Some l => (l, heap σ)
                        | None => new_link (heap σ)
                        end in
        let n1 := with_link rivulet_node (Some l) in
        Ok (0, Rivulet.mk (Some l),
            mkState (set_node tree1 (root b ++ p) n1) h1)
    end.

(** [Builder::lock]: [lock] is the shared pointer to the lock, [None]
    when null. *)
Definition lock (b : t) (path : string) (lock : option nat) (σ : State)
  : outcome (Z * State) :=
  let '(tokenize_ret, tokens) := tokenize_path path in
  if negb (tokenize_ret =? 0) then Ok (tokenize_ret, σ)
  else
    root_node <- deref (get_node (tree σ) (root b)) ;;
    let '(root_node', node_ret) := insert_node root_node tokens false in
    let tree1 := set_node (tree σ) (root b) root_node' in
    match node_ret with
    | None => Ok (ERR_NOTFOUND, with_tree σ tree1)
    | Some p =>
        node <- deref (get_node root_node' p) ;;
        r <- for_each_node check_for_locks node (heap σ) ;;
        if negb (fst (fst r) =? 0) then Ok (ERR_DUPE, with_tree σ tree1)
        else
          r' <- for_each_node (assign_lock lock) node (heap σ) ;;
          Ok (0, mkState (set_node tree1 (root b ++ p) (snd (fst r'))) (snd r'))
    end.

(** [Builder::build]: the second component is the river handed back
    through the pointer [river_ret]. *)
Definition build (b : t) (σ : State) : outcome (Z * option nat * State) :=
  if negb (is_root b) then Ok (ERR_NOTROOT, None, σ)
  else
    let '(river, h1) := new_river (heap σ) in
    root_node <- deref (get_node (tree σ) (root b)) ;;
    h2 <- build_node root_node river h1 ;;
    r <- for_each_node remove_link root_node tt ;;
    Ok (0, Some river, mkState (set_node (tree σ) (root b) (snd (fst r))) h2).

(** [Builder::sub]: [builder] is the caller's builder object, returned as
    the call leaves it. *)
Definition sub (b : t) (path : string) (builder : t) (σ : State)
  : outcome (Z * t * State) :=
  let '(tokenize_ret, tokens) := tokenize_path path in
  if negb (tokenize_ret =? 0) then Ok (tokenize_ret, builder, σ)
  else
    root_node <- deref (get_node (tree σ) (root b)) ;;
    let '(root_node', node_ret) := insert_node root_node tokens true in
    p <- deref node_ret ;;
    Ok (0, mk (root b ++ p) false,
        with_tree σ (set_node (tree σ) (root b) root_node')).

(** *** Printing: [operator<<] and [Builder::print_helper] *)

(** The character written by ["\n"]. *)
Definition newline : string := String "010"%char EmptyString.

(** The loop [for (i = 0; i < indent_level; ++i)] that writes four spaces
    each time round, [os] being the text written to the stream so far. *)
Fixpoint print_indents (os : string) (indent_level : nat) : string :=
  match indent_level with
  | O => os
  | S i => print_indents (os ++ "    ")%string i
  end.

(** The loop over the children in [print_helper], [rec] being the
    recursive call. *)
Definition print_children (rec : string -> Node -> string)
  : string -> list Node -> string :=
  fix loop (os : string) (cs : list Node) :=
    match cs with
    | [] => os
    | child :: rest => loop (rec os child) rest
    end.

(** [Builder::print_helper]: the text on the stream after the call.
    [indent_level] is a [uint64_t]; it counts the depth of the recursion
    and does not wrap. *)
Fixpoint print_helper (os : string) (node : Node) (root : bool)
  (indent_level : nat) {struct node} : string :=
  if String.eqb (name node) EmptyString
     && match children node with [] => true | _ :: _ => false end
  then os
  else
    let ret := print_indents os indent_level in
    let ret := if negb root then (ret ++ name node ++ newline)%string else ret in
    print_children
      (fun os' child =>
         print_helper os' child false (indent_level + (if root then 0 else 1))%nat)
      ret (children node).

(** [operator<<(std::ostream&, const Builder&)] *)
Definition print (os : string) (builder : t) (σ : State) : outcome string :=
  root_node <- deref (get_node (tree σ) (root builder)) ;;
  Ok (print_helper os root_node true 0%nat).

End Builder.

(* ===================================================================== *)
(** ** Vocabulary of the properties *)
(* ===================================================================== *)

(** What is left of the path once the tokens pushed so far are taken
    away: each with the dot that ended it. *)
Fixpoint dotted (tokens : list string) : string :=
  match tokens with
  | [] => EmptyString
  | t :: ts => (t ++ "." ++ dotted ts)%string
  end.

(** A handle without built storage: it was never given a Link, or the
    river pointer of its Link is null. *)
Definition no_storage (link : option nat) (h : Heap) : Prop :=
  match link with
  | None => True
  | Some l => exists L, links h !! l = Some L /\ Link.river L = None
  end.

(** The nodes of a subtree in depth-first order, the root first and the
    children in insertion order: the order of every traversal of the
    builder. *)
Fixpoint nodes (n : Builder.Node) : list Builder.Node :=
  n :: flat_map nodes (Builder.children n).

(** The proper descendants of a node, in the same order. *)
Definition descendants (n : Builder.Node) : list Builder.Node :=
  flat_map nodes (Builder.children n).

(** The Links a subtree points to. *)
Definition node_links (n : Builder.Node) : list nat :=
  omap Builder.link (nodes n).

(** A visitor that leaves the node alone, given by its effect on the
    state alone. *)
Definition lift_visitor {S : Type}
  (f : Builder.Node -> S -> outcome (Z * S)) : Builder.visitor S :=
  fun node s => r <- f node s ;; Ok (fst r, node, snd r).

(** Running such a visitor down a list of nodes, stopping at the first
    non-zero code. *)
Fixpoint visit_list {S : Type} (f : Builder.Node -> S -> outcome (Z * S))
  (ns : list Builder.Node) (s : S) : outcome (Z * S) :=
  match ns with
  | [] => Ok (0, s)
  | m :: rest =>
      match f m s with
      | Fault => Fault
      | Ok (ret, s1) => if negb (ret =? 0) then Ok (ret, s1) else visit_list f rest s1
      end
  end.

(** A tree with every [link] reset: what [remove_link] leaves. *)
Fixpoint strip_links (n : Builder.Node) : Builder.Node :=
  Builder.mkNode (Builder.name n) (Builder.channel_info n) None
    (map strip_links (Builder.children n)).

(** The node that a list of tokens names below the root of a builder,
    found the way [rivulet] and [lock] look it up. *)
Definition subtree_at (b : Builder.t) (tokens : list string) (σ : Builder.State)
  : option Builder.Node :=
  match Builder.get_node (Builder.tree σ) (Builder.root b) with
  | None => None
  | Some root_node =>
      match snd (Builder.insert_node root_node tokens false) with
      | None => None
      | Some p => Builder.get_node root_node p
      end
  end.

(** The Link a node points to, when there is one and it is allocated. *)
Definition link_of (h : Heap) (m : Builder.Node) : option Link.t :=
  match Builder.link m with
  | Some l => links h !! l
  | None => None
  end.

(** Every node of the subtree holds a Link. *)
Definition all_linked (h : Heap) (n : Builder.Node) : Prop :=
  Forall (fun m => is_Some (link_of h m)) (nodes n).

(** No Link of the subtree holds a lock. *)
Definition unlocked (h : Heap) (n : Builder.Node) : Prop :=
  Forall (fun m => forall L, link_of h m = Some L -> Link.lock L = None) (nodes n).

(** Every node of the subtree holds a Link, and each of these Links
    holds the lock pointer [lk]. *)
Definition locked_by (h : Heap) (lk : option nat) (n : Builder.Node) : Prop :=
  Forall (fun m => exists L, link_of h m = Some L /\ Link.lock L = lk) (nodes n).

(** The effect of [check_for_locks] and of [assign_lock] on the heap. *)
Definition check_lock (m : Builder.Node) (h : Heap) : outcome (Z * Heap) :=
  l <- deref (Builder.link m) ;;
  L <- get_link h l ;;
  Ok (match Link.lock L with Some _ => -1 | None => 0 end, h).

Definition store_lock (lk : option nat) (m : Builder.Node) (h : Heap)
  : outcome (Z * Heap) :=
  l <- deref (Builder.link m) ;;
  L <- get_link h l ;;
  match Link.lock L with
  | Some _ => Fault
  | None => h' <- upd_link h l (Link.set_lock lk) ;; Ok (0, h')
  end.

(** The links with the lock pointer of each Link listed set to [lk]. *)
Definition lock_all (lk : option nat) (ls : list nat) (lks : list Link.t)
  : list Link.t :=
  foldl (fun acc l => alter (Link.set_lock lk) l acc) lks ls.

(** A sequence of declarations on the root builder of a fresh tree, for
    the examples: each step is a channel of some bytes, a rivulet handle,
    a lock, or a sub-builder (dropped at once). *)
Inductive Decl : Type :=
| DChannel (path : string) (init_val : bytes)
| DRivulet (path : string)
| DLock (path : string) (lock : option nat)
| DSub (path : string).

Definition declare (d : Decl) (σ : Builder.State) : outcome (Z * Builder.State) :=
  let b := fst Builder.new_builder in
  match d with
  | DChannel path init_val =>
      r <- Builder.channel b path init_val (Channel.unbound (length init_val)) σ ;;
      Ok (fst (fst r), snd r)
  | DRivulet path =>
      r <- Builder.rivulet b path Rivulet.unbound σ ;;
      Ok (fst (fst r), snd r)
  | DLock path lock => Builder.lock b path lock σ
  | DSub path =>
      r <- Builder.sub b path b σ ;;
      Ok (fst (fst r), snd r)
  end.

(** The state after the declarations, each of which has to return 0. *)
Fixpoint declare_all (ds : list Decl) (σ : Builder.State) : outcome Builder.State :=
  match ds with
  | [] => Ok σ
  | d :: rest =>
      r <- declare d σ ;;
      if fst r =? 0 then declare_all rest (snd r) else Fault
  end.

(** The tree with channels [a], [a.x] and [b], before and after
    [lock("a", 7)]. *)
Definition demo_abx : Builder.State :=
  Eval vm_compute in
  match declare_all [DChannel "a" [Byte.x01]; DChannel "a.x" [Byte.x02];
                     DChannel "b" [Byte.x03]] (snd Builder.new_builder) with
  | Ok σ => σ
  | Fault => snd Builder.new_builder
  end.

Definition demo_abx_locked : Builder.State :=
  Eval vm_compute in
  match Builder.lock (fst Builder.new_builder) "a" (Some 7%nat) demo_abx with
  | Ok (_, σ) => σ
  | Fault => demo_abx
  end.

(** A node that [build_node] lays out: a channel that holds a Link. *)
Definition chan_of (m : Builder.Node) : option (nat * Builder.ChannelInfo) :=
  match Builder.link m, Builder.channel_info m with
  | Some l, Some ci => Some (l, ci)
  | _, _ => None
  end.

(** The channels of a list of nodes that are laid out, in order, and the
    bytes their initial values take. *)
Definition chans_of (ns : list Builder.Node) : list (nat * Builder.ChannelInfo) :=
  omap chan_of ns.

Definition init_bytes (chs : list (nat * Builder.ChannelInfo)) : bytes :=
  flat_map (fun c => Builder.init_val (snd c)) chs.

Definition layout (n : Builder.Node) : bytes := init_bytes (chans_of (nodes n)).

(** The size [sum_size] adds for a node, and its total over a list. *)
Definition info_size (m : Builder.Node) : nat :=
  match Builder.channel_info m with
  | Some ci => Builder.size ci
  | None => 0
  end.

Definition total_size (ns : list Builder.Node) : nat :=
  sum_list_with info_size ns.

(** The bytes a node itself takes in the storage. *)
Definition own_size (m : Builder.Node) : nat :=
  match chan_of m with
  | Some (_, ci) => Builder.size ci
  | None => 0
  end.

(** What a successful [build_node] leaves in the Link of a node whose
    own bytes, if any, start at [base]: the river, the channel offset, the
    rivulet size (the channels below the node, the node's own excluded)
    and, when the node has no child or its first child is a channel that
    is laid out, the rivulet offset. *)
Definition own_post (lks : list Link.t) (river base : nat) (n : Builder.Node) : Prop :=
  match Builder.link n with
  | None => True
  | Some l =>
      exists L, lks !! l = Some L
        /\ Link.river L = Some river
        /\ (is_Some (Builder.channel_info n) -> Link.channel_offset L = Some base)
        /\ Link.rivulet_size L = Some (total_size (descendants n))
        /\ match Builder.children n with
           | [] => Link.rivulet_offset L = Some 0%nat
           | c0 :: _ =>
               is_Some (chan_of c0) ->
               Link.rivulet_offset L = Some (base + own_size n)%nat
           end
  end.

(** The same for the children of a node, one after the other. *)
Fixpoint list_post (P : nat -> Builder.Node -> Prop) (base : nat)
  (cs : list Builder.Node) : Prop :=
  match cs with
  | [] => True
  | c :: rest => P base c /\ list_post P (base + length (layout c))%nat rest
  end.

Fixpoint tree_post (lks : list Link.t) (river base : nat) (n : Builder.Node)
  : Prop :=
  own_post lks river base n
  /\ list_post (tree_post lks river) (base + own_size n)%nat (Builder.children n).

(** Channels laid out one after the other from [base] on. *)
Fixpoint laid_out (lks : list Link.t) (river base : nat)
  (chs : list (nat * Builder.ChannelInfo)) : Prop :=
  match chs with
  | [] => True
  | c :: rest =>
      (exists L, lks !! fst c = Some L
         /\ Link.river L = Some river
         /\ Link.channel_offset L = Some base)
      /\ laid_out lks river (base + Builder.size (snd c))%nat rest
  end.

(** The effect of [sum_size] on its counter. *)
Definition add_size (m : Builder.Node) (rivulet_size : nat) : outcome (Z * nat) :=
  Ok (0, (rivulet_size + info_size m)%nat).

(** The bytes that a node itself adds to the storage. *)
Definition own_bytes (m : Builder.Node) : bytes :=
  match chan_of m with
  | Some (_, ci) => Builder.init_val ci
  | None => []
  end.

(** What a part of a build may change in the heap: it appends [added] to
    the storage [st] of the river, writes only to the Links [ls], and
    leaves every lock pointer, the other rivers and the calls made on
    locks alone. *)
Definition build_frame (ls : list nat) (river : nat) (st added : bytes)
  (h h' : Heap) : Prop :=
  rivers h' = <[river := st ++ added]> (rivers h)
  /\ lock_trace h' = lock_trace h
  /\ length (links h') = length (links h)
  /\ (forall l, l ∉ ls -> links h' !! l = links h !! l)
  /\ (forall l L', links h' !! l = Some L' ->
        exists L, links h !! l = Some L /\ Link.lock L' = Link.lock L).

(** What a successful [build_node] on a subtree guarantees, from a heap
    where the storage of the river is [st]. *)
Definition build_node_spec (n : Builder.Node) : Prop :=
  forall river h h' st,
    NoDup (node_links n) ->
    rivers h !! river = Some st ->
    Builder.build_node n river h = Ok h' ->
    build_frame (node_links n) river st (layout n) h h'
    /\ tree_post (links h') river (length st) n.

(** The heap after one guarded access through a Link: the lock, if any,
    was acquired and released once. *)
Definition bracketed (h : Heap) (L : Link.t) : Heap :=
  release_if_locked (acquire_if_locked h L) L.

(** The heap with one more river, empty: what [build] starts from. *)
Definition with_new_river (h : Heap) : Heap := snd (new_river h).

(** The states the builder keeps to: the Links the tree points to are
    pairwise distinct and allocated. *)
Definition wf (σ : Builder.State) : Prop :=
  NoDup (node_links (Builder.tree σ))
  /\ forall l, l ∈ node_links (Builder.tree σ) -> (l < length (links (Builder.heap σ)))%nat.

(** The tree with the one channel [foo] of two bytes. *)
Definition demo_foo : Builder.State :=
  Eval vm_compute in
  match declare_all [DChannel "foo" [Byte.x2a; Byte.x01]] (snd Builder.new_builder) with
  | Ok σ => σ
  | Fault => snd Builder.new_builder
  end.

(** The result of a handle operation with a function applied to the heap
    it leaves. *)
Definition on_heap {A} (f : Heap -> Heap) (m : outcome (A * Heap)) : outcome (A * Heap) :=
  match m with
  | Ok (a, h) => Ok (a, f h)
  | Fault => Fault
  end.

Definition on_heap' (f : Heap -> Heap) (m : outcome Heap) : outcome Heap :=
  match m with
  | Ok h => Ok (f h)
  | Fault => Fault
  end.

(** The Link behind a handle, if any, points to a river that exists. *)
Definition river_bound (link : option nat) (h : Heap) : Prop :=
  forall l L r, link = Some l -> links h !! l = Some L -> Link.river L = Some r ->
                (r < length (rivers h))%nat.

(** A buffer cut into pieces of the sizes given, in order. *)
Fixpoint slices (sizes : list nat) (bs : bytes) : list bytes :=
  match sizes with
  | [] => []
  | n :: rest => take n bs :: slices rest (drop n bs)
  end.

(** The handle of a channel that is laid out. *)
Definition handle_of (ch : nat * Builder.ChannelInfo) : Channel.t :=
  Channel.mk (Some (fst ch)) (Builder.size (snd ch)).

Definition sizes_of (chs : list (nat * Builder.ChannelInfo)) : list nat :=
  map (fun ch => Builder.size (snd ch)) chs.

(** The tree with the channel [p] of eight bytes, the channel [p.v] of one
    byte below it, and a rivulet handle at [p]. *)
Definition demo_pv : Builder.State :=
  Eval vm_compute in
  match declare_all [DChannel "p" (repeat Byte.x07 8); DChannel "p.v" [Byte.x01];
                     DRivulet "p"] (snd Builder.new_builder) with
  | Ok σ => σ
  | Fault => snd Builder.new_builder
  end.

(** The tree of the example of the specification: [system.time],
    [system.abort], [control.pressure], [control.pressure.valid],
    [control.valve_open], and a rivulet handle at [control]. *)
Definition demo_readme : Builder.State :=
  Eval vm_compute in
  match declare_all [DChannel "system.time" (repeat Byte.x00 8);
                     DChannel "system.abort" [Byte.x00];
                     DChannel "control.pressure" (repeat Byte.x11 8);
                     DChannel "control.pressure.valid" [Byte.x01];
                     DChannel "control.valve_open" [Byte.x00];
                     DRivulet "control"] (snd Builder.new_builder) with
  | Ok σ => σ
  | Fault => snd Builder.new_builder
  end.

(** The same after a build. *)
Definition demo_readme_built : Builder.State :=
  Eval vm_compute in
  match Builder.build (fst Builder.new_builder) demo_readme with
  | Ok (_, _, σ) => σ
  | Fault => demo_readme
  end.

(** A token of the path grammar: not empty, letters, digits and
    underscores only. *)
Fixpoint token_chars (t : string) : bool :=
  match t with
  | EmptyString => true
  | String c rest =>
      (Builder.isalnum c || Ascii.eqb c "_"%char) && token_chars rest
  end.

Definition token_ok (t : string) : Prop := t <> EmptyString /\ token_chars t = true.

(** The calls that one guarded access through a handle makes on the lock
    of its Link: none when the handle is not linked or its Link holds no
    lock, else one [acquire] followed by one [release]. *)
Definition lock_calls (link : option nat) (h : Heap) : list LockEvent :=
  match link with
  | None => []
  | Some l =>
      match links h !! l with
      | None => []
      | Some L =>
          match Link.river L, Link.lock L with
          | Some _, Some k => [Acquire k; Release k]
          | _, _ => []
          end
      end
  end.

(** The river a handle is bound to, if any. *)
Definition river_of (link : option nat) (h : Heap) : option nat :=
  match link with
  | None => None
  | Some l =>
      match links h !! l with
      | None => None
      | Some L => Link.river L
      end
  end.

(** The calls a program makes on the builders of one tree and on the
    handles they gave out, with the arguments of each call. *)
Inductive Call : Type :=
| CallChannel (b : Builder.t) (path : string) (init_val : bytes) (c : Channel.t)
| CallRivulet (b : Builder.t) (path : string) (rv : Rivulet.t)
| CallLock (b : Builder.t) (path : string) (lock : option nat)
| CallSub (b : Builder.t) (path : string) (b0 : Builder.t)
| CallBuild (b : Builder.t)
| CallGet (c : Channel.t)
| CallSet (c : Channel.t) (val : bytes)
| CallRead (rv : Rivulet.t) (dest : option bytes)
| CallWrite (rv : Rivulet.t) (src : option bytes).

(** The state a call leaves, whatever it returned. *)
Definition run_call (k : Call) (σ : Builder.State) : outcome Builder.State :=
  match k with
  | CallChannel b path init_val c =>
      r <- Builder.channel b path init_val c σ ;; Ok (snd r)
  | CallRivulet b path rv => r <- Builder.rivulet b path rv σ ;; Ok (snd r)
  | CallLock b path lock => r <- Builder.lock b path lock σ ;; Ok (snd r)
  | CallSub b path b0 => r <- Builder.sub b path b0 σ ;; Ok (snd r)
  | CallBuild b => r <- Builder.build b σ ;; Ok (snd r)
  | CallGet c =>
      r <- Channel.get c (Builder.heap σ) ;; Ok (Builder.with_heap σ (snd r))
  | CallSet c val =>
      h <- Channel.set c val (Builder.heap σ) ;; Ok (Builder.with_heap σ h)
  | CallRead rv dest =>
      r <- Rivulet.read rv dest (Builder.heap σ) ;; Ok (Builder.with_heap σ (snd r))
  | CallWrite rv src =>
      h <- Rivulet.write rv src (Builder.heap σ) ;; Ok (Builder.with_heap σ h)
  end.

Fixpoint run_calls (ks : list Call) (σ : Builder.State) : outcome Builder.State :=
  match ks with
  | [] => Ok σ
  | k :: rest => σ1 <- run_call k σ ;; run_calls rest σ1
  end.

(** A call of [build] on a root builder: the one call that detaches the
    Links from the tree. *)
Definition builds (k : Call) : bool :=
  match k with
  | CallBuild b => Builder.is_root b
  | _ => false
  end.

(** The builder [b] stands at the node that the tokens [ts] name from the
    root of the tree: its [root] is the pointer that a lookup of [ts]
    returns.  The root builder stands at the empty list of tokens. *)
Definition stands_at (b : Builder.t) (ts : list string) (σ : Builder.State) : Prop :=
  snd (Builder.insert_node (Builder.tree σ) ts false) = Some (Builder.root b).

(** The subtree [n'] answers every lookup that [n] answers, with the same
    pointer, and has the name of [n]. *)
Definition keeps_paths (n n' : Builder.Node) : Prop :=
  Builder.name n' = Builder.name n
  /\ forall q pq, snd (Builder.insert_node n q false) = Some pq ->
                  snd (Builder.insert_node n' q false) = Some pq.

(** The tree with the channel [foo] of two bytes and, declared after it,
    the channel [bar] of one byte; and the same after a build. *)
Definition demo_foo_bar : Builder.State :=
  Eval vm_compute in
  match run_calls [CallChannel (fst Builder.new_builder) "bar" [Byte.x03]
                     (Channel.unbound 1)] demo_foo with
  | Ok σ => σ
  | Fault => demo_foo
  end.

Definition demo_foo_bar_built : Builder.State :=
  Eval vm_compute in
  match Builder.build (fst Builder.new_builder) demo_foo_bar with
  | Ok (_, _, σ) => σ
  | Fault => demo_foo_bar
  end.

(** A node that holds a Link and whose first child holds none: where
    [build_node] reads [children[0]->link->channel_offset] through a null
    pointer. *)
Definition first_child_unlinked (m : Builder.Node) : bool :=
  match Builder.link m, Builder.children m with
  | Some _, c0 :: _ =>
      match Builder.link c0 with
      | None => true
      | Some _ => false
      end
  | _, _ => false
  end.

(** The state after a build of the tree with the channel [foo]. *)
Definition demo_foo_built : Builder.State :=
  Eval vm_compute in
  match Builder.build (fst Builder.new_builder) demo_foo with
  | Ok (_, _, σ) => σ
  | Fault => demo_foo
  end.

(** The nodes of a subtree in depth-first order, each with its depth. *)
Fixpoint nodes_at (depth : nat) (n : Builder.Node) : list (nat * Builder.Node) :=
  (depth, n) :: flat_map (nodes_at (S depth)) (Builder.children n).

(** A node that the printer passes over: no name and no child. *)
Definition blank (m : Builder.Node) : bool :=
  String.eqb (Builder.name m) EmptyString
  && match Builder.children m with [] => true | _ :: _ => false end.

(** Four spaces for each level. *)
Fixpoint spaces (depth : nat) : string :=
  match depth with
  | O => EmptyString
  | S d => ("    " ++ spaces d)%string
  end.

(** The line of a node at a depth: the indent, the name, a newline
    (the character 10). *)
Definition line_of (x : nat * Builder.Node) : string :=
  if blank (snd x) then EmptyString
  else (spaces (fst x) ++ Builder.name (snd x) ++ String "010"%char EmptyString)%string.

Fixpoint text_of (xs : list (nat * Builder.Node)) : string :=
  match xs with
  | [] => EmptyString
  | x :: rest => (line_of x ++ text_of rest)%string
  end.

(** The names of a subtree are in order: below each node the names of the
    children are pairwise distinct, and each is a word that
    [tokenize_path] lets through. *)
Definition well_named (n : Builder.Node) : Prop :=
  Forall (fun m => NoDup (Builder.name <$> Builder.children m)
                   /\ Forall (fun c => token_ok (Builder.name c)) (Builder.children m))
         (nodes n).

(** What the caller of [get] or [read] receives. *)
Definition value_of {A} (m : outcome (A * Heap)) : outcome A :=
  match m with
  | Ok r => Ok (fst r)
  | Fault => Fault
  end.

(** The storage of the river [r] as a [set] or a [write] leaves it. *)
Definition storage_after (r : nat) (m : outcome Heap) : outcome (option bytes) :=
  match m with
  | Ok h => Ok (rivers h !! r)
  | Fault => Fault
  end.

(** What one call may do to the Links: none is freed and no river is
    dropped, the tree points to Links it pointed to or to new ones, a Link
    the tree does not point to is left as it is, and a lock pointer that
    is set is kept. *)
Definition call_effect (σ σ' : Builder.State) : Prop :=
  (length (links (Builder.heap σ)) <= length (links (Builder.heap σ')))%nat
  /\ (length (rivers (Builder.heap σ)) <= length (rivers (Builder.heap σ')))%nat
  /\ (forall l, l ∈ node_links (Builder.tree σ') ->
        l ∈ node_links (Builder.tree σ)
        \/ (length (links (Builder.heap σ)) <= l)%nat)
  /\ (forall l, l ∉ node_links (Builder.tree σ) ->
        (l < length (links (Builder.heap σ)))%nat ->
        links (Builder.heap σ') !! l = links (Builder.heap σ) !! l)
  /\ (forall l L, links (Builder.heap σ) !! l = Some L ->
        exists L', links (Builder.heap σ') !! l = Some L'
                   /\ (is_Some (Link.lock L) -> Link.lock L' = Link.lock L)).

(** The first [N] Links are out of reach of the builder: the tree points
    to none of them, and they are as in [lks]. *)
Definition frozen (N : nat) (lks : list Link.t) (σ : Builder.State) : Prop :=
  (N <= length (links (Builder.heap σ)))%nat
  /\ Forall (fun l => (N <= l)%nat) (node_links (Builder.tree σ))
  /\ forall l, (l < N)%nat -> links (Builder.heap σ) !! l = lks !! l.

(** The tree with the channel [foo], built, then with a rivulet handle at
    [foo] and the value 0x0102 set through the channel handle of the first
    build; and the same after a second build. *)
Definition demo_foo_relinked : Builder.State :=
  Eval vm_compute in
  match run_calls [CallRivulet (fst Builder.new_builder) "foo" Rivulet.unbound;
                   CallSet (Channel.mk (Some 0%nat) 2) [Byte.x02; Byte.x01]]
          demo_foo_built with
  | Ok σ => σ
  | Fault => demo_foo_built
  end.

Definition demo_foo_rebuilt : Builder.State :=
  Eval vm_compute in
  match Builder.build (fst Builder.new_builder) demo_foo_relinked with
  | Ok (_, _, σ) => σ
  | Fault => demo_foo_relinked
  end.

(** The tree of [demo_abx] with [lock("a", 7)] and the channel [a.y]
    declared after it; the same after a build; and after a [get] through
    the channel handle of [a]. *)
Definition demo_abx_locked_more : Builder.State :=
  Eval vm_compute in
  match run_calls [CallChannel (fst Builder.new_builder) "a.y" [Byte.x04]
                     (Channel.unbound 1)] demo_abx_locked with
  | Ok σ => σ
  | Fault => demo_abx_locked
  end.

Definition demo_abx_locked_built : Builder.State :=
  Eval vm_compute in
  match Builder.build (fst Builder.new_builder) demo_abx_locked_more with
  | Ok (_, _, σ) => σ
  | Fault => demo_abx_locked_more
  end.

Definition demo_abx_locked_used : Builder.State :=
  Eval vm_compute in
  match run_calls [CallGet (Channel.mk (Some 0%nat) 1)] demo_abx_locked_built with
  | Ok σ => σ
  | Fault => demo_abx_locked_built
  end.

(* ===================================================================== *)
(** * Properties *)
(* ===================================================================== *)

(** ** Tokenization *)

Section tokenize_facts.
Local Open Scope string_scope.
Import Builder.

Lemma string_app_assoc (a b c : string) : (a ++ b) ++ c = a ++ (b ++ c).
Proof. induction a as [|x a IH]; simpl; [reflexivity | now rewrite IH]. Qed.

Lemma string_app_empty_r (a : string) : a ++ "" = a.
Proof. induction a as [|x a IH]; simpl; [reflexivity | now rewrite IH]. Qed.

Lemma dotted_snoc tokens t : dotted (tokens ++ [t]) = dotted tokens ++ t ++ ".".
Proof.
  induction tokens as [|u us IH]; simpl; [reflexivity|].
  rewrite IH. now rewrite !string_app_assoc.
Qed.

Lemma join_snoc tokens t : join (tokens ++ [t]) = dotted tokens ++ t.
Proof.
  unfold join. induction tokens as [|u us IH]; simpl; [reflexivity|].
  destruct (us ++ [t])%list as [|v vs] eqn:E.
  - now destruct us.
  - rewrite IH. now rewrite string_app_assoc.
Qed.

Lemma join_dotted tokens : tokens <> [] -> join tokens ++ "." = dotted tokens.
Proof.
  intros Hne. destruct (exists_last Hne) as (ts & t & ->).
  rewrite join_snoc, dotted_snoc. now rewrite string_app_assoc.
Qed.

(** The invariant of the [getline] loop: the tokens pushed, the token
    being read and the unread input always spell the path. *)
Lemma getline_loop_spells ss : forall token tokens,
  getline_loop ss token tokens <> [] ->
  join (getline_loop ss token tokens) = dotted tokens ++ token ++ ss
  \/ join (getline_loop ss token tokens) ++ "." = dotted tokens ++ token ++ ss.
Proof.
  induction ss as [|c ss IH]; intros token tokens Hne; simpl in *.
  - rewrite string_app_empty_r. destruct token as [|x token].
    + right. rewrite string_app_empty_r. now apply join_dotted.
    + left. now rewrite join_snoc.
  - destruct (Ascii.eqb_spec c dot) as [->|Hc].
    + specialize (IH "" (tokens ++ [token])%list Hne).
      rewrite dotted_snoc, !string_app_assoc in IH. exact IH.
    + specialize (IH (token ++ String c "") tokens Hne).
      rewrite !string_app_assoc in IH. exact IH.
Qed.

(** Every accepted path is its tokens joined by dots, up to one dot at
    the end of the path that the tokens do not show. *)
Lemma tokenize_path_accepted path tokens :
  tokenize_path path = (0, tokens) ->
  join tokens = path \/ join tokens ++ "." = path.
Proof.
  unfold tokenize_path. intros H.
  destruct (getline_loop path "" []) as [|t ts] eqn:E; [discriminate|].
  injection H as _ <-. rewrite <- E.
  apply (getline_loop_spells path "" []). now rewrite E.
Qed.

Lemma check_tokens_app ts us :
  check_tokens (ts ++ us) = 0 <-> check_tokens ts = 0 /\ check_tokens us = 0.
Proof.
  induction ts as [|t ts IH]; simpl; [tauto|].
  destruct t; [unfold ERR_INVALID; split; [discriminate | intros [? _]; discriminate]|].
  destruct (has_invalid_char _); [|exact IH].
  unfold ERR_INVALID; split; [discriminate | intros [? _]; discriminate].
Qed.

Lemma has_invalid_char_app a b :
  has_invalid_char (a ++ b) = has_invalid_char a || has_invalid_char b.
Proof.
  induction a as [|x a IH]; simpl; [reflexivity|]. rewrite IH. now rewrite orb_assoc.
Qed.

Lemma check_tokens_single token :
  check_tokens [token] = 0 -> token <> "" /\ has_invalid_char token = false.
Proof.
  simpl. destruct token; [discriminate|]. now destruct (has_invalid_char _).
Qed.

(** Once the tokens pushed so far fail the check, so does the result. *)
Lemma getline_loop_keeps_failure ss : forall token tokens,
  check_tokens tokens <> 0 -> check_tokens (getline_loop ss token tokens) <> 0.
Proof.
  induction ss as [|d ss IH]; intros tk tks Hpre; simpl.
  - destruct tk; [exact Hpre|]. rewrite check_tokens_app. tauto.
  - destruct (Ascii.eqb d dot); apply IH; [|exact Hpre].
    rewrite check_tokens_app. tauto.
Qed.

(** A character that [char_is_invalid] refuses, read or still to be
    read, makes the check fail. *)
Lemma getline_loop_invalid ss : forall token tokens,
  has_invalid_char (token ++ ss) = true ->
  check_tokens (getline_loop ss token tokens) <> 0.
Proof.
  induction ss as [|c ss IH]; intros token tokens Hbad; simpl in *.
  - rewrite string_app_empty_r in Hbad. destruct token as [|x token]; [discriminate|].
    rewrite check_tokens_app. intros [_ [_ H]%check_tokens_single]. congruence.
  - rewrite has_invalid_char_app in Hbad. simpl in Hbad.
    destruct (Ascii.eqb_spec c dot) as [->|Hc].
    + destruct (has_invalid_char token) eqn:Et.
      * apply getline_loop_keeps_failure.
        rewrite check_tokens_app. intros [_ [_ H]%check_tokens_single]. congruence.
      * apply IH. simpl in *. exact Hbad.
    + apply IH. rewrite string_app_assoc. simpl.
      rewrite has_invalid_char_app. simpl. exact Hbad.
Qed.

(** An empty token that a dot ends (the path starts with a dot, or has
    two dots in a row) makes the check fail. *)
Lemma getline_loop_empty_token ss : forall tokens,
  check_tokens (getline_loop (String dot ss) "" tokens) <> 0.
Proof.
  intros tokens. simpl. apply getline_loop_keeps_failure.
  rewrite check_tokens_app. simpl. unfold ERR_INVALID. intros [_ H]. discriminate.
Qed.

(** C4 (as the code has it).  The path ["a."] is accepted with the single
    token ["a"]: the dot at the end of the path leaves no token, so the
    empty last token is not seen and the tokens joined by dots do not
    give the path back. *)
Theorem tokenize_path_trailing_dot :
  tokenize_path "a." = (0, ["a"]) /\ join ["a"] <> "a.".
Proof. split; [reflexivity | discriminate]. Qed.

End tokenize_facts.

(** ** Handles without storage *)

Lemma no_storage_not_linked link h :
  no_storage link h -> Linkable.linked link h = false.
Proof.
  destruct link as [l|]; simpl; [|reflexivity].
  intros (L & -> & ->). reflexivity.
Qed.

Lemma no_storage_with_rivers link h rs :
  no_storage link h -> no_storage link (with_rivers h rs).
Proof. destruct link; simpl; auto. Qed.

Lemma channel_no_storage (c : Channel.t) (h : Heap) :
  no_storage (Channel.link c) h ->
  Channel.get c h = Ok (Channel.default_value c, h)
  /\ (forall val, Channel.set c val h = Ok h).
Proof.
  intros Ec%no_storage_not_linked. split; [|intros val].
  - unfold Channel.get, Channel.serialize. now rewrite Ec.
  - unfold Channel.set, Channel.deserialize. now rewrite Ec.
Qed.

Lemma rivulet_no_storage (rv : Rivulet.t) (h : Heap) :
  no_storage (Rivulet.link rv) h ->
  (forall dest, Rivulet.read rv dest h = Ok (dest, h))
  /\ (forall src, Rivulet.write rv src h = Ok h)
  /\ Rivulet.size rv h = Ok 0%nat.
Proof.
  intros Er%no_storage_not_linked. repeat split.
  - intros [buf|]; unfold Rivulet.read; [now rewrite Er | reflexivity].
  - intros [buf|]; unfold Rivulet.write; [now rewrite Er | reflexivity].
  - unfold Rivulet.size. now rewrite Er.
Qed.

(** C9.  On a handle whose Link has no built storage, [get] returns the
    zero value of the type and leaves the heap as it is, whatever the
    rivers hold; [set], [read] and [write] leave the heap (and the
    caller's buffer) as they are; [size] is 0.  With a null pointer
    [read] and [write] do nothing on any handle.  Every one of these calls
    returns normally. *)
Theorem unlinked_handles_are_silent (c : Channel.t) (rv : Rivulet.t) (h : Heap) :
  no_storage (Channel.link c) h ->
  no_storage (Rivulet.link rv) h ->
  Channel.get c h = Ok (Channel.default_value c, h)
  /\ (forall rs, Channel.get c (with_rivers h rs)
                 = Ok (Channel.default_value c, with_rivers h rs))
  /\ (forall val, Channel.set c val h = Ok h)
  /\ (forall dest, Rivulet.read rv dest h = Ok (dest, h))
  /\ (forall src, Rivulet.write rv src h = Ok h)
  /\ Rivulet.size rv h = Ok 0%nat
  /\ (forall rv' h', Rivulet.read rv' None h' = Ok (None, h')
                     /\ Rivulet.write rv' None h' = Ok h').
Proof.
  intros Hc Hr.
  destruct (channel_no_storage c h Hc) as [Hg Hs].
  destruct (rivulet_no_storage rv h Hr) as (Hrd & Hwr & Hsz).
  repeat split; auto.
  intros rs. now apply channel_no_storage, no_storage_with_rivers.
Qed.

Lemma unlinked_handles_are_silent_witness :
  Channel.get (Channel.mk (Some 0%nat) 2) (mkHeap [Link.fresh] [] [])
  = Ok ([Byte.x00; Byte.x00], mkHeap [Link.fresh] [] [])
  /\ Rivulet.size Rivulet.unbound (mkHeap [Link.fresh] [] []) = Ok 0%nat.
Proof.
  assert (Hc : no_storage (Some 0%nat) (mkHeap [Link.fresh] [] [])).
  { simpl. exists Link.fresh. split; reflexivity. }
  pose proof (unlinked_handles_are_silent (Channel.mk (Some 0%nat) 2)
                Rivulet.unbound (mkHeap [Link.fresh] [] []) Hc I) as H.
  split; [exact (proj1 H) | exact (proj1 (proj2 (proj2 (proj2 (proj2 (proj2 H))))))].
Defined.

(** A declaration that fails hands the caller's handle back untouched. *)
Lemma channel_failure_keeps_handle b path init_val c σ code c' σ' :
  Builder.channel b path init_val c σ = Ok (code, c', σ') ->
  code <> 0 -> c' = c.
Proof.
  unfold Builder.channel. intros H Hcode.
  destruct (Builder.tokenize_path path) as [ret tokens].
  destruct (negb (ret =? 0)); [congruence|].
  destruct (Builder.get_node _ _) as [root_node|]; simpl in H; [|discriminate].
  destruct (Builder.insert_node root_node tokens true) as [root_node' [p|]];
    simpl in H; [|discriminate].
  destruct (Builder.get_node root_node' p) as [n|]; simpl in H; [|discriminate].
  destruct (Builder.channel_info n); [congruence|].
  destruct (match Builder.link _ with Some l => _ | None => _ end).
  congruence.
Qed.

Lemma rivulet_failure_keeps_handle b path rv σ code rv' σ' :
  Builder.rivulet b path rv σ = Ok (code, rv', σ') ->
  code <> 0 -> rv' = rv.
Proof.
  unfold Builder.rivulet. intros H Hcode.
  destruct (Builder.tokenize_path path) as [ret tokens].
  destruct (negb (ret =? 0)); [congruence|].
  destruct (Builder.get_node _ _) as [root_node|]; simpl in H; [|discriminate].
  destruct (Builder.insert_node root_node tokens false) as [root_node' [p|]];
    simpl in H; [|congruence].
  destruct (Builder.get_node root_node' p) as [n|]; simpl in H; [|discriminate].
  destruct (match Builder.link _ with Some l => _ | None => _ end).
  congruence.
Qed.

(** C10.  When [channel] or [rivulet] returns an error code, the handle
    comes back as it was passed; a handle that had no Link therefore still
    has none, and on every later heap (so after any later build) [get]
    returns the zero value and [set], [read], [write] change nothing. *)
Theorem failed_declaration_leaves_handle_unlinked :
  (forall b path init_val c σ code c' σ',
     Builder.channel b path init_val c σ = Ok (code, c', σ') ->
     code <> 0 ->
     c' = c
     /\ (Channel.link c = None ->
         forall h, Channel.get c' h = Ok (Channel.default_value c', h)
                   /\ forall val, Channel.set c' val h = Ok h))
  /\ (forall b path rv σ code rv' σ',
     Builder.rivulet b path rv σ = Ok (code, rv', σ') ->
     code <> 0 ->
     rv' = rv
     /\ (Rivulet.link rv = None ->
         forall h, Rivulet.size rv' h = Ok 0%nat
                   /\ (forall dest, Rivulet.read rv' dest h = Ok (dest, h))
                   /\ (forall src, Rivulet.write rv' src h = Ok h))).
Proof.
  split.
  - intros b path init_val c σ code c' σ' H Hcode.
    pose proof (channel_failure_keeps_handle _ _ _ _ _ _ _ _ H Hcode) as ->.
    split; [reflexivity|]. intros Hnull h.
    apply channel_no_storage. now rewrite Hnull.
  - intros b path rv σ code rv' σ' H Hcode.
    pose proof (rivulet_failure_keeps_handle _ _ _ _ _ _ _ H Hcode) as ->.
    split; [reflexivity|]. intros Hnull h.
    destruct (rivulet_no_storage rv h) as (Hr & Hw & Hsz); [now rewrite Hnull|].
    auto.
Qed.

Lemma failed_declaration_leaves_handle_unlinked_witness :
  Channel.get (Channel.unbound 4) empty_heap
  = Ok (repeat Byte.x00 4, empty_heap).
Proof.
  pose proof (proj1 failed_declaration_leaves_handle_unlinked
                (fst Builder.new_builder) "a..b"%string [] (Channel.unbound 4)
                (snd Builder.new_builder) Builder.ERR_INVALID (Channel.unbound 4)
                (snd Builder.new_builder) eq_refl) as H.
  assert (Hcode : Builder.ERR_INVALID <> 0) by discriminate.
  exact (proj1 (proj2 (H Hcode) eq_refl empty_heap)).
Defined.

(** ** Trees and traversals *)

Section tree_facts.
Import Builder.

(** Induction over a tree, with the property known of every child. *)
Lemma Node_ind (P : Node -> Prop) :
  (forall nm ci l cs, Forall P cs -> P (mkNode nm ci l cs)) ->
  forall n, P n.
Proof.
  intros IH. fix rec 1. intros [nm ci l cs]. apply IH.
  induction cs as [|c cs IHcs]; constructor; [apply rec | exact IHcs].
Qed.

Lemma with_children_id n : with_children n (children n) = n.
Proof. now destruct n. Qed.

Lemma for_each_node_unfold {S} (func : visitor S) node s :
  for_each_node func node s =
  match func node s with
  | Fault => Fault
  | Ok (ret, node1, s1) =>
      if negb (ret =? 0) then Ok (ret, node1, s1)
      else
        match for_each_children (for_each_node func) (children node) s1 with
        | Fault => Fault
        | Ok (ret', cs', s2) => Ok (ret', with_children node1 cs', s2)
        end
  end.
Proof. now destruct node. Qed.

Lemma build_node_unfold node river h :
  build_node node river h =
  match establish_link node river h with
  | Fault => Fault
  | Ok h1 =>
      match build_children build_node river (children node) h1 with
      | Fault => Fault
      | Ok h2 => set_rivulet node h2
      end
  end.
Proof. now destruct node. Qed.

Lemma nodes_unfold n : nodes n = n :: flat_map nodes (children n).
Proof. now destruct n. Qed.

Lemma visit_list_app {S} (f : Node -> S -> outcome (Z * S)) ns ms s :
  visit_list f (ns ++ ms) s =
  match visit_list f ns s with
  | Fault => Fault
  | Ok (ret, s1) => if negb (ret =? 0) then Ok (ret, s1) else visit_list f ms s1
  end.
Proof.
  revert s. induction ns as [|n ns IH]; intros s; simpl; [reflexivity|].
  destruct (f n s) as [[ret s1]|]; [|reflexivity].
  destruct (negb (ret =? 0)) eqn:E; [now rewrite E | apply IH].
Qed.

(** A traversal with a visitor that leaves the nodes alone is a run down
    the depth-first list of the subtree. *)
Lemma for_each_node_flat {S} (func : visitor S) (f : Node -> S -> outcome (Z * S)) :
  (forall m s, func m s = lift_visitor f m s) ->
  forall n s,
  for_each_node func n s =
  match visit_list f (nodes n) s with
  | Fault => Fault
  | Ok (ret, s') => Ok (ret, n, s')
  end.
Proof.
  intros Hf. induction n as [nm ci l cs IH] using Node_ind. intros s.
  rewrite for_each_node_unfold, nodes_unfold, Hf. simpl children.
  unfold lift_visitor. cbn [visit_list].
  destruct (f (mkNode nm ci l cs) s) as [[ret s1]|]; [|reflexivity].
  cbn [obind fst snd]. destruct (negb (ret =? 0)); [reflexivity|].
  assert (Hcs : forall s,
    for_each_children (for_each_node func) cs s =
    match visit_list f (flat_map nodes cs) s with
    | Fault => Fault
    | Ok (ret, s') => Ok (ret, cs, s')
    end).
  { clear s s1 ret. induction IH as [|c cs Hc _ IHcs]; intros s; [reflexivity|].
    cbn [for_each_children flat_map]. rewrite Hc, visit_list_app.
    destruct (visit_list f (nodes c) s) as [[ret s1]|]; [|reflexivity].
    destruct (negb (ret =? 0)); [reflexivity|].
    fold (for_each_children (for_each_node func)).
    rewrite IHcs.
    now destruct (visit_list f (flat_map nodes cs) s1) as [[ret' s2]|]. }
  rewrite Hcs.
  now destruct (visit_list f (flat_map nodes cs) s1) as [[ret' s2]|].
Qed.

Lemma for_each_node_remove_link n :
  for_each_node remove_link n tt = Ok (0, strip_links n, tt).
Proof.
  induction n as [nm ci l cs IH] using Node_ind.
  rewrite for_each_node_unfold. cbn [remove_link negb Z.eqb children].
  assert (Hcs : for_each_children (for_each_node remove_link) cs tt
                = Ok (0, map strip_links cs, tt)).
  { induction IH as [|c cs Hc _ IHcs]; [reflexivity|].
    cbn [for_each_children map]. rewrite Hc. cbn [negb Z.eqb].
    fold (for_each_children (for_each_node remove_link)). now rewrite IHcs. }
  rewrite Hcs. reflexivity.
Qed.

Lemma omap_flat_map {A B C} (f : B -> option C) (g : A -> list B) (l : list A) :
  omap f (flat_map g l) = flat_map (fun a => omap f (g a)) l.
Proof.
  induction l as [|a l IH]; [reflexivity|].
  cbn [flat_map]. now rewrite omap_app, IH.
Qed.

Lemma node_links_unfold n :
  node_links n = option_list (link n) ++ flat_map node_links (children n).
Proof.
  unfold node_links. rewrite nodes_unfold.
  change (omap link (n :: flat_map nodes (children n)))
    with (match link n with
          | Some l => l :: omap link (flat_map nodes (children n))
          | None => omap link (flat_map nodes (children n))
          end).
  rewrite omap_flat_map. now destruct (link n).
Qed.

Lemma node_links_strip n : node_links (strip_links n) = [].
Proof.
  induction n as [nm ci l cs IH] using Node_ind.
  rewrite node_links_unfold. cbn [strip_links children link option_list app].
  induction IH as [|c cs Hc _ IHcs]; [reflexivity|].
  cbn [map flat_map]. rewrite Hc. exact IHcs.
Qed.

End tree_facts.

(** ** Pointers into the tree and [insert_node] *)

Section pointer_facts.
Import Builder.

Lemma get_node_app t p q :
  get_node t (p ++ q) =
  match get_node t p with
  | Some n => get_node n q
  | None => None
  end.
Proof.
  revert t. induction p as [|i p IH]; intros t; simpl; [reflexivity|].
  destruct (children t !! i); [apply IH | reflexivity].
Qed.

Lemma set_node_id t p n : get_node t p = Some n -> set_node t p n = t.
Proof.
  revert t. induction p as [|i p IH]; intros t; simpl.
  - congruence.
  - destruct (children t !! i) as [c|] eqn:E; [|discriminate].
    intros H. rewrite (IH _ H), list_insert_id by exact E.
    apply with_children_id.
Qed.

Lemma get_set_node t p n m :
  get_node t p = Some m -> get_node (set_node t p n) p = Some n.
Proof.
  revert t. induction p as [|i p IH]; intros t; simpl; [reflexivity|].
  destruct (children t !! i) as [c|] eqn:E; [|discriminate].
  intros H. cbn [children with_children].
  rewrite list_lookup_insert_eq by (eapply lookup_lt_Some; exact E).
  now apply IH.
Qed.

Lemma set_node_app t p q n m :
  get_node t p = Some m ->
  set_node t (p ++ q) n = set_node t p (set_node m q n).
Proof.
  revert t. induction p as [|i p IH]; intros t; simpl.
  - now intros [= ->].
  - destruct (children t !! i) as [c|] eqn:E; [|discriminate].
    intros H. now rewrite (IH _ H).
Qed.

Lemma set_set_node t p n n' :
  set_node (set_node t p n) p n' = set_node t p n'.
Proof.
  revert t. induction p as [|i p IH]; intros t; simpl; [reflexivity|].
  destruct (children t !! i) as [c|] eqn:E; simpl; [|now rewrite E].
  rewrite list_lookup_insert_eq by (eapply lookup_lt_Some; exact E).
  now rewrite IH, list_insert_insert_eq.
Qed.

Lemma get_node_in_nodes t p n : get_node t p = Some n -> In n (nodes t).
Proof.
  revert t. induction p as [|i p IH]; intros t; simpl.
  - intros [= ->]. rewrite nodes_unfold. now left.
  - destruct (children t !! i) as [c|] eqn:E; [|discriminate].
    intros H. rewrite nodes_unfold. right. apply in_flat_map.
    exists c. split; [|now apply IH].
    apply list_elem_of_In, list_elem_of_lookup. eauto.
Qed.

Lemma nodes_trans a b c : In a (nodes b) -> In b (nodes c) -> In a (nodes c).
Proof.
  revert b. induction c as [nm ci l cs IH] using Node_ind. intros b Ha Hb.
  rewrite nodes_unfold in Hb. destruct Hb as [<-|Hb]; [exact Ha|].
  rewrite nodes_unfold. right. cbn [children] in *.
  apply in_flat_map in Hb as (c & Hc & Hb). apply in_flat_map.
  exists c. split; [exact Hc|].
  rewrite Forall_forall in IH. apply (IH c) with (b := b); [now apply list_elem_of_In | exact Ha | exact Hb].
Qed.

Lemma find_child_Some token cs i c :
  find_child token cs = Some (i, c) -> cs !! i = Some c /\ name c = token.
Proof.
  revert i. induction cs as [|d cs IH]; intros i; simpl; [discriminate|].
  destruct (String.eqb_spec (name d) token) as [Hd|Hd].
  - intros [= <- <-]. auto.
  - destruct (find_child token cs) as [[j e]|]; [|discriminate].
    intros [= <- <-]. now apply IH.
Qed.

Lemma find_child_None token cs c :
  find_child token cs = None -> In c cs -> name c <> token.
Proof.
  induction cs as [|d cs IH]; simpl; [tauto|].
  destruct (String.eqb_spec (name d) token) as [Hd|Hd]; [discriminate|].
  destruct (find_child token cs) as [[j e]|]; [discriminate|].
  intros _ [<-|Hc]; auto.
Qed.

(** A lookup ([create = false]) leaves the tree as it is, and the pointer
    it returns leads to a node. *)
Lemma insert_node_lookup path : forall n,
  fst (insert_node n path false) = n
  /\ forall p, snd (insert_node n path false) = Some p -> is_Some (get_node n p).
Proof.
  induction path as [|token rest IH]; intros n; simpl.
  - split; [reflexivity|]. intros p [= <-]. simpl. eauto.
  - destruct (find_child token (children n)) as [[i c]|] eqn:E; [|simpl; split; [reflexivity | discriminate]].
    apply find_child_Some in E as [E _].
    destruct (IH c) as [IH1 IH2].
    destruct (insert_node c rest false) as [c' r]. simpl in *. subst c'.
    rewrite list_insert_id by exact E. split; [apply with_children_id|].
    intros p Hp. destruct r as [q|]; [|discriminate]. injection Hp as <-.
    simpl. rewrite E. now apply IH2.
Qed.

Lemma insert_node_lookup_eq n path :
  insert_node n path false = (n, snd (insert_node n path false)).
Proof.
  destruct (insert_node_lookup path n) as [H _].
  destruct (insert_node n path false); simpl in *. now subst.
Qed.

(** Looking up a longer path goes through the node of the shorter one. *)
Lemma insert_node_lookup_app t1 t2 : forall n,
  snd (insert_node n (t1 ++ t2) false) =
  match snd (insert_node n t1 false) with
  | None => None
  | Some p1 =>
      match get_node n p1 with
      | None => None
      | Some m => (fun p2 => p1 ++ p2) <$> snd (insert_node m t2 false)
      end
  end.
Proof.
  induction t1 as [|token rest IH]; intros n; simpl.
  - now destruct (snd (insert_node n t2 false)).
  - destruct (find_child token (children n)) as [[i c]|] eqn:E; [|reflexivity].
    apply find_child_Some in E as [E _].
    specialize (IH c).
    destruct (insert_node c (rest ++ t2) false) as [c1 r1].
    destruct (insert_node c rest false) as [c2 r2]. simpl in *.
    rewrite IH. destruct r2 as [p1|]; [|reflexivity]. simpl. rewrite E.
    destruct (get_node c p1) as [m|]; [|reflexivity].
    now destruct (snd (insert_node m t2 false)).
Qed.

End pointer_facts.

(** ** Locks *)

Section lock_facts.
Import Builder.

Lemma check_for_locks_lift m h :
  check_for_locks m h = lift_visitor check_lock m h.
Proof.
  unfold check_for_locks, lift_visitor, check_lock.
  destruct (link m) as [l|]; simpl; [|reflexivity].
  now destruct (get_link h l).
Qed.

Lemma assign_lock_lift lk m h :
  assign_lock lk m h = lift_visitor (store_lock lk) m h.
Proof.
  unfold assign_lock, lift_visitor, store_lock.
  destruct (link m) as [l|]; simpl; [|reflexivity].
  destruct (get_link h l) as [L|]; simpl; [|reflexivity].
  destruct (Link.lock L); [reflexivity|].
  now destruct (upd_link h l (Link.set_lock lk)).
Qed.

Lemma insert_alter {A} (f : A -> A) (l : list A) i x :
  l !! i = Some x -> <[i := f x]> l = alter f i l.
Proof.
  intros H. apply list_eq. intros j.
  destruct (decide (i = j)) as [<-|Hne].
  - rewrite list_lookup_insert_eq by (eapply lookup_lt_Some; exact H).
    now rewrite list_lookup_alter_eq, H.
  - now rewrite list_lookup_insert_ne, list_lookup_alter_ne.
Qed.

Lemma lock_all_lookup lk ls : forall lks l,
  lock_all lk ls lks !! l =
  if decide (l ∈ ls) then Link.set_lock lk <$> lks !! l else lks !! l.
Proof.
  induction ls as [|x xs IH]; intros lks l; simpl.
  - destruct (decide (l ∈ [])) as [H|_]; [|reflexivity]. now apply not_elem_of_nil in H.
  - rewrite IH. destruct (decide (x = l)) as [->|Hne].
    + rewrite list_lookup_alter_eq.
      rewrite (decide_True (P := l ∈ l :: xs)) by apply list_elem_of_here.
      destruct (decide (l ∈ xs)); [|reflexivity].
      now destruct (lks !! l).
    + rewrite list_lookup_alter_ne by exact Hne.
      destruct (decide (l ∈ xs)) as [Hin|Hin].
      * now rewrite (decide_True (P := l ∈ x :: xs)) by now apply list_elem_of_further.
      * rewrite (decide_False (P := l ∈ x :: xs)); [reflexivity|].
        intros [->|?]%elem_of_cons; tauto.
Qed.

Lemma lock_all_length lk ls : forall lks, length (lock_all lk ls lks) = length lks.
Proof.
  induction ls as [|x xs IH]; intros lks; simpl; [reflexivity|].
  now rewrite IH, length_alter.
Qed.

(** The checking pass finds nothing on a subtree that is linked and
    unlocked, and stops with -1 on a linked subtree that holds a lock. *)
Lemma visit_check_free ns h :
  Forall (fun m => is_Some (link_of h m)) ns ->
  Forall (fun m => forall L, link_of h m = Some L -> Link.lock L = None) ns ->
  visit_list check_lock ns h = Ok (0, h).
Proof.
  induction ns as [|m ns IH]; intros Hl Hu; [reflexivity|].
  inversion Hl as [|? ? [L HL] Hl']; inversion Hu as [|? ? Hm Hu']; subst.
  simpl. unfold check_lock, link_of, get_link in *.
  destruct (link m) as [l|]; [|discriminate]. simpl. rewrite HL. simpl.
  rewrite (Hm L HL). simpl. now apply IH.
Qed.

Lemma visit_check_locked ns h :
  Forall (fun m => is_Some (link_of h m)) ns ->
  Exists (fun m => exists L, link_of h m = Some L /\ is_Some (Link.lock L)) ns ->
  visit_list check_lock ns h = Ok (-1, h).
Proof.
  induction ns as [|m ns IH]; intros Hl Hex; [inversion Hex|].
  inversion Hl as [|? ? [L HL] Hl']; subst.
  simpl. unfold check_lock at 1. unfold get_link.
  assert (HL0 := HL). unfold link_of in HL.
  destruct (link m) as [l|]; [|discriminate]. simpl. rewrite HL. simpl.
  destruct (Link.lock L) as [k|] eqn:Ek; [reflexivity|]. simpl.
  apply IH; [exact Hl'|].
  inversion Hex as [? ? (L' & HL' & [k Hk])|]; subst; [|assumption].
  rewrite HL0 in HL'. injection HL' as <-. congruence.
Qed.

Lemma check_lock_inv m h ret h' :
  check_lock m h = Ok (ret, h') ->
  h' = h /\ exists L, link_of h m = Some L
                     /\ ret = match Link.lock L with Some _ => -1 | None => 0 end.
Proof.
  unfold check_lock, link_of, get_link.
  destruct (link m) as [l|]; simpl; [|discriminate].
  destruct (links h !! l) as [L|]; simpl; [|discriminate].
  intros [= <- <-]. eauto.
Qed.

Lemma visit_check_inv ns h ret h' :
  visit_list check_lock ns h = Ok (ret, h') ->
  h' = h
  /\ (ret = 0 ->
      Forall (fun m => is_Some (link_of h m)) ns
      /\ Forall (fun m => forall L, link_of h m = Some L -> Link.lock L = None) ns).
Proof.
  revert ret h'. induction ns as [|m ns IH]; intros ret h'; simpl.
  - intros [= <- <-]. auto.
  - destruct (check_lock m h) as [[r h1]|] eqn:E; [|discriminate].
    apply check_lock_inv in E as (-> & L & HL & ->).
    destruct (Link.lock L) as [k|] eqn:Ek; simpl.
    + intros [= <- <-]. split; [reflexivity | discriminate].
    + intros H. destruct (IH _ _ H) as (-> & Hu). split; [reflexivity|].
      intros Hret. destruct (Hu Hret) as [Hl Hu'].
      split; constructor; auto.
      intros L'. rewrite HL. now intros [= <-].
Qed.

Lemma store_lock_ok lk m h l L :
  link m = Some l -> links h !! l = Some L -> Link.lock L = None ->
  store_lock lk m h = Ok (0, with_links h (alter (Link.set_lock lk) l (links h))).
Proof.
  intros El HL Hk. unfold store_lock, upd_link, get_link.
  rewrite El. simpl. rewrite HL. simpl. rewrite Hk. simpl.
  now rewrite (insert_alter _ _ _ _ HL).
Qed.

Lemma store_lock_inv lk m h ret h' :
  store_lock lk m h = Ok (ret, h') ->
  exists l L, link m = Some l /\ links h !! l = Some L /\ Link.lock L = None
              /\ ret = 0
              /\ h' = with_links h (alter (Link.set_lock lk) l (links h)).
Proof.
  unfold store_lock, upd_link, get_link.
  destruct (link m) as [l|]; simpl; [|discriminate].
  destruct (links h !! l) as [L|] eqn:HL; simpl; [|discriminate].
  destruct (Link.lock L) as [k|] eqn:Ek; simpl; [discriminate|].
  intros [= <- <-]. exists l, L. rewrite (insert_alter _ _ _ _ HL). auto.
Qed.

(** The assigning pass, when it returns, has set the lock pointer of the
    Link of every node and nothing else. *)
Lemma visit_assign_inv lk ns : forall h ret h',
  visit_list (store_lock lk) ns h = Ok (ret, h') ->
  ret = 0
  /\ h' = with_links h (lock_all lk (omap link ns) (links h)).
Proof.
  induction ns as [|m ns IH]; intros h ret h'; simpl.
  - intros [= <- <-]. split; [reflexivity|]. now destruct h.
  - destruct (store_lock lk m h) as [[r h1]|] eqn:E; [|discriminate].
    apply store_lock_inv in E as (l & L & El & HL & Hk & -> & ->). simpl.
    intros H. destruct (IH _ _ _ H) as (-> & ->). split; [reflexivity|].
    now rewrite El.
Qed.

Lemma visit_assign_ok lk ns : forall h,
  Forall (fun m => is_Some (link_of h m)) ns ->
  Forall (fun m => forall L, link_of h m = Some L -> Link.lock L = None) ns ->
  NoDup (omap link ns) ->
  visit_list (store_lock lk) ns h
  = Ok (0, with_links h (lock_all lk (omap link ns) (links h))).
Proof.
  induction ns as [|m ns IH]; intros h Hl Hu Hnd; simpl.
  - now destruct h.
  - inversion Hl as [|? ? [L HL] Hl']; inversion Hu as [|? ? Hm Hu']; subst.
    specialize (Hm L HL). unfold link_of in HL.
    destruct (link m) as [l|] eqn:El; [|discriminate].
    rewrite (store_lock_ok lk m h l L El HL Hm). simpl.
    simpl in Hnd. rewrite El in Hnd. apply NoDup_cons in Hnd as [Hnotin Hnd].
    rewrite IH; [reflexivity| | |exact Hnd].
    + eapply Forall_impl; [exact Hl'|]. intros m' [L' HL']. unfold link_of in *. simpl.
      destruct (link m') as [l'|]; [|discriminate].
      apply lookup_lt_is_Some. rewrite length_alter. eapply lookup_lt_Some; exact HL'.
    + rewrite Forall_forall in Hu' |- *. intros m' Hm' L'. unfold link_of. simpl.
      destruct (link m') as [l'|] eqn:El'; [|discriminate].
      assert (l <> l').
      { intros <-. apply Hnotin. apply list_elem_of_omap. exists m'. auto. }
      rewrite list_lookup_alter_ne by assumption.
      intros HL'. apply (Hu' m' Hm'). unfold link_of. now rewrite El'.
Qed.

End lock_facts.

(** ** [Builder::lock] *)

Section lock_op.
Import Builder.

Lemma with_tree_id σ : with_tree σ (tree σ) = σ.
Proof. now destruct σ. Qed.

Lemma with_heap_id σ : with_heap σ (heap σ) = σ.
Proof. now destruct σ. Qed.

Lemma with_links_id h : with_links h (links h) = h.
Proof. now destruct h. Qed.

(** [lock] on a path that names a node: the checking pass, then the
    assigning pass, both down the depth-first list of the subtree; the
    tree is left as it is. *)
Lemma lock_found b path tokens lk σ n :
  tokenize_path path = (0, tokens) ->
  subtree_at b tokens σ = Some n ->
  lock b path lk σ =
  match visit_list check_lock (nodes n) (heap σ) with
  | Fault => Fault
  | Ok (ret, _) =>
      if negb (ret =? 0) then Ok (ERR_DUPE, σ)
      else
        match visit_list (store_lock lk) (nodes n) (heap σ) with
        | Fault => Fault
        | Ok (_, h') => Ok (0, with_heap σ h')
        end
  end.
Proof.
  intros Htok Hn. unfold lock, subtree_at in *. rewrite Htok. cbn [negb Z.eqb].
  destruct (get_node (tree σ) (root b)) as [rn|] eqn:Hrn; [|discriminate].
  cbn [deref obind]. rewrite (insert_node_lookup_eq rn tokens).
  destruct (snd (insert_node rn tokens false)) as [p|]; [|discriminate].
  rewrite Hn. cbn [deref obind].
  rewrite (set_node_id _ _ _ Hrn), with_tree_id.
  rewrite (for_each_node_flat _ _ check_for_locks_lift).
  destruct (visit_list check_lock (nodes n) (heap σ)) as [[ret h1]|]; [|reflexivity].
  cbn [obind fst]. destruct (negb (ret =? 0)); [reflexivity|].
  rewrite (for_each_node_flat _ _ (assign_lock_lift lk)).
  destruct (visit_list (store_lock lk) (nodes n) (heap σ)) as [[ret' h2]|]; [|reflexivity].
  cbn [obind fst snd]. rewrite set_node_id; [now destruct σ|].
  now rewrite get_node_app, Hrn.
Qed.

Lemma lock_ok b path tokens lk σ n :
  tokenize_path path = (0, tokens) ->
  subtree_at b tokens σ = Some n ->
  all_linked (heap σ) n -> unlocked (heap σ) n -> NoDup (node_links n) ->
  lock b path lk σ
  = Ok (0, with_heap σ (with_links (heap σ)
                          (lock_all lk (node_links n) (links (heap σ))))).
Proof.
  intros Htok Hn Hl Hu Hnd. rewrite (lock_found _ _ _ _ _ _ Htok Hn).
  rewrite (visit_check_free _ _ Hl Hu). cbn [negb Z.eqb].
  now rewrite (visit_assign_ok lk _ _ Hl Hu Hnd).
Qed.

Lemma lock_dupe b path tokens lk σ n :
  tokenize_path path = (0, tokens) ->
  subtree_at b tokens σ = Some n ->
  all_linked (heap σ) n ->
  Exists (fun m => exists L, link_of (heap σ) m = Some L /\ is_Some (Link.lock L))
    (nodes n) ->
  lock b path lk σ = Ok (ERR_DUPE, σ).
Proof.
  intros Htok Hn Hl Hex. rewrite (lock_found _ _ _ _ _ _ Htok Hn).
  now rewrite (visit_check_locked _ _ Hl Hex).
Qed.

(** A call of [lock] that returned 0 found its node, with the subtree
    linked and unlocked, and changed the lock pointers of its Links only. *)
Lemma lock_inv b path lk σ σ' :
  lock b path lk σ = Ok (0, σ') ->
  exists tokens n,
    tokenize_path path = (0, tokens)
    /\ subtree_at b tokens σ = Some n
    /\ all_linked (heap σ) n /\ unlocked (heap σ) n
    /\ σ' = with_heap σ (with_links (heap σ)
                           (lock_all lk (node_links n) (links (heap σ)))).
Proof.
  intros H. destruct (tokenize_path path) as [ret tokens] eqn:Htok.
  assert (ret = 0) as ->.
  { unfold lock in H. rewrite Htok in H.
    destruct (ret =? 0) eqn:E; [now apply Z.eqb_eq|].
    simpl in H. injection H as -> _. discriminate. }
  destruct (subtree_at b tokens σ) as [n|] eqn:Hn.
  - rewrite (lock_found _ _ _ _ _ _ Htok Hn) in H.
    destruct (visit_list check_lock (nodes n) (heap σ)) as [[ret h1]|] eqn:Ec; [|discriminate].
    apply visit_check_inv in Ec as [-> Hc].
    destruct (ret =? 0) eqn:E; simpl in H; [|discriminate].
    apply Z.eqb_eq in E. destruct (Hc E) as [Hl Hu].
    destruct (visit_list (store_lock lk) (nodes n) (heap σ)) as [[ret' h2]|] eqn:Ea; [|discriminate].
    apply visit_assign_inv in Ea as [_ ->]. injection H as <-.
    exists tokens, n. auto.
  - exfalso. unfold lock, subtree_at in *. rewrite Htok in H. cbn [negb Z.eqb] in H.
    destruct (get_node (tree σ) (root b)) as [rn|] eqn:Hrn; [|discriminate].
    cbn [deref obind] in H. rewrite (insert_node_lookup_eq rn tokens) in H.
    destruct (snd (insert_node rn tokens false)) as [p|]; [|discriminate].
    rewrite Hn in H. discriminate.
Qed.

Lemma link_of_lock_all h lk ls m :
  link_of (with_links h (lock_all lk ls (links h))) m =
  match Builder.link m with
  | Some l => if decide (l ∈ ls) then Link.set_lock lk <$> links h !! l
              else links h !! l
  | None => None
  end.
Proof.
  unfold link_of. destruct (link m) as [l|]; [|reflexivity].
  simpl. apply lock_all_lookup.
Qed.

Lemma node_link_in_node_links n m l :
  In m (nodes n) -> link m = Some l -> l ∈ node_links n.
Proof.
  intros Hm El. apply list_elem_of_omap. exists m.
  split; [now apply list_elem_of_In | exact El].
Qed.

(** After the assigning pass every node of the subtree holds [lk]. *)
Lemma locked_by_lock_all h lk n :
  all_linked h n ->
  locked_by (with_links h (lock_all lk (node_links n) (links h))) lk n.
Proof.
  unfold all_linked, locked_by. rewrite !Forall_forall.
  intros Hl m Hm. destruct (Hl m Hm) as [L HL].
  rewrite link_of_lock_all. unfold link_of in HL.
  destruct (link m) as [l|] eqn:El; [|discriminate].
  rewrite decide_True
    by (eapply node_link_in_node_links; [apply list_elem_of_In; exact Hm | exact El]).
  rewrite HL. simpl. eauto.
Qed.

Lemma all_linked_lock_all h lk ls n :
  all_linked h n <-> all_linked (with_links h (lock_all lk ls (links h))) n.
Proof.
  unfold all_linked. apply Forall_proper; [|reflexivity]. intros m.
  rewrite link_of_lock_all. unfold link_of.
  destruct (link m) as [l|]; [|reflexivity].
  destruct (decide (l ∈ ls)); [|reflexivity].
  now rewrite fmap_is_Some.
Qed.

End lock_op.

(** ** Subtrees of paths that are, or are not, one above the other *)

Section path_facts.
Import Builder.

Lemma subtree_at_prefix b t1 t2 σ n1 n2 :
  subtree_at b t1 σ = Some n1 ->
  subtree_at b (t1 ++ t2) σ = Some n2 ->
  In n2 (nodes n1).
Proof.
  unfold subtree_at. destruct (get_node (tree σ) (root b)) as [rn|]; [|discriminate].
  rewrite insert_node_lookup_app.
  destruct (snd (insert_node rn t1 false)) as [p1|]; [|discriminate].
  intros H1. rewrite H1.
  destruct (snd (insert_node n1 t2 false)) as [p2|]; [|discriminate].
  simpl. rewrite get_node_app, H1. apply get_node_in_nodes.
Qed.

Lemma flat_map_lookup_sublist {A B} (f : A -> list B) cs i c :
  cs !! i = Some c -> f c `sublist_of` flat_map f cs.
Proof.
  revert i. induction cs as [|d cs IH]; intros [|i]; simpl; try discriminate.
  - intros [= ->]. now apply sublist_inserts_r.
  - intros H. apply sublist_inserts_l. now apply (IH i).
Qed.

Lemma node_links_sublist t p n :
  get_node t p = Some n -> node_links n `sublist_of` node_links t.
Proof.
  revert t. induction p as [|i p IH]; intros t; simpl.
  - now intros [= ->].
  - destruct (children t !! i) as [c|] eqn:E; [|discriminate].
    intros H. etrans; [apply (IH _ H)|].
    rewrite (node_links_unfold t). apply sublist_inserts_l.
    now apply (flat_map_lookup_sublist node_links _ i).
Qed.

Lemma flat_map_NoDup_disjoint {A B} (f : A -> list B) cs i j a b x :
  NoDup (flat_map f cs) -> i <> j ->
  cs !! i = Some a -> cs !! j = Some b ->
  x ∈ f a -> x ∈ f b -> False.
Proof.
  revert i j. induction cs as [|d cs IH]; intros i j Hnd Hij Ha Hb Hxa Hxb;
    [discriminate|].
  simpl in Hnd. apply NoDup_app in Hnd as (_ & Hdis & Hnd).
  destruct i as [|i], j as [|j]; simpl in *; try congruence.
  - injection Ha as ->. apply (Hdis x Hxa).
    eapply elem_of_sublist; [exact Hxb|]. now apply (flat_map_lookup_sublist f _ j).
  - injection Hb as ->. apply (Hdis x Hxb).
    eapply elem_of_sublist; [exact Hxa|]. now apply (flat_map_lookup_sublist f _ i).
  - apply (IH i j); auto.
Qed.

(** In a tree whose Links are pairwise distinct, two subtrees of which
    none lies in the other share no Link. *)
Lemma node_links_disjoint p1 : forall p2 t n1 n2 l,
  NoDup (node_links t) ->
  get_node t p1 = Some n1 -> get_node t p2 = Some n2 ->
  ~ p1 `prefix_of` p2 -> ~ p2 `prefix_of` p1 ->
  l ∈ node_links n1 -> l ∈ node_links n2 -> False.
Proof.
  induction p1 as [|i p1 IH]; intros p2 t n1 n2 l Hnd H1 H2 Hn12 Hn21 Hl1 Hl2.
  - apply Hn12, prefix_nil.
  - destruct p2 as [|j p2]; [apply Hn21, prefix_nil|].
    simpl in H1, H2.
    destruct (children t !! i) as [c1|] eqn:E1; [|discriminate].
    destruct (children t !! j) as [c2|] eqn:E2; [|discriminate].
    rewrite node_links_unfold in Hnd. apply NoDup_app in Hnd as (_ & _ & Hnd).
    destruct (decide (i = j)) as [<-|Hij].
    + rewrite E1 in E2. injection E2 as <-.
      apply (IH p2 c1 n1 n2 l); auto.
      * eapply sublist_NoDup; [exact Hnd|].
        now apply (flat_map_lookup_sublist node_links _ i).
      * intros Hp. apply Hn12. now apply prefix_cons.
      * intros Hp. apply Hn21. now apply prefix_cons.
    + apply (flat_map_NoDup_disjoint node_links _ i j c1 c2 l Hnd Hij E1 E2).
      * eapply elem_of_sublist; [exact Hl1 | apply (node_links_sublist _ _ _ H1)].
      * eapply elem_of_sublist; [exact Hl2 | apply (node_links_sublist _ _ _ H2)].
Qed.

(** Token paths of which none starts with the other lead to pointers of
    which none starts with the other. *)
Lemma lookup_incomparable t1 : forall t2 n p1 p2,
  snd (insert_node n t1 false) = Some p1 ->
  snd (insert_node n t2 false) = Some p2 ->
  ~ t1 `prefix_of` t2 -> ~ t2 `prefix_of` t1 ->
  ~ p1 `prefix_of` p2 /\ ~ p2 `prefix_of` p1.
Proof.
  induction t1 as [|a t1 IH]; intros t2 n p1 p2 H1 H2 Hn12 Hn21.
  - exfalso. apply Hn12, prefix_nil.
  - destruct t2 as [|b t2]; [exfalso; apply Hn21, prefix_nil|].
    simpl in H1, H2.
    destruct (find_child a (children n)) as [[i c1]|] eqn:E1; [|discriminate].
    destruct (find_child b (children n)) as [[j c2]|] eqn:E2; [|discriminate].
    destruct (insert_node c1 t1 false) as [c1' [q1|]] eqn:I1; [|discriminate].
    destruct (insert_node c2 t2 false) as [c2' [q2|]] eqn:I2; [|discriminate].
    simpl in H1, H2. injection H1 as <-. injection H2 as <-.
    destruct (String.eqb_spec a b) as [<-|Hab].
    + rewrite E1 in E2. injection E2 as <- <-.
      destruct (IH t2 c1 q1 q2) as [Hq12 Hq21].
      * now rewrite I1.
      * now rewrite I2.
      * intros Hp. apply Hn12. now apply prefix_cons.
      * intros Hp. apply Hn21. now apply prefix_cons.
      * split; intros Hp; [apply Hq12 | apply Hq21];
          now apply prefix_cons_inv_2 in Hp.
    + apply find_child_Some in E1 as [E1 N1]. apply find_child_Some in E2 as [E2 N2].
      assert (i <> j) by (intros <-; congruence).
      split; intros Hp; apply prefix_cons_inv_1 in Hp; congruence.
Qed.

Lemma subtree_links_disjoint b t1 t2 σ n1 n2 l :
  NoDup (node_links (tree σ)) ->
  subtree_at b t1 σ = Some n1 -> subtree_at b t2 σ = Some n2 ->
  ~ t1 `prefix_of` t2 -> ~ t2 `prefix_of` t1 ->
  l ∈ node_links n1 -> l ∈ node_links n2 -> False.
Proof.
  unfold subtree_at. intros Hnd.
  destruct (get_node (tree σ) (root b)) as [rn|] eqn:Hrn; [|discriminate].
  destruct (snd (insert_node rn t1 false)) as [p1|] eqn:I1; [|discriminate].
  destruct (snd (insert_node rn t2 false)) as [p2|] eqn:I2; [|discriminate].
  intros H1 H2 Hn12 Hn21.
  destruct (lookup_incomparable t1 t2 rn p1 p2 I1 I2 Hn12 Hn21) as [Hp12 Hp21].
  apply (node_links_disjoint p1 p2 rn n1 n2 l); auto.
  eapply sublist_NoDup; [exact Hnd | apply (node_links_sublist _ _ _ Hrn)].
Qed.

Lemma subtree_node_links_NoDup b t σ n :
  NoDup (node_links (tree σ)) -> subtree_at b t σ = Some n -> NoDup (node_links n).
Proof.
  unfold subtree_at. intros Hnd.
  destruct (get_node (tree σ) (root b)) as [rn|] eqn:Hrn; [|discriminate].
  destruct (snd (insert_node rn t false)) as [p|]; [|discriminate].
  intros Hn. eapply sublist_NoDup; [exact Hnd|].
  etrans; [apply (node_links_sublist _ _ _ Hn) | apply (node_links_sublist _ _ _ Hrn)].
Qed.

End path_facts.

(** ** Lock assignment and lock conflicts *)

Section lock_claims.
Import Builder.
Local Open Scope string_scope.

(** C3 (as the code has it).  After [channel("a.b", v)] the node [a]
    exists and has no Link: [insert_node] made it with a null [link] and
    only the last node of the path was given one.  [lock("a", L)] then
    runs into [assert(node->link)] at [a], the first node it visits. *)
Theorem lock_meets_node_without_link :
  exists σ,
    declare_all [DChannel "a.b" [Byte.x01]] (snd new_builder) = Ok σ
    /\ (exists n, subtree_at (fst new_builder) ["a"] σ = Some n /\ link n = None)
    /\ lock (fst new_builder) "a" (Some 0%nat) σ = Fault.
Proof.
  eexists. split; [vm_compute; reflexivity|]. split; [|vm_compute; reflexivity].
  eexists. split; vm_compute; reflexivity.
Qed.

(** A lock call right after a lock call.  Once [lock(p, L)] has returned
    0 for a lock [L], a call [lock(q, L')] in the state it left, whose
    subtree is linked, returns [ERR_DUPE] and leaves the
    state as it is when [q] lies above or below [p] (or is [p]); when none
    of the two paths starts with the other and the subtree of [q] held no
    lock, the call returns 0 and every Link of that subtree holds [L']. *)
Theorem lock_conflict b p q tp tq k lk' σ σ1 nq :
  tokenize_path p = (0, tp) -> tokenize_path q = (0, tq) ->
  lock b p (Some k) σ = Ok (0, σ1) ->
  subtree_at b tq σ1 = Some nq -> all_linked (heap σ1) nq ->
  ((tq `prefix_of` tp \/ tp `prefix_of` tq) ->
   lock b q lk' σ1 = Ok (ERR_DUPE, σ1))
  /\ (~ tq `prefix_of` tp -> ~ tp `prefix_of` tq ->
      NoDup (node_links (tree σ)) -> unlocked (heap σ) nq ->
      exists σ2, lock b q lk' σ1 = Ok (0, σ2)
                 /\ tree σ2 = tree σ1
                 /\ locked_by (heap σ2) lk' nq).
Proof.
  intros Hp Hq Hlock Hnq Hlq.
  apply lock_inv in Hlock as (tp' & np & Hp' & Hnp & Hlp & Hup & ->).
  rewrite Hp in Hp'. injection Hp' as <-.
  assert (Htree : forall t, subtree_at b t
            (with_heap σ (with_links (heap σ)
               (lock_all (Some k) (node_links np) (links (heap σ)))))
            = subtree_at b t σ) by reflexivity.
  rewrite Htree in Hnq. cbn [heap with_heap] in *.
  pose proof (locked_by_lock_all _ (Some k) _ Hlp) as Hby.
  unfold locked_by in Hby. rewrite Forall_forall in Hby.
  split.
  - intros Hpre. eapply lock_dupe; [exact Hq | rewrite Htree; exact Hnq | exact Hlq |].
    apply Exists_exists.
    destruct Hpre as [[t2 ->]|[t2 ->]].
    + (* q above p: the node of p is in the subtree of q *)
      exists np. split.
      * apply list_elem_of_In. eapply subtree_at_prefix; eassumption.
      * destruct (Hby np) as (L & HL & Hk).
        { apply list_elem_of_In. rewrite nodes_unfold. now left. }
        exists L. rewrite Hk. eauto.
    + (* q below p: its node is in the subtree of p *)
      exists nq. split.
      * apply list_elem_of_In. rewrite nodes_unfold. now left.
      * destruct (Hby nq) as (L & HL & Hk).
        { apply list_elem_of_In. eapply subtree_at_prefix; eassumption. }
        exists L. rewrite Hk. eauto.
  - intros Hn1 Hn2 Hnd Huq.
    assert (Huq' : unlocked (with_links (heap σ)
               (lock_all (Some k) (node_links np) (links (heap σ)))) nq).
    { unfold unlocked in *. rewrite Forall_forall in Huq |- *.
      intros m Hm L. rewrite link_of_lock_all.
      destruct (link m) as [l|] eqn:El; [|discriminate].
      rewrite decide_False.
      - intros HL. apply (Huq m Hm). unfold link_of. now rewrite El.
      - intros Hin. apply (subtree_links_disjoint b tp tq σ np nq l); auto.
        eapply node_link_in_node_links; [apply list_elem_of_In; exact Hm | exact El]. }
    eexists. split; [|split].
    + eapply lock_ok; [exact Hq | rewrite Htree; exact Hnq | exact Hlq | exact Huq' |].
      eapply subtree_node_links_NoDup; eassumption.
    + reflexivity.
    + cbn [heap with_heap]. now apply locked_by_lock_all.
Qed.

Lemma lock_conflict_witness :
  declare_all [DChannel "a" [Byte.x01]; DChannel "a.x" [Byte.x02];
               DChannel "b" [Byte.x03]] (snd new_builder) = Ok demo_abx
  /\ lock (fst new_builder) "a" (Some 7%nat) demo_abx = Ok (0, demo_abx_locked)
  /\ lock (fst new_builder) "a.x" (Some 8%nat) demo_abx_locked
     = Ok (ERR_DUPE, demo_abx_locked)
  /\ exists σ2, lock (fst new_builder) "b" (Some 8%nat) demo_abx_locked = Ok (0, σ2)
                /\ tree σ2 = tree demo_abx_locked.
Proof.
  split; [reflexivity|]. split; [reflexivity|].
  split.
  - refine (proj1 (lock_conflict (fst new_builder) "a" "a.x" ["a"] ["a"; "x"]
                     7%nat (Some 8%nat) demo_abx demo_abx_locked _
                     eq_refl eq_refl eq_refl eq_refl _) _).
    + repeat constructor; eexists; reflexivity.
    + right. exists ["x"]. reflexivity.
  - destruct (proj2 (lock_conflict (fst new_builder) "a" "b" ["a"] ["b"]
                     7%nat (Some 8%nat) demo_abx demo_abx_locked _
                     eq_refl eq_refl eq_refl eq_refl
                     ltac:(repeat constructor; eexists; reflexivity)))
      as (σ2 & H2 & Ht & _).
    + intros [t Ht]. discriminate.
    + intros [t Ht]. discriminate.
    + change (NoDup [0; 1; 2]%nat). repeat constructor; rewrite ?elem_of_cons, ?elem_of_nil; intuition discriminate.
    + repeat constructor; intros L [= <-]; reflexivity.
    + exists σ2. split; [exact H2 | exact Ht].
Defined.

End lock_claims.

(** ** The steps of [build_node] *)

(** Reduction of the heap accessors in a goal. *)
Ltac heap_simpl :=
  cbn [deref obind rivers links lock_trace with_links with_rivers
       Link.river Link.channel_offset Link.rivulet_offset Link.rivulet_size
       Link.lock Link.set_river Link.set_channel_offset Link.set_rivulet_offset
       Link.set_rivulet_size Link.set_lock fst snd].

Tactic Notation "heap_simpl" "in" hyp(H) :=
  cbn [deref obind rivers links lock_trace with_links with_rivers
       Link.river Link.channel_offset Link.rivulet_offset Link.rivulet_size
       Link.lock Link.set_river Link.set_channel_offset Link.set_rivulet_offset
       Link.set_rivulet_size Link.set_lock fst snd] in H.

Section build_steps.
Import Builder.


Lemma tree_post_unfold lks river base n :
  tree_post lks river base n <->
  own_post lks river base n
  /\ list_post (tree_post lks river) (base + own_size n)%nat (children n).
Proof. now destruct n. Qed.

Lemma write_bytes_append (st : bytes) (src : bytes) :
  write_bytes (st ++ repeat Byte.x00 (length src)) (length st) src = Ok (st ++ src).
Proof.
  unfold write_bytes. rewrite length_app, repeat_length.
  rewrite (proj2 (Nat.leb_le _ _)) by lia.
  rewrite take_app_length, drop_ge
    by (rewrite length_app, repeat_length; lia).
  now rewrite app_nil_r.
Qed.

(** [establish_link], when it returns: nothing for a node without Link;
    the river pointer is set; for a channel the initial value is appended
    to the storage and the offset is where the storage ended. *)
Lemma establish_link_inv n river h h1 st :
  rivers h !! river = Some st ->
  establish_link n river h = Ok h1 ->
  match link n with
  | None => h1 = h
  | Some l =>
      exists L, links h !! l = Some L
        /\ match channel_info n with
           | None =>
               h1 = with_links h (<[l := Link.set_river (Some river) L]> (links h))
           | Some ci =>
               h1 = mkHeap
                      (<[l := Link.set_channel_offset (Some (length st))
                                (Link.set_river (Some river) L)]> (links h))
                      (<[river := st ++ init_val ci]> (rivers h))
                      (lock_trace h)
           end
  end.
Proof.
  intros Hst. unfold establish_link.
  destruct (link n) as [l|]; [|now intros [= <-]].
  unfold upd_link at 1, get_link.
  destruct (links h !! l) as [L|] eqn:HL; [|discriminate].
  cbn [deref obind]. intros H. exists L. split; [reflexivity|].
  destruct (channel_info n) as [ci|]; [|now injection H as <-].
  assert (Hl : (l < length (links h))%nat) by (eapply lookup_lt_Some; exact HL).
  assert (Hr : (river < length (rivers h))%nat) by (eapply lookup_lt_Some; exact Hst).
  revert H. unfold get_storage, set_storage, get_storage, upd_link, get_link.
  heap_simpl. rewrite Hst. heap_simpl.
  rewrite list_lookup_insert_eq by exact Hl. heap_simpl.
  rewrite list_lookup_insert_eq by (rewrite length_insert; exact Hl). heap_simpl.
  rewrite list_lookup_insert_eq by exact Hr. heap_simpl.
  unfold size. rewrite write_bytes_append. heap_simpl.
  rewrite !list_insert_insert_eq. now intros [= <-].
Qed.

End build_steps.

(** ** The rivulet pass and the frame of a build *)

Section build_rivulet.
Import Builder.

Lemma sum_size_lift m acc : sum_size m acc = lift_visitor add_size m acc.
Proof.
  unfold sum_size, lift_visitor, add_size, info_size.
  destruct (channel_info m); simpl; [reflexivity|]. now rewrite Nat.add_0_r.
Qed.

Lemma visit_add_size ns : forall acc,
  visit_list add_size ns acc = Ok (0, (acc + total_size ns)%nat).
Proof.
  unfold total_size. induction ns as [|m ns IH]; intros acc; simpl.
  - now rewrite Nat.add_0_r.
  - rewrite IH. now rewrite Nat.add_assoc.
Qed.

Lemma total_size_app ns ms : total_size (ns ++ ms) = (total_size ns + total_size ms)%nat.
Proof. apply sum_list_with_app. Qed.

Lemma sum_children_total cs : forall acc,
  sum_children cs acc = Ok (acc + total_size (flat_map nodes cs))%nat.
Proof.
  induction cs as [|c cs IH]; intros acc; simpl.
  - unfold total_size. simpl. now rewrite Nat.add_0_r.
  - rewrite (for_each_node_flat _ _ sum_size_lift), visit_add_size. simpl.
    rewrite IH, total_size_app. now rewrite Nat.add_assoc.
Qed.

(** [set_rivulet], when it returns: nothing for a node without Link; else
    the size is the total below the node and the offset is 0 without
    children, or whatever the Link of the first child has as its channel
    offset. *)
Lemma set_rivulet_inv n h h' :
  set_rivulet n h = Ok h' ->
  match link n with
  | None => h' = h
  | Some l =>
      exists L off, links h !! l = Some L
        /\ h' = with_links h
                  (<[l := Link.set_rivulet_offset off
                            (Link.set_rivulet_size
                               (Some (total_size (descendants n))) L)]> (links h))
        /\ match children n with
           | [] => off = Some 0%nat
           | c0 :: _ =>
               exists l0 L0, link c0 = Some l0
                 /\ <[l := Link.set_rivulet_size
                             (Some (total_size (descendants n))) L]> (links h) !! l0
                    = Some L0
                 /\ off = Link.channel_offset L0
           end
  end.
Proof.
  unfold set_rivulet. destruct (link n) as [l|]; [|now intros [= <-]].
  rewrite sum_children_total. heap_simpl. unfold upd_link at 1, get_link.
  destruct (links h !! l) as [L|] eqn:HL; [|discriminate]. heap_simpl.
  assert (Hl : (l < length (links h))%nat) by (eapply lookup_lt_Some; exact HL).
  intros H. exists L.
  destruct (children n) as [|c0 cs] eqn:Ecs.
  - revert H. heap_simpl. unfold upd_link, get_link. heap_simpl.
    rewrite list_lookup_insert_eq by exact Hl. heap_simpl.
    rewrite list_insert_insert_eq. intros [= <-]. exists (Some 0%nat).
    unfold descendants. rewrite Ecs. auto.
  - revert H. destruct (link c0) as [l0|]; [|discriminate]. heap_simpl.
    unfold get_link. heap_simpl.
    destruct (_ !! l0) as [L0|] eqn:HL0; [|discriminate]. heap_simpl.
    unfold upd_link, get_link. heap_simpl.
    rewrite list_lookup_insert_eq by exact Hl. heap_simpl.
    rewrite list_insert_insert_eq. intros [= <-]. exists (Link.channel_offset L0).
    unfold descendants. rewrite Ecs. split; [reflexivity|]. split; [reflexivity|].
    exists l0, L0. auto.
Qed.

Lemma build_frame_refl ls river st h :
  rivers h !! river = Some st -> build_frame ls river st [] h h.
Proof.
  intros Hst. unfold build_frame. rewrite app_nil_r, list_insert_id by exact Hst.
  repeat split; eauto.
Qed.

Lemma build_frame_trans ls1 ls2 river st a1 a2 h h1 h2 :
  (river < length (rivers h))%nat ->
  build_frame ls1 river st a1 h h1 ->
  build_frame ls2 river (st ++ a1) a2 h1 h2 ->
  build_frame (ls1 ++ ls2) river st (a1 ++ a2) h h2.
Proof.
  intros Hr (R1 & T1 & N1 & F1 & K1) (R2 & T2 & N2 & F2 & K2).
  unfold build_frame. repeat split.
  - rewrite R2, R1, list_insert_insert_eq. now rewrite app_assoc.
  - congruence.
  - congruence.
  - intros l Hl. rewrite not_elem_of_app in Hl. destruct Hl.
    rewrite F2, F1; auto.
  - intros l L2 HL2. destruct (K2 _ _ HL2) as (L1 & HL1 & E2).
    destruct (K1 _ _ HL1) as (L & HL & E1). exists L. split; [exact HL | congruence].
Qed.

Lemma build_frame_weaken ls ls' river st a h h' :
  (forall l, l ∈ ls -> l ∈ ls') ->
  build_frame ls river st a h h' -> build_frame ls' river st a h h'.
Proof.
  intros Hsub (R & T & N & F & K). unfold build_frame. repeat split; auto.
Qed.

Lemma own_post_frame lks lks' river base n :
  (forall l, l ∈ node_links n -> lks' !! l = lks !! l) ->
  own_post lks river base n -> own_post lks' river base n.
Proof.
  unfold own_post. intros Hf. destruct (link n) as [l|] eqn:El; [|auto].
  rewrite Hf; [auto|]. rewrite node_links_unfold, El. now left.
Qed.

Lemma tree_post_frame lks lks' river n : forall base,
  (forall l, l ∈ node_links n -> lks' !! l = lks !! l) ->
  tree_post lks river base n -> tree_post lks' river base n.
Proof.
  induction n as [nm ci l cs IH] using Node_ind. intros base Hf.
  rewrite !tree_post_unfold. intros [Hown Hcs]. split.
  - eapply own_post_frame; eassumption.
  - cbn [children] in *. rewrite node_links_unfold in Hf. cbn [children] in Hf.
    assert (Hf' : forall l, l ∈ flat_map node_links cs -> lks' !! l = lks !! l).
    { intros l0 Hl0. apply Hf. apply elem_of_app. now right. }
    clear Hf Hown. revert Hcs. generalize (base + own_size (mkNode nm ci l cs))%nat.
    induction IH as [|c cs Hc _ IHcs]; intros b; [auto|].
    cbn [list_post]. intros [Hc1 Hrest]. split.
    + apply Hc; [|exact Hc1]. intros l0 Hl0. apply Hf'. cbn [flat_map].
      apply elem_of_app. now left.
    + apply IHcs; [|exact Hrest]. intros l0 Hl0. apply Hf'. cbn [flat_map].
      apply elem_of_app. now right.
Qed.

Lemma list_post_frame lks lks' river cs : forall base,
  (forall l, l ∈ flat_map node_links cs -> lks' !! l = lks !! l) ->
  list_post (tree_post lks river) base cs ->
  list_post (tree_post lks' river) base cs.
Proof.
  induction cs as [|c cs IH]; intros base Hf; [auto|].
  cbn [list_post]. intros [Hc Hrest]. split.
  - eapply tree_post_frame; [|exact Hc]. intros l0 Hl0. apply Hf. cbn [flat_map].
    apply elem_of_app. now left.
  - apply IH; [|exact Hrest]. intros l0 Hl0. apply Hf. cbn [flat_map].
    apply elem_of_app. now right.
Qed.

Lemma chans_of_app ns ms : chans_of (ns ++ ms) = chans_of ns ++ chans_of ms.
Proof. apply omap_app. Qed.

Lemma init_bytes_app a b : init_bytes (a ++ b) = init_bytes a ++ init_bytes b.
Proof. apply flat_map_app. Qed.

Lemma layout_flat cs :
  init_bytes (chans_of (flat_map nodes cs)) = flat_map layout cs.
Proof.
  induction cs as [|c cs IH]; [reflexivity|].
  cbn [flat_map]. now rewrite chans_of_app, init_bytes_app, IH.
Qed.

Lemma layout_unfold n : layout n = own_bytes n ++ flat_map layout (children n).
Proof.
  unfold layout at 1. rewrite nodes_unfold.
  change (n :: flat_map nodes (children n)) with ([n] ++ flat_map nodes (children n)).
  rewrite chans_of_app, init_bytes_app, layout_flat. f_equal.
  unfold chans_of, own_bytes. simpl. destruct (chan_of n) as [[l ci]|]; simpl;
    [apply app_nil_r | reflexivity].
Qed.

Lemma own_bytes_length n : length (own_bytes n) = own_size n.
Proof. unfold own_bytes, own_size. now destruct (chan_of n) as [[l ci]|]. Qed.

End build_rivulet.

(** ** [build_node] on a subtree *)

Section build_node_facts.
Import Builder.

Lemma build_frame_river ls river st a h h' :
  rivers h !! river = Some st ->
  build_frame ls river st a h h' -> rivers h' !! river = Some (st ++ a).
Proof.
  intros Hst (R & _). rewrite R. apply list_lookup_insert_eq.
  eapply lookup_lt_Some; exact Hst.
Qed.

(** The first half of [build_node] as a part of the build. *)
Lemma establish_link_post n river h h1 st :
  rivers h !! river = Some st ->
  establish_link n river h = Ok h1 ->
  build_frame (option_list (link n)) river st (own_bytes n) h h1
  /\ match link n with
     | None => True
     | Some l =>
         exists L, links h1 !! l = Some L
           /\ Link.river L = Some river
           /\ (is_Some (channel_info n) -> Link.channel_offset L = Some (length st))
     end.
Proof.
  intros Hst H. pose proof (establish_link_inv _ _ _ _ _ Hst H) as Hinv.
  unfold own_bytes, chan_of. destruct (link n) as [l|].
  - destruct Hinv as (L & HL & Hh1).
    assert (Hl : (l < length (links h))%nat) by (eapply lookup_lt_Some; exact HL).
    assert (Hframe : forall L1 : Link.t, Link.lock L1 = Link.lock L ->
              forall l0 L', <[l := L1]> (links h) !! l0 = Some L' ->
              exists L0, links h !! l0 = Some L0 /\ Link.lock L' = Link.lock L0).
    { intros L1 HL1 l0 L'. destruct (decide (l = l0)) as [<-|Hne].
      - rewrite list_lookup_insert_eq by exact Hl. intros [= <-]. eauto.
      - rewrite list_lookup_insert_ne by exact Hne. eauto. }
    destruct (channel_info n) as [ci|]; subst h1; heap_simpl.
    + split.
      * unfold build_frame. heap_simpl. repeat split.
        -- now rewrite length_insert.
        -- intros l0 Hl0. apply list_lookup_insert_ne. intros <-. apply Hl0.
           simpl. now left.
        -- apply Hframe. reflexivity.
      * eexists. rewrite list_lookup_insert_eq by exact Hl. eauto.
    + split.
      * unfold build_frame. heap_simpl. rewrite app_nil_r, list_insert_id by exact Hst.
        repeat split.
        -- now rewrite length_insert.
        -- intros l0 Hl0. apply list_lookup_insert_ne. intros <-. apply Hl0.
           simpl. now left.
        -- apply Hframe. reflexivity.
      * eexists. rewrite list_lookup_insert_eq by exact Hl.
        split; [reflexivity|]. split; [reflexivity|]. intros [? ?]; discriminate.
  - subst h1. split; [|exact I]. now apply build_frame_refl.
Qed.

(** The loop over the children, given the guarantee for each child. *)
Lemma build_children_post cs :
  Forall build_node_spec cs ->
  forall river h h' st,
    NoDup (flat_map node_links cs) ->
    rivers h !! river = Some st ->
    build_children build_node river cs h = Ok h' ->
    build_frame (flat_map node_links cs) river st (flat_map layout cs) h h'
    /\ list_post (tree_post (links h') river) (length st) cs.
Proof.
  induction 1 as [|c cs Hc _ IH]; intros river h h' st Hnd Hst Hb.
  - injection Hb as <-. split; [|exact I]. now apply build_frame_refl.
  - cbn [build_children] in Hb.
    destruct (build_node c river h) as [h1|] eqn:Ec; [|discriminate].
    fold (build_children build_node river) in Hb.
    cbn [flat_map] in *. apply NoDup_app in Hnd as (Hnd1 & Hdis & Hnd2).
    destruct (Hc river h h1 st Hnd1 Hst Ec) as [Hf1 Hp1].
    pose proof (build_frame_river _ _ _ _ _ _ Hst Hf1) as Hst1.
    destruct (IH river h1 h' _ Hnd2 Hst1 Hb) as [Hf2 Hp2].
    split.
    + eapply build_frame_trans; [eapply lookup_lt_Some; exact Hst | exact Hf1 | exact Hf2].
    + cbn [list_post]. split.
      * eapply tree_post_frame; [|exact Hp1].
        intros l Hl. destruct Hf2 as (_ & _ & _ & F2 & _). apply F2. now apply Hdis.
      * rewrite length_app in Hp2. exact Hp2.
Qed.

Lemma build_node_post n : build_node_spec n.
Proof.
  induction n as [nm ci lk cs IH] using Node_ind.
  intros river h h' st Hnd Hst Hb.
  rewrite build_node_unfold in Hb.
  destruct (establish_link _ river h) as [h1|] eqn:E1; [|discriminate].
  destruct (build_children _ _ _ h1) as [h2|] eqn:E2; [|discriminate].
  set (n := mkNode nm ci lk cs) in *.
  rewrite node_links_unfold in Hnd. apply NoDup_app in Hnd as (Hnd0 & Hdis & Hndc).
  destruct (establish_link_post _ _ _ _ _ Hst E1) as [Hf1 Hown1].
  pose proof (build_frame_river _ _ _ _ _ _ Hst Hf1) as Hst1.
  destruct (build_children_post _ IH river h1 h2 _ Hndc Hst1 E2) as [Hf2 Hp2].
  pose proof (build_frame_trans _ _ _ _ _ _ _ _ _
                (lookup_lt_Some _ _ _ Hst) Hf1 Hf2) as Hf12.
  rewrite <- layout_unfold, <- node_links_unfold in Hf12.
  rewrite length_app, own_bytes_length in Hp2.
  pose proof (set_rivulet_inv _ _ _ Hb) as Hr.
  rewrite tree_post_unfold. unfold own_post.
  destruct (link n) as [l|] eqn:El.
  - destruct Hr as (L2 & off & HL2 & -> & Hoff).
    assert (Hl : (l < length (links h2))%nat) by (eapply lookup_lt_Some; exact HL2).
    assert (Hlc : l ∉ flat_map node_links (children n)).
    { apply Hdis. simpl. now left. }
    destruct Hown1 as (L1 & HL1 & Hriv & Hco).
    assert (L2 = L1) as ->.
    { destruct Hf2 as (_ & _ & _ & F2 & _). rewrite (F2 l Hlc) in HL2. congruence. }
    split; [|split].
    + (* frame *)
      destruct Hf12 as (R & T & N & F & K). unfold build_frame. heap_simpl.
      repeat split; auto.
      * now rewrite length_insert.
      * intros l0 Hl0. rewrite list_lookup_insert_ne; [now apply F|].
        intros <-. apply Hl0. rewrite node_links_unfold, El. now left.
      * intros l0 L'. destruct (decide (l = l0)) as [<-|Hne].
        -- rewrite list_lookup_insert_eq by exact Hl. intros [= <-].
           heap_simpl. now apply K.
        -- rewrite list_lookup_insert_ne by exact Hne. apply K.
    + (* the Link of the node *)
      heap_simpl. eexists. rewrite list_lookup_insert_eq by exact Hl.
      split; [reflexivity|]. heap_simpl.
      split; [exact Hriv|]. split; [exact Hco|]. split; [reflexivity|].
      destruct (children n) as [|c0 cs'] eqn:Ecs; [exact Hoff|].
      intros [[l0' ci0] Hc0]. destruct Hoff as (l0 & L0 & El0 & HL0 & ->).
      change cs with (children n) in Hp2. rewrite Ecs in Hp2.
      cbn [list_post] in Hp2. destruct Hp2 as [Hp0 _].
      rewrite tree_post_unfold in Hp0. destruct Hp0 as [Hown0 _].
      unfold own_post in Hown0. rewrite El0 in Hown0.
      destruct Hown0 as (L0' & HL0' & _ & Hco0 & _).
      assert (l <> l0).
      { intros <-. apply Hlc. cbn [flat_map]. apply elem_of_app. left.
        rewrite node_links_unfold, El0. now left. }
      rewrite list_lookup_insert_ne in HL0 by assumption.
      rewrite HL0 in HL0'. injection HL0' as <-. apply Hco0.
      unfold chan_of in Hc0. rewrite El0 in Hc0.
      destruct (channel_info c0); [eauto | discriminate].
    + (* the children *)
      heap_simpl. eapply list_post_frame; [|exact Hp2].
      intros l0 Hl0. apply list_lookup_insert_ne. now intros <-.
  - subst h'. split; [exact Hf12|]. split; [exact I | exact Hp2].
Qed.

End build_node_facts.

(** ** Reading and writing through linked handles *)

Section handle_facts.
Import Builder.

Lemma bracketed_links h L : links (bracketed h L) = links h.
Proof. unfold bracketed, release_if_locked, acquire_if_locked. now destruct (Link.lock L). Qed.

Lemma bracketed_rivers h L : rivers (bracketed h L) = rivers h.
Proof. unfold bracketed, release_if_locked, acquire_if_locked. now destruct (Link.lock L). Qed.

Lemma acquire_links h L : links (acquire_if_locked h L) = links h.
Proof. unfold acquire_if_locked. now destruct (Link.lock L). Qed.

Lemma acquire_rivers h L : rivers (acquire_if_locked h L) = rivers h.
Proof. unfold acquire_if_locked. now destruct (Link.lock L). Qed.

Lemma release_links h L : links (release_if_locked h L) = links h.
Proof. unfold release_if_locked. now destruct (Link.lock L). Qed.

Lemma release_rivers h L : rivers (release_if_locked h L) = rivers h.
Proof. unfold release_if_locked. now destruct (Link.lock L). Qed.

Lemma linked_true l L r h :
  links h !! l = Some L -> Link.river L = Some r -> Linkable.linked (Some l) h = true.
Proof. intros HL Hr. unfold Linkable.linked. rewrite HL, Hr. reflexivity. Qed.

Lemma write_bytes_whole (dest src : bytes) :
  length dest = length src -> write_bytes dest 0 src = Ok src.
Proof.
  intros Hlen. unfold write_bytes. simpl.
  rewrite (proj2 (Nat.leb_le _ _)) by lia.
  rewrite drop_ge by lia. now rewrite app_nil_r.
Qed.

Lemma read_bytes_length st off n v : read_bytes st off n = Ok v -> length v = n.
Proof.
  unfold read_bytes. destruct (Nat.leb_spec (off + n) (length st)); [|discriminate].
  intros [= <-]. rewrite length_take, length_drop. lia.
Qed.

Lemma read_bytes_middle (pre v suf : bytes) :
  read_bytes (pre ++ v ++ suf) (length pre) (length v) = Ok v.
Proof.
  unfold read_bytes. rewrite !length_app.
  rewrite (proj2 (Nat.leb_le _ _)) by lia.
  rewrite drop_app_length. now rewrite take_app_length.
Qed.

Lemma write_bytes_middle (pre old suf v : bytes) :
  length old = length v ->
  write_bytes (pre ++ old ++ suf) (length pre) v = Ok (pre ++ v ++ suf).
Proof.
  intros Hlen. unfold write_bytes. rewrite !length_app.
  rewrite (proj2 (Nat.leb_le _ _)) by lia.
  rewrite take_app_length. do 2 f_equal. f_equal.
  rewrite <- Hlen, drop_app_add'
    by reflexivity. now rewrite drop_app_length.
Qed.

(** A range inside the storage can be cut out. *)
Lemma bytes_split (st : bytes) off n :
  (off + n <= length st)%nat ->
  exists pre old suf, st = pre ++ old ++ suf /\ length pre = off /\ length old = n.
Proof.
  intros Hle. exists (take off st), (take n (drop off st)), (drop (off + n) st).
  split; [|split].
  - rewrite <- drop_drop. now rewrite !take_drop.
  - rewrite length_take. lia.
  - rewrite length_take, length_drop. lia.
Qed.

(** [get] on a linked channel: the bytes at the channel offset, with the
    lock taken once. *)
Lemma get_linked c l L r st off v h :
  Channel.link c = Some l ->
  links h !! l = Some L -> Link.river L = Some r ->
  rivers h !! r = Some st -> Link.channel_offset L = Some off ->
  read_bytes st off (Channel.size c) = Ok v ->
  Channel.get c h = Ok (v, bracketed h L).
Proof.
  intros Hc HL Hr Hst Hoff Hread.
  unfold Channel.get, Channel.serialize. rewrite Hc, (linked_true _ _ _ _ HL Hr).
  unfold get_link, get_storage. heap_simpl. rewrite HL. heap_simpl. rewrite Hr.
  heap_simpl. rewrite acquire_rivers, Hst. heap_simpl. rewrite Hoff. heap_simpl.
  rewrite Hread. heap_simpl. rewrite write_bytes_whole.
  - reflexivity.
  - unfold Channel.default_value. rewrite repeat_length.
    symmetry. eapply read_bytes_length. exact Hread.
Qed.

(** [set] on a linked channel overwrites the bytes at the channel offset. *)
Lemma set_linked c l L r pre old suf x h :
  Channel.link c = Some l ->
  links h !! l = Some L -> Link.river L = Some r ->
  rivers h !! r = Some (pre ++ old ++ suf) ->
  Link.channel_offset L = Some (length pre) ->
  length old = Channel.size c -> length x = Channel.size c ->
  Channel.set c x h
  = Ok (bracketed (with_rivers h (<[r := pre ++ x ++ suf]> (rivers h))) L).
Proof.
  intros Hc HL Hr Hst Hoff Hold Hx.
  unfold Channel.set, Channel.deserialize. rewrite Hc, (linked_true _ _ _ _ HL Hr).
  unfold get_link, get_storage, set_storage, get_storage. heap_simpl. rewrite HL.
  heap_simpl. rewrite Hr. heap_simpl. rewrite acquire_rivers, Hst. heap_simpl.
  rewrite Hoff. heap_simpl.
  assert (Hrx : read_bytes x 0 (Channel.size c) = Ok x).
  { unfold read_bytes. simpl. rewrite (proj2 (Nat.leb_le _ _)) by lia.
    rewrite <- Hx. now rewrite firstn_all. }
  rewrite Hrx. heap_simpl. rewrite write_bytes_middle by lia. heap_simpl.
  unfold bracketed, acquire_if_locked, release_if_locked.
  destruct (Link.lock L); reflexivity.
Qed.

End handle_facts.

(** ** [Builder::build] on the root builder *)

Section build_facts.
Import Builder.

Lemma laid_out_app lks river chs1 : forall base chs2,
  laid_out lks river base (chs1 ++ chs2) <->
  laid_out lks river base chs1
  /\ laid_out lks river (base + length (init_bytes chs1))%nat chs2.
Proof.
  induction chs1 as [|c chs1 IH]; intros base chs2; simpl.
  - rewrite Nat.add_0_r. tauto.
  - rewrite IH, length_app. unfold size. rewrite Nat.add_assoc. tauto.
Qed.

Lemma list_post_laid_out lks river cs :
  Forall (fun c => forall base, tree_post lks river base c ->
                     laid_out lks river base (chans_of (nodes c))) cs ->
  forall base, list_post (tree_post lks river) base cs ->
    laid_out lks river base (chans_of (flat_map nodes cs)).
Proof.
  induction 1 as [|c cs Hc _ IH]; intros base; [intros _; exact I|].
  cbn [list_post flat_map]. intros [H1 H2].
  rewrite chans_of_app, laid_out_app. split; [now apply Hc|].
  apply IH. exact H2.
Qed.

(** After a successful build the laid-out channels of a subtree follow
    one another in the storage, in depth-first order. *)
Lemma tree_post_laid_out lks river n : forall base,
  tree_post lks river base n -> laid_out lks river base (chans_of (nodes n)).
Proof.
  induction n as [nm ci l cs IH] using Node_ind. intros base.
  rewrite tree_post_unfold, nodes_unfold. cbn [children]. intros [Hown Hcs].
  change (?x :: flat_map nodes cs) with ([x] ++ flat_map nodes cs).
  rewrite chans_of_app, laid_out_app. split.
  - unfold chans_of, own_post, chan_of in *. cbn [link channel_info omap list_omap] in *.
    destruct l as [l|]; [|exact I]. destruct ci as [ci|]; [|exact I].
    destruct Hown as (L & HL & Hr & Hco & _). cbn. split; [|exact I].
    exists L. split; [exact HL|]. split; [exact Hr|]. apply Hco. eauto.
  - apply (list_post_laid_out _ _ _ IH).
    replace (length (init_bytes (chans_of [mkNode nm ci l cs])))
      with (own_size (mkNode nm ci l cs)); [exact Hcs|].
    unfold own_size, chans_of. cbn [omap list_omap].
    destruct (chan_of _) as [[l0 ci0]|]; cbn; [|reflexivity].
    now rewrite app_nil_r.
Qed.

(** Each channel laid out from the end of [pre] on has its initial value
    at its offset. *)
Lemma laid_out_read lks river chs : forall (pre : bytes) l ci,
  laid_out lks river (length pre) chs ->
  In (l, ci) chs ->
  exists L pre' suf,
    lks !! l = Some L /\ Link.river L = Some river
    /\ Link.channel_offset L = Some (length pre')
    /\ pre ++ init_bytes chs = pre' ++ init_val ci ++ suf.
Proof.
  induction chs as [|c chs IH]; intros pre l ci Hlaid Hin; [destruct Hin|].
  cbn [laid_out init_bytes flat_map] in *. destruct Hlaid as [(L & HL & Hr & Hoff) Hrest].
  destruct Hin as [->|Hin].
  - exists L, pre, (init_bytes chs). auto.
  - destruct (IH (pre ++ init_val (snd c)) l ci) as (L' & pre' & suf & H1 & H2 & H3 & H4).
    + rewrite length_app. exact Hrest.
    + exact Hin.
    + exists L', pre', suf. rewrite <- H4. rewrite <- app_assoc. auto.
Qed.

Lemma build_node_unlinked n river h :
  node_links n = [] -> build_node n river h = Ok h.
Proof.
  revert h. induction n as [nm ci l cs IH] using Node_ind. intros h.
  rewrite node_links_unfold, build_node_unfold. cbn [link children].
  intros Hnil. apply app_eq_nil in Hnil as [Hl Hcs].
  destruct l as [l|]; [discriminate|].
  unfold establish_link, set_rivulet. cbn [link].
  assert (Hloop : forall h, build_children build_node river cs h = Ok h).
  { clear h. induction IH as [|c cs Hc _ IHcs]; intros h0; [reflexivity|].
    cbn [flat_map] in Hcs. apply app_eq_nil in Hcs as [Hc0 Hcs].
    cbn [build_children]. rewrite (Hc h0 Hc0).
    fold (build_children build_node river). now apply IHcs. }
  now rewrite Hloop.
Qed.

(** [build] on the root builder: a new river, [build_node] on the tree,
    and the tree with every Link detached. *)
Lemma build_inv b σ code rr σ' :
  is_root b = true -> root b = [] ->
  build b σ = Ok (code, rr, σ') ->
  code = 0 /\ rr = Some (length (rivers (heap σ)))
  /\ tree σ' = strip_links (tree σ)
  /\ build_node (tree σ) (length (rivers (heap σ))) (with_new_river (heap σ))
     = Ok (heap σ').
Proof.
  intros Hroot Hpos. unfold build. rewrite Hroot, Hpos. cbn [negb new_river get_node deref obind set_node].
  unfold with_new_river. cbn [new_river snd].
  destruct (build_node _ _ _) as [h2|]; [|discriminate]. cbn [obind].
  rewrite for_each_node_remove_link. cbn [obind fst snd].
  intros [= <- <- <-]. auto.
Qed.

Lemma build_ok b σ h' :
  is_root b = true -> root b = [] ->
  build_node (tree σ) (length (rivers (heap σ))) (with_new_river (heap σ)) = Ok h' ->
  build b σ = Ok (0, Some (length (rivers (heap σ))), mkState (strip_links (tree σ)) h').
Proof.
  intros Hroot Hpos Hb. unfold build. rewrite Hroot, Hpos.
  cbn [negb new_river get_node deref obind set_node].
  unfold with_new_river in Hb. cbn [new_river snd] in Hb. rewrite Hb. cbn [obind].
  now rewrite for_each_node_remove_link.
Qed.

Lemma new_river_lookup h :
  rivers (with_new_river h) !! length (rivers h) = Some [].
Proof.
  unfold with_new_river. cbn. rewrite lookup_app_r by lia.
  now rewrite Nat.sub_diag.
Qed.

(** What the first build from a tree with pairwise distinct Links leaves:
    the storage of the new river is the layout of the tree, the older
    rivers and every lock pointer are as before, and the Links of the
    tree are set as [tree_post] says. *)
Lemma build_post b σ code rr σ' :
  is_root b = true -> root b = [] ->
  NoDup (node_links (tree σ)) ->
  build b σ = Ok (code, rr, σ') ->
  let river := length (rivers (heap σ)) in
  code = 0 /\ rr = Some river
  /\ tree σ' = strip_links (tree σ)
  /\ rivers (heap σ') = rivers (heap σ) ++ [layout (tree σ)]
  /\ build_frame (node_links (tree σ)) river [] (layout (tree σ))
       (with_new_river (heap σ)) (heap σ')
  /\ tree_post (links (heap σ')) river 0 (tree σ).
Proof.
  intros Hroot Hpos Hnd Hb river.
  destruct (build_inv _ _ _ _ _ Hroot Hpos Hb) as (-> & -> & Ht & Hbn).
  destruct (build_node_post (tree σ) river _ _ [] Hnd (new_river_lookup _) Hbn)
    as [Hf Hp].
  split; [reflexivity|]. split; [reflexivity|]. split; [exact Ht|].
  split; [|split; [exact Hf | exact Hp]].
  destruct Hf as (R & _). rewrite R. unfold with_new_river. cbn [new_river snd rivers with_rivers].
  replace river with (length (rivers (heap σ)) + 0)%nat by (unfold river; lia).
  rewrite insert_app_r. reflexivity.
Qed.

End build_facts.

(** ** [insert_node] with [create = true] *)

Section insert_facts.
Import Builder.

Lemma find_child_insert token cs i c c' :
  find_child token cs = Some (i, c) -> name c' = name c ->
  find_child token (<[i := c']> cs) = Some (i, c').
Proof.
  revert i. induction cs as [|d cs IH]; intros i; simpl; [discriminate|].
  destruct (String.eqb_spec (name d) token) as [Hd|Hd].
  - intros [= <- <-] Hn. simpl. rewrite Hn, Hd. now rewrite String.eqb_refl.
  - destruct (find_child token cs) as [[j e]|] eqn:E; [|discriminate].
    intros [= <- <-] Hn. simpl.
    destruct (String.eqb_spec (name d) token); [contradiction|].
    now rewrite (IH j eq_refl Hn).
Qed.

Lemma find_child_app_None token cs c :
  find_child token cs = None -> name c = token ->
  find_child token (cs ++ [c]) = Some (length cs, c).
Proof.
  induction cs as [|d cs IH]; simpl.
  - intros _ ->. now rewrite String.eqb_refl.
  - destruct (String.eqb_spec (name d) token); [discriminate|].
    destruct (find_child token cs) as [[j e]|]; [discriminate|].
    intros _ Hc. now rewrite (IH eq_refl Hc).
Qed.

Lemma name_insert_node path : forall n create,
  name (fst (insert_node n path create)) = name n.
Proof.
  destruct path as [|token rest]; intros n create; simpl; [reflexivity|].
  destruct (find_child token (children n)) as [[i c]|].
  - now destruct (insert_node c rest create).
  - destruct create; [|reflexivity].
    now destruct (insert_node _ rest true).
Qed.

(** Creating always hands back a pointer, and the pointer leads to a
    node of the tree it leaves. *)
Lemma insert_node_create path : forall n,
  exists p m, snd (insert_node n path true) = Some p
              /\ get_node (fst (insert_node n path true)) p = Some m.
Proof.
  induction path as [|token rest IH]; intros n; simpl.
  - exists [], n. auto.
  - destruct (find_child token (children n)) as [[i c]|] eqn:E.
    + apply find_child_Some in E as [E _].
      destruct (IH c) as (p & m & Hp & Hm).
      destruct (insert_node c rest true) as [c' r]. simpl in *. subst r.
      exists (i :: p), m. split; [reflexivity|]. simpl.
      rewrite list_lookup_insert_eq by (eapply lookup_lt_Some; exact E). exact Hm.
    + destruct (IH (mkNode token None None [])) as (p & m & Hp & Hm).
      destruct (insert_node _ rest true) as [c' r]. simpl in *. subst r.
      exists (length (children n) :: p), m. split; [reflexivity|]. simpl.
      rewrite lookup_app_r by lia. rewrite Nat.sub_diag. exact Hm.
Qed.

(** The tree that [insert_node] leaves answers a lookup of the same path
    with the same pointer. *)
Lemma insert_node_then_lookup path : forall n create,
  snd (insert_node (fst (insert_node n path create)) path false)
  = snd (insert_node n path create).
Proof.
  induction path as [|token rest IH]; intros n create; simpl; [reflexivity|].
  destruct (find_child token (children n)) as [[i c]|] eqn:E.
  - specialize (IH c create). pose proof (name_insert_node rest c create) as Hn.
    destruct (insert_node c rest create) as [c' r]. simpl in *.
    rewrite (find_child_insert _ _ _ _ c' E Hn).
    destruct (insert_node c' rest false) as [c'' r']. simpl in *. now subst.
  - destruct create; [|simpl; now rewrite E].
    specialize (IH (mkNode token None None []) true).
    pose proof (name_insert_node rest (mkNode token None None []) true) as Hn.
    destruct (insert_node _ rest true) as [c' r]. simpl in *.
    rewrite (find_child_app_None _ _ c' E Hn).
    destruct (insert_node c' rest false) as [c'' r']. simpl in *. now subst.
Qed.

(** On a path that exists, creating changes nothing. *)
Lemma insert_node_existing path : forall n p,
  snd (insert_node n path false) = Some p ->
  insert_node n path true = (n, Some p).
Proof.
  induction path as [|token rest IH]; intros n p; simpl.
  - now intros [= <-].
  - destruct (find_child token (children n)) as [[i c]|] eqn:E; [|discriminate].
    apply find_child_Some in E as [E _].
    destruct (insert_node c rest false) as [c1 [q|]] eqn:E1; [|discriminate].
    simpl. intros [= <-]. rewrite (IH c q) by now rewrite E1.
    simpl. rewrite list_insert_id by exact E. now rewrite with_children_id.
Qed.

Lemma name_set_node n p m m0 :
  get_node n p = Some m0 -> name m = name m0 -> name (set_node n p m) = name n.
Proof.
  destruct p as [|i p]; simpl.
  - now intros [= ->].
  - now destruct (children n !! i).
Qed.

(** A lookup is not disturbed when the node it ends at is replaced by a
    node of the same name. *)
Lemma lookup_set_node path : forall n p m0 m,
  snd (insert_node n path false) = Some p ->
  get_node n p = Some m0 -> name m = name m0 ->
  snd (insert_node (set_node n p m) path false) = Some p.
Proof.
  induction path as [|token rest IH]; intros n p m0 m; simpl.
  - intros [= <-]. reflexivity.
  - destruct (find_child token (children n)) as [[i c]|] eqn:E; [|discriminate].
    destruct (insert_node c rest false) as [c1 [q|]] eqn:E1; [|discriminate].
    simpl. intros [= <-]. simpl.
    pose proof (find_child_Some _ _ _ _ E) as [Ei _]. rewrite Ei.
    intros Hm Hname. cbn [children with_children].
    assert (Hq : snd (insert_node c rest false) = Some q) by now rewrite E1.
    rewrite (find_child_insert _ _ _ _ (set_node c q m) E
               (name_set_node _ _ _ _ Hm Hname)).
    specialize (IH c q m0 m Hq Hm Hname).
    destruct (insert_node (set_node c q m) rest false) as [c2 r2]. simpl in *.
    now subst.
Qed.

(** A non-empty path ends at a node named by its last token. *)
Lemma lookup_name path : forall n p m,
  path <> [] ->
  snd (insert_node n path false) = Some p ->
  get_node n p = Some m -> name m = List.last path EmptyString.
Proof.
  induction path as [|token rest IH]; intros n p m Hne; [contradiction|]. simpl.
  destruct (find_child token (children n)) as [[i c]|] eqn:E; [|discriminate].
  apply find_child_Some in E as [E Hc].
  destruct (insert_node c rest false) as [c1 [q|]] eqn:E1; [|discriminate].
  simpl. intros [= <-]. simpl. rewrite E.
  destruct rest as [|t2 rest].
  - simpl in E1. injection E1 as <- <-. simpl. now intros [= <-].
  - intros Hm. apply (IH c q m); [discriminate | now rewrite E1 | exact Hm].
Qed.

End insert_facts.

(** ** [Builder::channel] *)

Section channel_facts.
Import Builder.

Lemma tokenize_path_nonempty path tokens :
  tokenize_path path = (0, tokens) -> tokens <> [].
Proof.
  unfold tokenize_path. destruct (getline_loop path "" []) as [|t ts]; [discriminate|].
  intros [= _ <-]. discriminate.
Qed.

Lemma flat_map_insert_perm {A B} (f : A -> list B) cs i c c' extra :
  cs !! i = Some c -> f c' ≡ₚ extra ++ f c ->
  flat_map f (<[i := c']> cs) ≡ₚ extra ++ flat_map f cs.
Proof.
  revert i. induction cs as [|d cs IH]; intros [|i]; simpl; try discriminate.
  - intros [= ->] ->. now rewrite app_assoc.
  - intros Hc Hp. rewrite (IH i Hc Hp).
    rewrite !app_assoc. apply Permutation_app_tail, Permutation_app_comm.
Qed.

Lemma flat_map_insert_eq {A B} (f : A -> list B) cs i c c' :
  cs !! i = Some c -> f c' = f c -> flat_map f (<[i := c']> cs) = flat_map f cs.
Proof.
  revert i. induction cs as [|d cs IH]; intros [|i]; simpl; try discriminate.
  - intros [= ->] ->. reflexivity.
  - intros Hc Hp. now rewrite (IH i Hc Hp).
Qed.

(** [insert_node] makes nodes without Links and moves none. *)
Lemma insert_node_links path : forall n create,
  node_links (fst (insert_node n path create)) = node_links n.
Proof.
  induction path as [|token rest IH]; intros n create; simpl; [reflexivity|].
  destruct (find_child token (children n)) as [[i c]|] eqn:E.
  - apply find_child_Some in E as [E _]. specialize (IH c create).
    destruct (insert_node c rest create) as [c' r]. simpl in *.
    rewrite (node_links_unfold n), node_links_unfold. cbn [link children with_children].
    now rewrite (flat_map_insert_eq node_links _ _ _ _ E IH).
  - destruct create; [|reflexivity].
    specialize (IH (mkNode token None None []) true).
    destruct (insert_node _ rest true) as [c' r]. simpl in *.
    rewrite (node_links_unfold n), node_links_unfold. cbn [link children with_children].
    rewrite flat_map_app. cbn [flat_map]. rewrite IH.
    rewrite node_links_unfold. cbn. now rewrite !app_nil_r.
Qed.

(** Storing a node through a pointer adds to the Links of the tree what
    it adds to the Links of the node. *)
Lemma set_node_links extra p : forall t m m',
  get_node t p = Some m ->
  node_links m' ≡ₚ extra ++ node_links m ->
  node_links (set_node t p m') ≡ₚ extra ++ node_links t.
Proof.
  induction p as [|i p IH]; intros t m m'; simpl.
  - now intros [= ->].
  - destruct (children t !! i) as [c|] eqn:E; [|discriminate].
    intros Hm Hp. rewrite (node_links_unfold t), node_links_unfold.
    cbn [link children with_children].
    rewrite (flat_map_insert_perm node_links _ _ _ _ extra E (IH _ _ _ Hm Hp)).
    rewrite !app_assoc. apply Permutation_app_tail, Permutation_app_comm.
Qed.


(** A declaration that returned 0: the handle holds the Link of the node
    at the path, which now is a channel of the value given; the state
    keeps to [wf]. *)
Lemma channel_ok_inv b path init_val c σ c' σ1 :
  wf σ ->
  channel b path init_val c σ = Ok (0, c', σ1) ->
  exists tokens l m,
    tokenize_path path = (0, tokens)
    /\ c' = Channel.mk (Some l) (Channel.size c)
    /\ subtree_at b tokens σ1 = Some m
    /\ link m = Some l
    /\ channel_info m = Some (mkChannelInfo init_val)
    /\ wf σ1.
Proof.
  intros [Hnd Halloc] H. unfold channel in H.
  destruct (tokenize_path path) as [ret tokens] eqn:Htok.
  destruct (ret =? 0) eqn:Eret; cbn [negb] in H.
  2:{ injection H as -> _ _. discriminate. }
  apply Z.eqb_eq in Eret as ->.
  destruct (get_node (tree σ) (root b)) as [rn|] eqn:Hrn; [|discriminate].
  heap_simpl in H.
  destruct (insert_node_create tokens rn) as (p & n0 & Hp & Hn0).
  pose proof (insert_node_then_lookup tokens rn true) as Hlook.
  pose proof (insert_node_links tokens rn true) as Hlinks.
  destruct (insert_node rn tokens true) as [rn' r]. simpl in Hp, Hn0, Hlook, Hlinks.
  subst r. heap_simpl in H. rewrite Hn0 in H. heap_simpl in H.
  destruct (channel_info n0) as [ci|] eqn:Hci; [discriminate|].
  pose proof (tokenize_path_nonempty _ _ Htok) as Hne.
  pose proof (lookup_name tokens rn' p n0 Hne Hlook Hn0) as Hname.
  set (l := match link n0 with Some l => l | None => length (links (heap σ)) end).
  set (m := with_link (with_channel_info (with_name n0 (List.last tokens EmptyString))
                         (Some (mkChannelInfo init_val))) (Some l)).
  assert (Hres : c' = Channel.mk (Some l) (Channel.size c)
                 /\ tree σ1 = set_node (tree σ) (root b) (set_node rn' p m)
                 /\ heap σ1 = match link n0 with
                              | Some _ => heap σ
                              | None => snd (new_link (heap σ))
                              end).
  { revert H. cbn [link with_channel_info with_name]. subst l m.
    destruct (link n0); cbn [new_link];
      rewrite (set_node_app _ _ _ _ rn' (get_set_node _ _ _ _ Hrn)), set_set_node;
      intros [= <- <-]; auto. }
  destruct Hres as (-> & Ht & Hh).
  assert (Hroot1 : get_node (tree σ1) (root b) = Some (set_node rn' p m)).
  { rewrite Ht. eapply get_set_node; exact Hrn. }
  exists tokens, l, m. split; [reflexivity|]. split; [reflexivity|].
  split; [|split; [reflexivity|split; [reflexivity|]]].
  - unfold subtree_at. rewrite Hroot1.
    rewrite (lookup_set_node tokens rn' p n0 m Hlook Hn0) by (symmetry; exact Hname).
    eapply get_set_node; exact Hn0.
  - (* the Links of the new tree: those of the old one, and [l] if new *)
    set (extra := match link n0 with Some _ => [] | None => [l] end).
    assert (Hperm : node_links (tree σ1) ≡ₚ extra ++ node_links (tree σ)).
    { rewrite Ht. eapply set_node_links; [exact Hrn|]. rewrite <- Hlinks.
      eapply set_node_links; [exact Hn0|].
      rewrite (node_links_unfold m), (node_links_unfold n0).
      subst m extra l. cbn [link children with_link with_channel_info with_name].
      destruct (link n0); reflexivity. }
    split.
    + rewrite Hperm. subst extra. destruct (link n0) as [l0|] eqn:El0; [exact Hnd|].
      cbn [app]. apply NoDup_cons. split; [|exact Hnd].
      intros Hin. apply Halloc in Hin. subst l. lia.
    + intros l0. rewrite Hperm, Hh. subst extra.
      destruct (link n0) as [l1|] eqn:El0.
      * apply Halloc.
      * cbn [app new_link snd links with_links]. rewrite length_app. cbn [length].
        intros [->|Hin]%elem_of_cons; [subst l; lia|]. apply Halloc in Hin. lia.
Qed.

End channel_facts.

(** ** Channels after a build *)

Section channel_claims.
Import Builder.

Lemma subtree_at_in_tree b tokens σ m :
  subtree_at b tokens σ = Some m -> In m (nodes (tree σ)).
Proof.
  unfold subtree_at.
  destruct (get_node (tree σ) (root b)) as [rn|] eqn:Hrn; [|discriminate].
  destruct (snd (insert_node rn tokens false)) as [p|]; [|discriminate].
  intros Hm. eapply nodes_trans; eapply get_node_in_nodes; eassumption.
Qed.

Lemma wf_new_builder : wf (snd new_builder).
Proof.
  split; cbn.
  - constructor.
  - intros l Hl. now apply not_elem_of_nil in Hl.
Qed.

(** A channel of the tree that holds a Link, after a successful build from
    a state that keeps to [wf]: its Link points into the new river, whose
    storage has the initial value at the channel offset. *)
Lemma built_channel b σ code rr σ' m l ci :
  is_root b = true -> root b = [] -> wf σ ->
  build b σ = Ok (code, rr, σ') ->
  In m (nodes (tree σ)) -> link m = Some l -> channel_info m = Some ci ->
  exists L pre suf,
    links (heap σ') !! l = Some L
    /\ Link.river L = Some (length (rivers (heap σ)))
    /\ Link.channel_offset L = Some (length pre)
    /\ rivers (heap σ') !! length (rivers (heap σ)) = Some (pre ++ init_val ci ++ suf).
Proof.
  intros Hroot Hpos [Hnd _] Hb Hm El Hci.
  destruct (build_post _ _ _ _ _ Hroot Hpos Hnd Hb) as (_ & _ & _ & Hriv & _ & Hp).
  apply tree_post_laid_out in Hp.
  destruct (laid_out_read _ _ _ [] l ci Hp) as (L & pre & suf & HL & Hr & Hoff & Hlay).
  { apply list_elem_of_In, list_elem_of_omap. exists m.
    split; [now apply list_elem_of_In|]. unfold chan_of. now rewrite El, Hci. }
  exists L, pre, suf. repeat split; auto.
  rewrite Hriv, lookup_app_r by lia. rewrite Nat.sub_diag. cbn.
  f_equal. exact Hlay.
Qed.



End channel_claims.

(** ** A second build *)

Section rebuild_facts.
Import Builder.

Lemma linked_with_new_river link h :
  Linkable.linked link (with_new_river h) = Linkable.linked link h.
Proof. reflexivity. Qed.

Lemma acquire_with_new_river h L :
  acquire_if_locked (with_new_river h) L = with_new_river (acquire_if_locked h L).
Proof. unfold acquire_if_locked. now destruct (Link.lock L). Qed.

Lemma release_with_new_river h L :
  release_if_locked (with_new_river h) L = with_new_river (release_if_locked h L).
Proof. unfold release_if_locked. now destruct (Link.lock L). Qed.

Lemma get_storage_with_new_river h r :
  (r < length (rivers h))%nat ->
  get_storage (with_new_river h) r = get_storage h r.
Proof.
  intros Hr. unfold get_storage, with_new_river. cbn. now rewrite lookup_app_l.
Qed.

Lemma set_storage_with_new_river h r st :
  (r < length (rivers h))%nat ->
  set_storage (with_new_river h) r st = on_heap' with_new_river (set_storage h r st).
Proof.
  intros Hr. unfold set_storage. rewrite get_storage_with_new_river by exact Hr.
  unfold get_storage. destruct (rivers h !! r); [|reflexivity]. cbn.
  unfold with_new_river, with_rivers. cbn. now rewrite insert_app_l.
Qed.

(** The handle operations do not see a river added to the heap. *)
Lemma get_with_new_river c h :
  river_bound (Channel.link c) h ->
  Channel.get c (with_new_river h) = on_heap with_new_river (Channel.get c h).
Proof.
  intros Hb. unfold Channel.get, Channel.serialize. rewrite linked_with_new_river.
  destruct (Linkable.linked (Channel.link c) h); [|reflexivity]. cbn [negb].
  destruct (Channel.link c) as [l|] eqn:El; [|reflexivity].
  unfold get_link. cbn [deref obind]. change (links (with_new_river h)) with (links h).
  destruct (links h !! l) as [L|] eqn:HL; [|reflexivity]. cbn [deref obind].
  destruct (Link.river L) as [r|] eqn:Hr; [|reflexivity]. cbn [deref obind].
  rewrite acquire_with_new_river, get_storage_with_new_river
    by (rewrite acquire_rivers; eapply Hb; eauto).
  destruct (get_storage _ r) as [st|]; [|reflexivity]. cbn [obind].
  destruct (deref (Link.channel_offset L)) as [off|]; [|reflexivity]. cbn [obind].
  destruct (read_bytes st off _) as [src|]; [|reflexivity]. cbn [obind].
  destruct (write_bytes _ 0 src) as [d|]; [|reflexivity]. cbn [obind on_heap].
  now rewrite release_with_new_river.
Qed.

Lemma set_with_new_river c x h :
  river_bound (Channel.link c) h ->
  Channel.set c x (with_new_river h) = on_heap' with_new_river (Channel.set c x h).
Proof.
  intros Hb. unfold Channel.set, Channel.deserialize. rewrite linked_with_new_river.
  destruct (Linkable.linked (Channel.link c) h); [|reflexivity]. cbn [negb].
  destruct (Channel.link c) as [l|] eqn:El; [|reflexivity].
  unfold get_link. cbn [deref obind]. change (links (with_new_river h)) with (links h).
  destruct (links h !! l) as [L|] eqn:HL; [|reflexivity]. cbn [deref obind].
  destruct (Link.river L) as [r|] eqn:Hr; [|reflexivity]. cbn [deref obind].
  assert (Hlt : (r < length (rivers (acquire_if_locked h L)))%nat)
    by (rewrite acquire_rivers; eapply Hb; eauto).
  rewrite acquire_with_new_river, get_storage_with_new_river by exact Hlt.
  destruct (get_storage _ r) as [st|]; [|reflexivity]. cbn [obind].
  destruct (deref (Link.channel_offset L)) as [off|]; [|reflexivity]. cbn [obind].
  destruct (read_bytes x 0 _) as [val|]; [|reflexivity]. cbn [obind].
  destruct (write_bytes st off val) as [st'|]; [|reflexivity]. cbn [obind].
  rewrite set_storage_with_new_river by exact Hlt.
  destruct (set_storage _ r st') as [h2|]; [|reflexivity]. cbn [obind on_heap'].
  now rewrite release_with_new_river.
Qed.

Lemma read_with_new_river rv dest h :
  river_bound (Rivulet.link rv) h ->
  Rivulet.read rv dest (with_new_river h)
  = on_heap with_new_river (Rivulet.read rv dest h).
Proof.
  intros Hb. unfold Rivulet.read. destruct dest as [buf|]; [|reflexivity].
  rewrite linked_with_new_river.
  destruct (Linkable.linked (Rivulet.link rv) h); [|reflexivity]. cbn [negb].
  destruct (Rivulet.link rv) as [l|] eqn:El; [|reflexivity].
  unfold get_link. cbn [deref obind]. change (links (with_new_river h)) with (links h).
  destruct (links h !! l) as [L|] eqn:HL; [|reflexivity]. cbn [deref obind].
  destruct (Link.river L) as [r|] eqn:Hr; [|reflexivity]. cbn [deref obind].
  rewrite acquire_with_new_river, get_storage_with_new_river
    by (rewrite acquire_rivers; eapply Hb; eauto).
  destruct (get_storage _ r) as [st|]; [|reflexivity]. cbn [obind].
  destruct (deref (Link.rivulet_offset L)) as [off|]; [|reflexivity]. cbn [obind].
  destruct (deref (Link.rivulet_size L)) as [n|]; [|reflexivity]. cbn [obind].
  destruct (read_bytes st off n) as [src|]; [|reflexivity]. cbn [obind].
  destruct (write_bytes buf 0 src) as [d|]; [|reflexivity]. cbn [obind on_heap].
  now rewrite release_with_new_river.
Qed.

Lemma write_with_new_river rv src h :
  river_bound (Rivulet.link rv) h ->
  Rivulet.write rv src (with_new_river h)
  = on_heap' with_new_river (Rivulet.write rv src h).
Proof.
  intros Hb. unfold Rivulet.write. destruct src as [buf|]; [|reflexivity].
  rewrite linked_with_new_river.
  destruct (Linkable.linked (Rivulet.link rv) h); [|reflexivity]. cbn [negb].
  destruct (Rivulet.link rv) as [l|] eqn:El; [|reflexivity].
  unfold get_link. cbn [deref obind]. change (links (with_new_river h)) with (links h).
  destruct (links h !! l) as [L|] eqn:HL; [|reflexivity]. cbn [deref obind].
  destruct (Link.river L) as [r|] eqn:Hr; [|reflexivity]. cbn [deref obind].
  assert (Hlt : (r < length (rivers (acquire_if_locked h L)))%nat)
    by (rewrite acquire_rivers; eapply Hb; eauto).
  rewrite acquire_with_new_river, get_storage_with_new_river by exact Hlt.
  destruct (get_storage _ r) as [st|]; [|reflexivity]. cbn [obind].
  destruct (deref (Link.rivulet_offset L)) as [off|]; [|reflexivity]. cbn [obind].
  destruct (deref (Link.rivulet_size L)) as [n|]; [|reflexivity]. cbn [obind].
  destruct (read_bytes buf 0 n) as [val|]; [|reflexivity]. cbn [obind].
  destruct (write_bytes st off val) as [st'|]; [|reflexivity]. cbn [obind].
  rewrite set_storage_with_new_river by exact Hlt.
  destruct (set_storage _ r st') as [h2|]; [|reflexivity]. cbn [obind on_heap'].
  now rewrite release_with_new_river.
Qed.

Lemma size_with_new_river rv h :
  Rivulet.size rv (with_new_river h) = Rivulet.size rv h.
Proof. reflexivity. Qed.

(** Every Link of a built subtree points to the river of the build. *)
Lemma tree_post_river lks river n : forall base m l,
  tree_post lks river base n -> In m (nodes n) -> link m = Some l ->
  exists L, lks !! l = Some L /\ Link.river L = Some river.
Proof.
  induction n as [nm ci lk cs IH] using Node_ind. intros base m l.
  rewrite tree_post_unfold, nodes_unfold. cbn [children]. intros [Hown Hcs] [<-|Hm] El.
  - unfold own_post in Hown. rewrite El in Hown.
    destruct Hown as (L & HL & Hr & _). eauto.
  - apply in_flat_map in Hm as (c & Hc & Hm).
    clear Hown. revert Hc Hcs. generalize (base + own_size (mkNode nm ci lk cs))%nat.
    induction IH as [|d cs Hd _ IHcs]; intros b0 Hc; [destruct Hc|].
    intros [Hd0 Hrest]. destruct Hc as [->|Hc].
    + eapply Hd; eassumption.
    + eapply IHcs; eassumption.
Qed.

End rebuild_facts.

(** ** Building twice *)

Section rebuild_claims.
Import Builder.
Local Open Scope string_scope.

Lemma strip_links_unlinked n : node_links n = [] -> strip_links n = n.
Proof.
  induction n as [nm ci l cs IH] using Node_ind.
  rewrite node_links_unfold. cbn [link children strip_links name channel_info].
  intros Hnil. apply app_eq_nil in Hnil as [Hl Hcs].
  destruct l as [l|]; [discriminate|]. f_equal.
  induction IH as [|c cs Hc _ IHcs]; [reflexivity|].
  cbn [flat_map] in Hcs. apply app_eq_nil in Hcs as [Hc0 Hcs].
  cbn [map]. now rewrite (Hc Hc0), (IHcs Hcs).
Qed.

(** A build right after a build.  After a build of the root builder from
    a state that keeps to [wf], every Link the tree pointed to is bound to
    the river of that build.  A second build of the tree as the first one
    left it, whatever the handles did to the storage in between, returns
    0, adds one more river and changes nothing else in the heap.  Every
    operation of a handle whose Link points to a river that exists gives
    with the new river what it gives without it. *)
Theorem rebuild_of_built_tree b σ code rr σ1 :
  is_root b = true -> root b = [] -> wf σ ->
  build b σ = Ok (code, rr, σ1) ->
  let r1 := length (rivers (heap σ)) in
  rr = Some r1
  /\ length (rivers (heap σ1)) = S r1
  /\ (forall m l, In m (nodes (tree σ)) -> link m = Some l ->
        exists L, links (heap σ1) !! l = Some L /\ Link.river L = Some r1)
  /\ (forall h,
        build b (mkState (tree σ1) h)
        = Ok (0, Some (length (rivers h)), mkState (tree σ1) (with_new_river h)))
  /\ (forall h,
        links (with_new_river h) = links h
        /\ (forall r, (r < length (rivers h))%nat ->
                      rivers (with_new_river h) !! r = rivers h !! r)
        /\ rivers (with_new_river h) !! length (rivers h) = Some [])
  /\ (forall h link,
        river_bound link h ->
        (forall sz, Channel.get (Channel.mk link sz) (with_new_river h)
                    = on_heap with_new_river (Channel.get (Channel.mk link sz) h))
        /\ (forall sz x, Channel.set (Channel.mk link sz) x (with_new_river h)
                    = on_heap' with_new_river (Channel.set (Channel.mk link sz) x h))
        /\ (forall dest, Rivulet.read (Rivulet.mk link) dest (with_new_river h)
                    = on_heap with_new_river (Rivulet.read (Rivulet.mk link) dest h))
        /\ (forall src, Rivulet.write (Rivulet.mk link) src (with_new_river h)
                    = on_heap' with_new_river (Rivulet.write (Rivulet.mk link) src h))
        /\ Rivulet.size (Rivulet.mk link) (with_new_river h)
           = Rivulet.size (Rivulet.mk link) h).
Proof.
  intros Hroot Hpos [Hnd Halloc] Hb r1.
  destruct (build_post _ _ _ _ _ Hroot Hpos Hnd Hb) as (_ & -> & Ht & Hriv & _ & Hp).
  split; [reflexivity|]. split.
  { rewrite Hriv, length_app. cbn. subst r1. lia. }
  split.
  { intros m l Hm El. eapply tree_post_river; eassumption. }
  split.
  { intros h.
    assert (Hnil : node_links (tree σ1) = []) by (rewrite Ht; apply node_links_strip).
    rewrite (build_ok b (mkState (tree σ1) h) (with_new_river h) Hroot Hpos).
    - cbn [tree heap]. now rewrite (strip_links_unlinked _ Hnil).
    - cbn [tree heap]. now apply build_node_unlinked. }
  split.
  { intros h. split; [reflexivity|]. split; [|apply new_river_lookup].
    intros r Hr. unfold with_new_river. cbn. now apply lookup_app_l. }
  intros h lnk Hbound. split; [|split; [|split; [|split]]].
  - intros sz. now apply get_with_new_river.
  - intros sz x. now apply set_with_new_river.
  - intros dest. now apply read_with_new_river.
  - intros src. now apply write_with_new_river.
  - reflexivity.
Qed.

Lemma rebuild_of_built_tree_witness :
  exists σ1,
    build (fst new_builder) demo_foo = Ok (0, Some 0%nat, σ1)
    /\ build (fst new_builder) σ1
       = Ok (0, Some 1%nat, mkState (tree σ1) (with_new_river (heap σ1))).
Proof.
  eexists. split; [reflexivity|].
  assert (Hwf : wf demo_foo).
  { split.
    - change (NoDup [0%nat]). repeat constructor. intros H. inversion H.
    - intros l. change (l ∈ [0%nat] -> (l < 1)%nat).
      intros ->%list_elem_of_singleton. lia. }
  pose proof (rebuild_of_built_tree (fst new_builder) demo_foo 0 (Some 0%nat) _
                eq_refl eq_refl Hwf eq_refl) as (_ & _ & _ & H & _).
  exact (H _).
Defined.

(** C2 (as the code has it).  The tree holds the channel [foo] of two
    bytes.  The first build lays it out: the storage is its two bytes.
    The build then resets the [link] of every node, that of [foo] too, and
    [build_node] skips a node without Link: the second build returns 0
    with an empty storage, while the channel is still declared. *)
Theorem second_build_allocates_nothing :
  exists σ1 σ2,
    build (fst new_builder) demo_foo = Ok (0, Some 0%nat, σ1)
    /\ rivers (heap σ1) !! 0%nat = Some [Byte.x2a; Byte.x01]
    /\ build (fst new_builder) σ1 = Ok (0, Some 1%nat, σ2)
    /\ rivers (heap σ2) !! 1%nat = Some []
    /\ total_size (nodes (tree σ1)) = 2%nat.
Proof.
  eexists. eexists. split; [vm_compute; reflexivity|].
  split; [vm_compute; reflexivity|]. split; [vm_compute; reflexivity|].
  split; vm_compute; reflexivity.
Qed.

(** C1 (as the code has it).  [build_node] takes the rivulet offset from
    [children[0]->link->channel_offset].  With the channel [g.a.x] and a
    rivulet handle at [g], the first child [a] of [g] has no Link and the
    build dereferences a null pointer.  With a rivulet handle at [g.a] as
    well, [a] has a Link whose channel offset was never assigned: the
    build returns, and the Link of [g] has the size 1 of [x] and no
    defined offset, while [x] lies at offset 0.  With [g.a] made by [sub]
    and no channel below [g], the build faults as in the first case. *)
Theorem rivulet_offset_taken_from_first_child :
  (exists σ,
     declare_all [DChannel "g.a.x" [Byte.x01]; DRivulet "g"] (snd new_builder) = Ok σ
     /\ build (fst new_builder) σ = Fault)
  /\ (exists σ σ' Lx Lg,
        declare_all [DChannel "g.a.x" [Byte.x01]; DRivulet "g.a"; DRivulet "g"]
          (snd new_builder) = Ok σ
        /\ build (fst new_builder) σ = Ok (0, Some 0%nat, σ')
        /\ links (heap σ') !! 0%nat = Some Lx
        /\ Link.channel_offset Lx = Some 0%nat
        /\ links (heap σ') !! 2%nat = Some Lg
        /\ Link.rivulet_size Lg = Some 1%nat
        /\ Link.rivulet_offset Lg = None
        /\ Rivulet.read (Rivulet.mk (Some 2%nat)) (Some [Byte.x00]) (heap σ') = Fault)
  /\ (exists σ,
        declare_all [DSub "g.a"; DRivulet "g"] (snd new_builder) = Ok σ
        /\ build (fst new_builder) σ = Fault).
Proof.
  split; [|split].
  - eexists. split; vm_compute; reflexivity.
  - do 4 eexists. repeat (split; [vm_compute; reflexivity|]). vm_compute; reflexivity.
  - eexists. split; vm_compute; reflexivity.
Qed.

End rebuild_claims.

(** ** Rivulets after a build *)

Section rivulet_facts.
Import Builder.

Lemma slices_concat sizes : forall bs,
  length bs = sum_list sizes -> concat (slices sizes bs) = bs.
Proof.
  induction sizes as [|n rest IH]; intros bs Hlen; simpl in *.
  - now destruct bs.
  - rewrite IH; [apply take_drop|]. rewrite length_drop. lia.
Qed.

Lemma sizes_of_sum chs : sum_list (sizes_of chs) = length (init_bytes chs).
Proof.
  induction chs as [|c chs IH]; [reflexivity|].
  cbn [sizes_of map init_bytes flat_map]. rewrite length_app.
  cbn [sum_list_with]. unfold sizes_of, init_bytes in IH. rewrite IH. reflexivity.
Qed.

(** When every channel of a list of nodes holds a Link, all of them are
    laid out. *)
Lemma init_bytes_total ns :
  Forall (fun m => is_Some (channel_info m) -> is_Some (link m)) ns ->
  length (init_bytes (chans_of ns)) = total_size ns.
Proof.
  induction 1 as [|m ns Hm _ IH]; [reflexivity|].
  unfold total_size, chans_of in *. cbn [sum_list_with omap list_omap].
  unfold chan_of at 1, info_size at 1.
  destruct (channel_info m) as [ci|].
  - destruct Hm as [l ->]; [eauto|]. cbn [init_bytes flat_map snd].
    rewrite length_app. unfold init_bytes in IH. now rewrite IH.
  - destruct (link m); exact IH.
Qed.

Lemma list_post_lookup (P : nat -> Node -> Prop) cs : forall base i c,
  list_post P base cs -> cs !! i = Some c ->
  P (base + length (flat_map layout (take i cs)))%nat c.
Proof.
  induction cs as [|d cs IH]; intros base [|i] c; simpl; try discriminate.
  - intros [H _] [= ->]. now rewrite Nat.add_0_r.
  - intros [_ H] Hc. rewrite length_app, Nat.add_assoc. now apply IH.
Qed.

Lemma flat_map_lookup_split {A B} (f : A -> list B) cs i c :
  cs !! i = Some c ->
  flat_map f cs = flat_map f (take i cs) ++ f c ++ flat_map f (drop (S i) cs).
Proof.
  intros Hc. rewrite <- (take_drop_middle cs i c Hc) at 1.
  now rewrite flat_map_app.
Qed.

(** The guarantee of a build for a tree holds for each of its subtrees,
    whose bytes lie somewhere inside those of the tree. *)
Lemma tree_post_sub lks river p : forall t (pre0 : bytes) g,
  tree_post lks river (length pre0) t -> get_node t p = Some g ->
  exists pre suf,
    tree_post lks river (length pre) g
    /\ pre0 ++ layout t = pre ++ layout g ++ suf.
Proof.
  induction p as [|i p IH]; intros t pre0 g Hp; simpl.
  - intros [= ->]. exists pre0, []. now rewrite app_nil_r.
  - destruct (children t !! i) as [c|] eqn:E; [|discriminate]. intros Hg.
    rewrite tree_post_unfold in Hp. destruct Hp as [_ Hcs].
    pose proof (list_post_lookup _ _ _ _ _ Hcs E) as Hc.
    rewrite <- own_bytes_length, <- !length_app in Hc.
    destruct (IH c _ g Hc Hg) as (pre & suf & Hpg & Heq).
    exists pre, (suf ++ flat_map layout (drop (S i) (children t))).
    split; [exact Hpg|].
    rewrite layout_unfold, (flat_map_lookup_split layout _ _ _ E).
    rewrite !app_assoc. f_equal. rewrite <- !app_assoc in *. exact Heq.
Qed.

(** Reading the channels that are laid out from the end of [pre] on:
    each gets its piece of the bytes [X] that follow. *)
Lemma laid_out_get h river chs : forall (pre X suf : bytes),
  laid_out (links h) river (length pre) chs ->
  length X = length (init_bytes chs) ->
  rivers h !! river = Some (pre ++ X ++ suf) ->
  Forall2 (fun ch v => exists L, links h !! fst ch = Some L
                                 /\ Channel.get (handle_of ch) h = Ok (v, bracketed h L))
    chs (slices (sizes_of chs) X).
Proof.
  induction chs as [|c chs IH]; intros pre X suf Hlaid Hlen Hst; [constructor|].
  cbn [laid_out init_bytes flat_map sizes_of map slices] in *.
  rewrite length_app in Hlen. fold (init_bytes chs) in Hlen.
  destruct Hlaid as [(L & HL & Hr & Hoff) Hrest].
  assert (Htake : length (take (size (snd c)) X) = size (snd c)).
  { rewrite length_take. unfold size. lia. }
  assert (Hsplit : pre ++ X ++ suf
                   = pre ++ take (size (snd c)) X ++ (drop (size (snd c)) X ++ suf)).
  { now rewrite (app_assoc (take _ X)), take_drop. }
  constructor.
  - exists L. split; [exact HL|].
    eapply get_linked; [reflexivity | exact HL | exact Hr | exact Hst | exact Hoff |].
    cbn [handle_of Channel.size snd]. rewrite Hsplit.
    pose proof (read_bytes_middle pre (take (size (snd c)) X)
                  (drop (size (snd c)) X ++ suf)) as Hrm.
    rewrite Htake in Hrm. exact Hrm.
  - apply (IH (pre ++ take (size (snd c)) X) (drop (size (snd c)) X) suf).
    + rewrite length_app, Htake. exact Hrest.
    + rewrite length_drop. unfold size in *. lia.
    + rewrite <- app_assoc. rewrite <- Hsplit. exact Hst.
Qed.

Lemma rivulet_size_linked l L r h n :
  links h !! l = Some L -> Link.river L = Some r -> Link.rivulet_size L = Some n ->
  Rivulet.size (Rivulet.mk (Some l)) h = Ok n.
Proof.
  intros HL Hr Hn. unfold Rivulet.size. cbn [Rivulet.link].
  rewrite (linked_true _ _ _ _ HL Hr). unfold get_link. heap_simpl.
  rewrite HL. heap_simpl. now rewrite Hn.
Qed.

(** [read] on a linked rivulet copies the region of the rivulet. *)
Lemma rivulet_read_linked l L r pre X suf buf h :
  links h !! l = Some L -> Link.river L = Some r ->
  rivers h !! r = Some (pre ++ X ++ suf) ->
  Link.rivulet_offset L = Some (length pre) ->
  Link.rivulet_size L = Some (length X) ->
  length buf = length X ->
  Rivulet.read (Rivulet.mk (Some l)) (Some buf) h = Ok (Some X, bracketed h L).
Proof.
  intros HL Hr Hst Hoff Hn Hbuf. unfold Rivulet.read. cbn [Rivulet.link].
  rewrite (linked_true _ _ _ _ HL Hr). unfold get_link, get_storage. heap_simpl.
  rewrite HL. heap_simpl. rewrite Hr. heap_simpl. rewrite acquire_rivers, Hst.
  heap_simpl. rewrite Hoff. heap_simpl. rewrite Hn. heap_simpl.
  rewrite read_bytes_middle. heap_simpl. rewrite write_bytes_whole by exact Hbuf.
  reflexivity.
Qed.

(** [write] on a linked rivulet overwrites the region of the rivulet. *)
Lemma rivulet_write_linked l L r pre X suf src h :
  links h !! l = Some L -> Link.river L = Some r ->
  rivers h !! r = Some (pre ++ X ++ suf) ->
  Link.rivulet_offset L = Some (length pre) ->
  Link.rivulet_size L = Some (length X) ->
  length src = length X ->
  Rivulet.write (Rivulet.mk (Some l)) (Some src) h
  = Ok (bracketed (with_rivers h (<[r := pre ++ src ++ suf]> (rivers h))) L).
Proof.
  intros HL Hr Hst Hoff Hn Hsrc. unfold Rivulet.write. cbn [Rivulet.link].
  rewrite (linked_true _ _ _ _ HL Hr).
  unfold get_link, get_storage, set_storage, get_storage. heap_simpl.
  rewrite HL. heap_simpl. rewrite Hr. heap_simpl. rewrite acquire_rivers, Hst.
  heap_simpl. rewrite Hoff. heap_simpl. rewrite Hn. heap_simpl.
  assert (Hrx : read_bytes src 0 (length X) = Ok src).
  { unfold read_bytes. simpl. rewrite (proj2 (Nat.leb_le _ _)) by lia.
    rewrite <- Hsrc. now rewrite firstn_all. }
  rewrite Hrx. heap_simpl. rewrite write_bytes_middle by lia. heap_simpl.
  unfold bracketed, acquire_if_locked, release_if_locked.
  destruct (Link.lock L); reflexivity.
Qed.

End rivulet_facts.

(** ** The rivulet of a subtree *)

Section rivulet_claims.
Import Builder.
Local Open Scope string_scope.

(** The channel at the root of a rivulet.  The subtree at [p] holds the channels [p]
    (eight bytes) and [p.v] (one byte), and the first child of [p] is a
    channel, so the build lays everything out.  The rivulet handle at [p]
    then has size 1, not 8 + 1, and reads the byte of [p.v] alone: the
    channel at the root of the rivulet is not part of it. *)
Lemma rivulet_leaves_out_its_root :
  exists g σ',
    declare_all [DChannel "p" (repeat Byte.x07 8); DChannel "p.v" [Byte.x01];
                 DRivulet "p"] (snd new_builder) = Ok demo_pv
    /\ subtree_at (fst new_builder) ["p"] demo_pv = Some g
    /\ map info_size (nodes g) = [8; 1]%nat
    /\ build (fst new_builder) demo_pv = Ok (0, Some 0%nat, σ')
    /\ Rivulet.size (Rivulet.mk (link g)) (heap σ') = Ok 1%nat
    /\ Rivulet.size (Rivulet.mk (link g)) (heap σ') <> Ok (8 + 1)%nat
    /\ fst <$> (match Rivulet.read (Rivulet.mk (link g)) (Some [Byte.x00]) (heap σ') with
                | Ok r => Some r
                | Fault => None
                end) = Some (Some [Byte.x01]).
Proof.
  do 2 eexists. split; [vm_compute; reflexivity|].
  split; [vm_compute; reflexivity|]. split; [vm_compute; reflexivity|].
  split; [vm_compute; reflexivity|]. split; [vm_compute; reflexivity|].
  split; [vm_compute; discriminate | vm_compute; reflexivity].
Qed.

(** Where the rivulet spans the channels below it.  Take a node [g] of a
    tree that keeps to [wf], holding a
    Link, whose first child is a channel with a Link and below which every
    channel holds a Link; let the channels below [g] (its own excluded) be
    [chs], in depth-first order with the children in insertion order.
    After a successful build of the root builder, on every heap with the
    Links of the build and a storage of the built size:
    - [size] of the rivulet of [g] is the sum of the sizes of [chs];
    - [read] returns bytes [X] of that length, and reading each channel of
      [chs] gives the pieces of [X] cut at the sizes of [chs], in order;
    - after [write] of a buffer [src] of that length, reading each channel
      of [chs] gives the pieces of [src]. *)
Theorem rivulet_spans_descendants b σ code rr σ' p g lg c0 rest :
  is_root b = true -> root b = [] -> wf σ ->
  build b σ = Ok (code, rr, σ') ->
  get_node (tree σ) p = Some g -> link g = Some lg ->
  children g = c0 :: rest -> is_Some (chan_of c0) ->
  Forall (fun m => is_Some (channel_info m) -> is_Some (link m)) (descendants g) ->
  let rv := Rivulet.mk (Some lg) in
  let chs := chans_of (descendants g) in
  let total := sum_list (sizes_of chs) in
  forall h st,
    links h = links (heap σ') ->
    rivers h !! length (rivers (heap σ)) = Some st ->
    length st = length (layout (tree σ)) ->
    Rivulet.size rv h = Ok total
    /\ (exists X,
          length X = total
          /\ concat (slices (sizes_of chs) X) = X
          /\ (forall buf, length buf = total ->
                exists h', Rivulet.read rv (Some buf) h = Ok (Some X, h'))
          /\ Forall2 (fun ch v => exists h', Channel.get (handle_of ch) h = Ok (v, h'))
               chs (slices (sizes_of chs) X))
    /\ (forall src, length src = total ->
          exists h3,
            Rivulet.write rv (Some src) h = Ok h3
            /\ concat (slices (sizes_of chs) src) = src
            /\ Forall2 (fun ch v => exists h', Channel.get (handle_of ch) h3 = Ok (v, h'))
                 chs (slices (sizes_of chs) src)).
Proof.
  intros Hroot Hpos [Hnd _] Hb Hg El Hcs Hc0 Hall rv chs total h st Hlinks Hst Hlen.
  destruct (build_post _ _ _ _ _ Hroot Hpos Hnd Hb) as (_ & _ & _ & _ & _ & Hp).
  destruct (tree_post_sub _ _ p (tree σ) [] g Hp Hg) as (pre & suf & Hpg & Hlay).
  rewrite tree_post_unfold in Hpg. destruct Hpg as [Hown Hlist].
  unfold own_post in Hown. rewrite El, Hcs in Hown.
  destruct Hown as (L & HL & Hr & _ & Hsz & Hoff). specialize (Hoff Hc0).
  pose proof (list_post_laid_out _ _ _
                (proj2 (Forall_forall _ _)
                   (fun c _ base => tree_post_laid_out _ _ c base))
                _ Hlist) as Hlaid.
  fold (descendants g) in Hlaid. fold chs in Hlaid.
  assert (Htotal : total = length (init_bytes chs)) by apply sizes_of_sum.
  assert (Hsize : total_size (descendants g) = total).
  { rewrite Htotal. symmetry. now apply init_bytes_total. }
  rewrite Hsize in Hsz. rewrite <- Hlinks in HL, Hlaid.
  (* the storage, cut around the region of the rivulet *)
  cbn [app] in Hlay. rewrite (layout_unfold g), <- (layout_flat (children g)) in Hlay.
  fold (descendants g) in Hlay. fold chs in Hlay.
  destruct (bytes_split st (length pre + own_size g) total) as (P & X & S & -> & HP & HX).
  { rewrite Hlen, Hlay, !length_app, own_bytes_length, <- Htotal. lia. }
  rewrite <- HP in Hoff, Hlaid. rewrite <- HX in Hsz.
  split; [|split].
  - rewrite <- HX. eapply rivulet_size_linked; eassumption.
  - exists X. split; [exact HX|]. split; [now apply slices_concat|]. split.
    + intros buf Hbuf. eexists.
      eapply rivulet_read_linked; try eassumption. congruence.
    + eapply Forall2_impl; [eapply laid_out_get; [exact Hlaid | | exact Hst]|].
      * congruence.
      * intros ch v (L' & _ & Hget). eauto.
  - intros src Hsrc.
    set (h3 := bracketed (with_rivers h (<[length (rivers (heap σ)) := (P ++ src ++ S)%list]>
                                           (rivers h))) L).
    exists h3. split; [|split].
    + eapply rivulet_write_linked; try eassumption. congruence.
    + now apply slices_concat.
    + assert (Hget : Forall2
                (fun ch v => exists L', links h3 !! fst ch = Some L'
                    /\ Channel.get (handle_of ch) h3 = Ok (v, bracketed h3 L'))
                chs (slices (sizes_of chs) src)).
      { apply (laid_out_get h3 (length (rivers (heap σ))) chs P src S).
        - unfold h3. rewrite bracketed_links. exact Hlaid.
        - congruence.
        - unfold h3. rewrite bracketed_rivers. cbn [rivers with_rivers].
          apply list_lookup_insert_eq. eapply lookup_lt_Some; exact Hst. }
      eapply Forall2_impl; [exact Hget|].
      intros ch v (L' & _ & Hg'). eauto.
Qed.

Lemma wf_demo_readme : wf demo_readme.
Proof.
  split.
  - change (NoDup [0; 1; 5; 2; 3; 4]%nat).
    repeat constructor; rewrite ?elem_of_cons, ?elem_of_nil; intuition discriminate.
  - intros l. change (l ∈ [0; 1; 5; 2; 3; 4]%nat -> (l < 6)%nat).
    rewrite !elem_of_cons, elem_of_nil. intuition lia.
Qed.

Lemma rivulet_spans_descendants_witness :
  declare_all [DChannel "system.time" (repeat Byte.x00 8);
               DChannel "system.abort" [Byte.x00];
               DChannel "control.pressure" (repeat Byte.x11 8);
               DChannel "control.pressure.valid" [Byte.x01];
               DChannel "control.valve_open" [Byte.x00];
               DRivulet "control"] (snd new_builder) = Ok demo_readme
  /\ build (fst new_builder) demo_readme = Ok (0, Some 0%nat, demo_readme_built)
  /\ Rivulet.size (Rivulet.mk (Some 5%nat)) (heap demo_readme_built) = Ok 10%nat.
Proof.
  assert (Hb : build (fst new_builder) demo_readme
               = Ok (0, Some 0%nat, demo_readme_built)) by (vm_compute; reflexivity).
  split; [vm_compute; reflexivity|]. split; [exact Hb|].
  destruct (get_node (tree demo_readme) [1%nat]) as [g|] eqn:Hg; [|discriminate].
  vm_compute in Hg. injection Hg as <-.
  refine (proj1 (rivulet_spans_descendants (fst new_builder) demo_readme 0 (Some 0%nat)
                   demo_readme_built [1%nat] _ 5%nat _ _
                   eq_refl eq_refl wf_demo_readme Hb eq_refl eq_refl eq_refl _ _
                   (heap demo_readme_built) _ eq_refl eq_refl eq_refl)).
  - eexists. reflexivity.
  - repeat constructor; intros _; eexists; reflexivity.
Defined.

End rivulet_claims.

(** ** The builder keeps to [wf] *)

Section wf_facts.
Import Builder.

Lemma wf_same_links σ σ' :
  node_links (tree σ') ≡ₚ node_links (tree σ) ->
  (length (links (heap σ)) <= length (links (heap σ')))%nat ->
  wf σ -> wf σ'.
Proof.
  intros Hperm Hlen [Hnd Halloc]. split.
  - now rewrite Hperm.
  - intros l. rewrite Hperm. intros Hl. apply Halloc in Hl. lia.
Qed.

Lemma set_root_links t p rn rn' :
  get_node t p = Some rn -> node_links rn' = node_links rn ->
  node_links (set_node t p rn') ≡ₚ node_links t.
Proof.
  intros Hrn Heq. apply (set_node_links [] p t rn rn' Hrn). now rewrite Heq.
Qed.

Lemma wf_channel b path init_val c σ code c' σ' :
  wf σ -> channel b path init_val c σ = Ok (code, c', σ') -> wf σ'.
Proof.
  intros Hwf H. destruct (decide (code = 0)) as [->|Hcode].
  { destruct (channel_ok_inv _ _ _ _ _ _ _ Hwf H) as (? & ? & ? & _ & _ & _ & _ & _ & Hwf').
    exact Hwf'. }
  unfold channel in H. destruct (tokenize_path path) as [ret tokens].
  destruct (negb (ret =? 0)); [now injection H as _ _ <-|].
  destruct (get_node (tree σ) (root b)) as [rn|] eqn:Hrn; [|discriminate].
  heap_simpl in H. pose proof (insert_node_links tokens rn true) as Hlinks.
  destruct (insert_node rn tokens true) as [rn' [p|]]; [|discriminate].
  heap_simpl in H. destruct (get_node rn' p) as [n|]; [|discriminate].
  heap_simpl in H. destruct (channel_info n).
  - injection H as _ _ <-. eapply wf_same_links; [| |exact Hwf]; cbn [tree heap with_tree].
    + eapply set_root_links; eassumption.
    + lia.
  - destruct (match link _ with Some l => _ | None => _ end).
    injection H as <- _ _. contradiction.
Qed.

Lemma wf_rivulet b path rv σ code rv' σ' :
  wf σ -> rivulet b path rv σ = Ok (code, rv', σ') -> wf σ'.
Proof.
  intros Hwf H. unfold rivulet in H. destruct (tokenize_path path) as [ret tokens].
  destruct (negb (ret =? 0)); [now injection H as _ _ <-|].
  destruct (get_node (tree σ) (root b)) as [rn|] eqn:Hrn; [|discriminate].
  heap_simpl in H. rewrite (insert_node_lookup_eq rn tokens) in H.
  rewrite (set_node_id _ _ _ Hrn) in H.
  destruct (snd (insert_node rn tokens false)) as [p|]; [|now injection H as _ _ <-; rewrite with_tree_id].
  destruct (get_node rn p) as [n|] eqn:Hn; [|discriminate]. heap_simpl in H.
  assert (Hn' : get_node (tree σ) (root b ++ p) = Some n) by now rewrite get_node_app, Hrn.
  destruct Hwf as [Hnd Halloc].
  destruct (link n) as [l|] eqn:El.
  - injection H as _ _ <-. rewrite set_node_id.
    + now split.
    + rewrite Hn'. f_equal. destruct n. cbn in *. now subst.
  - cbn [new_link] in H. injection H as _ _ <-.
    assert (Hperm : node_links (set_node (tree σ) (root b ++ p)
                                  (with_link n (Some (length (links (heap σ))))))
                    ≡ₚ [length (links (heap σ))] ++ node_links (tree σ)).
    { eapply set_node_links; [exact Hn'|].
      rewrite (node_links_unfold n), node_links_unfold, El. reflexivity. }
    split; cbn [tree heap].
    + rewrite Hperm. cbn [app]. apply NoDup_cons. split; [|exact Hnd].
      intros Hin. apply Halloc in Hin. lia.
    + intros l. rewrite Hperm. cbn [app links with_links]. rewrite length_app. cbn [length].
      intros [->|Hin]%elem_of_cons; [lia|]. apply Halloc in Hin. lia.
Qed.

Lemma wf_lock b path lk σ code σ' :
  wf σ -> lock b path lk σ = Ok (code, σ') -> wf σ'.
Proof.
  intros Hwf H. destruct (decide (code = 0)) as [->|Hcode].
  { apply lock_inv in H as (tokens & n & _ & _ & _ & _ & ->).
    eapply wf_same_links; [| |exact Hwf]; cbn [tree heap with_heap links with_links].
    - reflexivity.
    - now rewrite lock_all_length. }
  unfold lock in H. destruct (tokenize_path path) as [ret tokens].
  destruct (negb (ret =? 0)); [now injection H as _ <-|].
  destruct (get_node (tree σ) (root b)) as [rn|] eqn:Hrn; [|discriminate].
  heap_simpl in H. rewrite (insert_node_lookup_eq rn tokens) in H.
  rewrite (set_node_id _ _ _ Hrn), with_tree_id in H.
  destruct (snd (insert_node rn tokens false)) as [p|]; [|now injection H as _ <-].
  destruct (get_node rn p) as [n|]; [|discriminate]. heap_simpl in H.
  destruct (for_each_node check_for_locks n (heap σ)) as [[[ret' n'] h']|]; [|discriminate].
  heap_simpl in H. destruct (negb (ret' =? 0)); [now injection H as _ <-|].
  destruct (for_each_node (assign_lock lk) n (heap σ)) as [r|]; [|discriminate].
  injection H as <- _. contradiction.
Qed.

Lemma wf_sub b path builder σ code builder' σ' :
  wf σ -> sub b path builder σ = Ok (code, builder', σ') -> wf σ'.
Proof.
  intros Hwf H. unfold sub in H. destruct (tokenize_path path) as [ret tokens].
  destruct (negb (ret =? 0)); [now injection H as _ _ <-|].
  destruct (get_node (tree σ) (root b)) as [rn|] eqn:Hrn; [|discriminate].
  heap_simpl in H. pose proof (insert_node_links tokens rn true) as Hlinks.
  destruct (insert_node rn tokens true) as [rn' [p|]]; [|discriminate].
  injection H as _ _ <-. eapply wf_same_links; [| |exact Hwf]; cbn [tree heap with_tree].
  - eapply set_root_links; eassumption.
  - lia.
Qed.

Lemma wf_build b σ code rr σ' :
  root b = [] -> wf σ -> build b σ = Ok (code, rr, σ') -> wf σ'.
Proof.
  intros Hpos Hwf H. destruct (is_root b) eqn:Hroot.
  - destruct (build_inv _ _ _ _ _ Hroot Hpos H) as (_ & _ & Ht & _).
    split; rewrite Ht, node_links_strip; [constructor|].
    intros l Hl. now apply not_elem_of_nil in Hl.
  - unfold build in H. rewrite Hroot in H. now injection H as _ _ <-.
Qed.

(** The handle operations leave the Links alone, so a state stays in
    [wf] whatever the handles do to its heap. *)
Lemma wf_with_heap σ h :
  length (links h) = length (links (heap σ)) -> wf σ -> wf (with_heap σ h).
Proof.
  intros Hlen Hwf. eapply wf_same_links; [| |exact Hwf]; cbn [tree heap with_heap].
  - reflexivity.
  - lia.
Qed.

End wf_facts.

(** ** The paths that [tokenize_path] accepts *)

Section tokenize_shape.
Local Open Scope string_scope.
Import Builder.

Lemma tokenize_path_codes path :
  fst (tokenize_path path) = 0 \/ fst (tokenize_path path) = ERR_INVALID.
Proof.
  unfold tokenize_path. destruct (getline_loop path "" []) as [|t ts]; [now right|].
  cbn [fst]. generalize (t :: ts). intros tokens.
  induction tokens as [|u us IH]; simpl; [now left|].
  destruct u; [now right|]. destruct (has_invalid_char _); [now right | exact IH].
Qed.

Lemma tokenize_path_check path :
  check_tokens (getline_loop path "" []) <> 0 -> fst (tokenize_path path) = ERR_INVALID.
Proof.
  intros H. destruct (tokenize_path_codes path) as [H0|H0]; [|exact H0].
  exfalso. apply H. unfold tokenize_path in H0.
  destruct (getline_loop path "" []); [discriminate | exact H0].
Qed.

(** Reading a stretch of the path leaves the loop in some state that does
    not depend on what follows. *)
Lemma getline_loop_app a : forall token tokens,
  exists token' tokens', forall rest,
    getline_loop (a ++ rest) token tokens = getline_loop rest token' tokens'.
Proof.
  induction a as [|c a IH]; intros token tokens; simpl.
  - exists token, tokens. reflexivity.
  - destruct (Ascii.eqb c dot); apply IH.
Qed.

(** The rejections of the grammar that the code makes: the empty path, a
    character outside letters, digits, underscore and dot, a dot at the
    start, two dots in a row. *)
Lemma tokenize_path_rejects path :
  path = ""
  \/ has_invalid_char path = true
  \/ (exists rest, path = String dot rest)
  \/ (exists a b, path = a ++ String dot (String dot b)) ->
  fst (tokenize_path path) = ERR_INVALID.
Proof.
  intros [->|[Hbad|[[rest ->]|(a & b & ->)]]].
  - reflexivity.
  - apply tokenize_path_check. now apply getline_loop_invalid.
  - apply tokenize_path_check, getline_loop_empty_token.
  - apply tokenize_path_check.
    destruct (getline_loop_app a "" []) as (token' & tokens' & ->).
    change (getline_loop (String dot (String dot b)) token' tokens')
      with (getline_loop (String dot b) "" (tokens' ++ [token'])).
    apply getline_loop_empty_token.
Qed.

Lemma token_chars_valid t :
  token_chars t = true -> has_invalid_char t = false.
Proof.
  induction t as [|c t IH]; simpl; [reflexivity|].
  intros [Hc Ht]%andb_prop. rewrite (IH Ht), orb_false_r.
  unfold char_is_invalid. apply orb_prop in Hc as [->| ->]; [reflexivity|].
  now rewrite andb_false_r.
Qed.

Lemma token_chars_no_dot t : forall token tokens rest,
  token_chars t = true ->
  getline_loop (t ++ rest) token tokens = getline_loop rest (token ++ t) tokens.
Proof.
  induction t as [|c t IH]; intros token tokens rest; simpl.
  - now rewrite string_app_empty_r.
  - intros [Hc Ht]%andb_prop.
    assert (Ascii.eqb c dot = false) as ->.
    { destruct (Ascii.eqb_spec c dot) as [->|]; [|reflexivity].
      vm_compute in Hc. discriminate. }
    rewrite (IH _ _ _ Ht), string_app_assoc. reflexivity.
Qed.

Lemma check_tokens_ok ts : Forall token_ok ts -> check_tokens ts = 0.
Proof.
  induction 1 as [|t ts [Hne Ht] _ IH]; [reflexivity|]. simpl.
  destruct t; [contradiction|]. now rewrite (token_chars_valid _ Ht).
Qed.

Lemma getline_loop_last_token t tokens :
  token_ok t -> getline_loop t "" tokens = (tokens ++ [t])%list.
Proof.
  intros [Hne Ht]. rewrite <- (string_app_empty_r t) at 1.
  rewrite (token_chars_no_dot t "" tokens "" Ht). simpl. now destruct t.
Qed.

Lemma getline_loop_dotted_token t rest tokens :
  token_ok t ->
  getline_loop (t ++ String dot rest) "" tokens
  = getline_loop rest "" (tokens ++ [t])%list.
Proof.
  intros [Hne Ht]. rewrite (token_chars_no_dot t "" tokens _ Ht). reflexivity.
Qed.

Lemma join_cons t u us : join (t :: u :: us) = t ++ String dot (join (u :: us)).
Proof. reflexivity. Qed.

(** The loop on well-formed tokens joined by dots, with or without one
    more dot at the end, gives the tokens back. *)
Lemma getline_loop_join ts : forall t tokens,
  Forall token_ok (t :: ts) ->
  getline_loop (join (t :: ts)) "" tokens = (tokens ++ t :: ts)%list
  /\ getline_loop (join (t :: ts) ++ ".") "" tokens = (tokens ++ t :: ts)%list.
Proof.
  induction ts as [|u us IH]; intros t tokens Hok;
    inversion Hok as [|? ? Ht Hrest]; subst.
  - change (join [t]) with t. split.
    + now apply getline_loop_last_token.
    + change (t ++ ".") with (t ++ String dot ""). now rewrite getline_loop_dotted_token.
  - destruct (IH u (tokens ++ [t])%list Hrest) as [IH1 IH2].
    rewrite join_cons. split.
    + rewrite (getline_loop_dotted_token _ _ _ Ht), IH1. now rewrite <- app_assoc.
    + rewrite string_app_assoc.
      change (String dot (join (u :: us)) ++ ".")
        with (String dot (join (u :: us) ++ ".")).
      rewrite (getline_loop_dotted_token _ _ _ Ht), IH2. now rewrite <- app_assoc.
Qed.

(** The paths accepted are the well-formed tokens joined by dots, and
    these followed by one dot; the tokens returned are the same for both. *)
Lemma tokenize_path_accepts ts :
  ts <> [] -> Forall token_ok ts ->
  tokenize_path (join ts) = (0, ts) /\ tokenize_path (join ts ++ ".") = (0, ts).
Proof.
  intros Hne Hok. destruct ts as [|t ts]; [contradiction|].
  destruct (getline_loop_join ts t [] Hok) as [H1 H2].
  unfold tokenize_path. rewrite H1, H2. cbn [app].
  now rewrite (check_tokens_ok _ Hok).
Qed.

End tokenize_shape.

(** ** What holds of [lock] and of a first build *)

Section positive_parts.
Import Builder.

(** On a subtree of which every node holds a Link and none a lock, in a
    tree with pairwise distinct Links, [lock] returns 0, leaves the tree
    alone and stores the one lock pointer in the Link of every node. *)
Lemma lock_assigns_subtree b path tokens lk σ n :
  tokenize_path path = (0, tokens) ->
  subtree_at b tokens σ = Some n ->
  NoDup (node_links (tree σ)) ->
  all_linked (heap σ) n -> unlocked (heap σ) n ->
  exists σ', lock b path lk σ = Ok (0, σ')
             /\ tree σ' = tree σ
             /\ locked_by (heap σ') lk n.
Proof.
  intros Htok Hn Hnd Hl Hu. eexists. split; [|split].
  - eapply lock_ok; try eassumption. eapply subtree_node_links_NoDup; eassumption.
  - reflexivity.
  - cbn [heap with_heap]. now apply locked_by_lock_all.
Qed.

(** A build from a tree in which every channel holds a Link (as before
    any build) allocates a storage of the total size of the channels. *)
Lemma first_build_storage b σ code rr σ' :
  is_root b = true -> root b = [] -> wf σ ->
  Forall (fun m => is_Some (channel_info m) -> is_Some (link m)) (nodes (tree σ)) ->
  build b σ = Ok (code, rr, σ') ->
  exists st, rivers (heap σ') !! length (rivers (heap σ)) = Some st
             /\ length st = total_size (nodes (tree σ)).
Proof.
  intros Hroot Hpos [Hnd _] Hall Hb.
  destruct (build_post _ _ _ _ _ Hroot Hpos Hnd Hb) as (_ & _ & _ & Hriv & _).
  exists (layout (tree σ)). split.
  - rewrite Hriv, lookup_app_r by lia. now rewrite Nat.sub_diag.
  - now apply init_bytes_total.
Qed.

End positive_parts.

(** ** The grammar of paths, in full *)

Section tokenize_grammar.
Local Open Scope string_scope.
Import Builder.

Lemma token_chars_app a b :
  token_chars (a ++ b) = token_chars a && token_chars b.
Proof.
  induction a as [|x a IH]; simpl; [reflexivity|].
  rewrite IH. now rewrite andb_assoc.
Qed.

(** A character that is not the dot and that [char_is_invalid] lets
    through is a letter, a digit or the underscore. *)
Lemma char_valid_no_dot c :
  c <> dot -> char_is_invalid c = false ->
  isalnum c || Ascii.eqb c "_"%char = true.
Proof.
  intros Hc. unfold char_is_invalid.
  destruct (isalnum c); [reflexivity|].
  destruct (Ascii.eqb c "_"%char); [reflexivity|].
  destruct (Ascii.eqb_spec c dot) as [->|_]; [contradiction | discriminate].
Qed.

(** No token that the loop pushes holds a dot: whatever passes the
    character check of the code is made of letters, digits and underscores
    only. *)
Lemma getline_loop_no_dot ss : forall token tokens,
  (has_invalid_char token = false -> token_chars token = true) ->
  Forall (fun t => has_invalid_char t = false -> token_chars t = true) tokens ->
  Forall (fun t => has_invalid_char t = false -> token_chars t = true)
    (getline_loop ss token tokens).
Proof.
  induction ss as [|c ss IH]; intros token tokens Ht Hts; simpl.
  - destruct token; [exact Hts|].
    apply Forall_app. split; [exact Hts | now constructor].
  - destruct (Ascii.eqb_spec c dot) as [->|Hc].
    + apply IH; [reflexivity|].
      apply Forall_app. split; [exact Hts | now constructor].
    + apply IH; [|exact Hts].
      rewrite has_invalid_char_app, token_chars_app. simpl.
      rewrite orb_false_r, andb_true_r.
      intros [H1 H2]%orb_false_iff.
      rewrite (Ht H1), (char_valid_no_dot c Hc H2). reflexivity.
Qed.

Lemma check_tokens_Forall ts :
  check_tokens ts = 0 ->
  Forall (fun t => t <> "" /\ has_invalid_char t = false) ts.
Proof.
  induction ts as [|t ts IH]; intros H; [constructor|].
  change (t :: ts)%list with ([t] ++ ts)%list in H.
  apply check_tokens_app in H as [H1 H2].
  constructor; [now apply check_tokens_single | now apply IH].
Qed.

(** The tokens of an accepted path are tokens of the grammar. *)
Lemma tokenize_path_tokens_ok path ts :
  tokenize_path path = (0, ts) -> ts <> [] /\ Forall token_ok ts.
Proof.
  intros H. split; [now apply tokenize_path_nonempty in H|].
  unfold tokenize_path in H.
  pose proof (getline_loop_no_dot path "" [] (fun _ => eq_refl) (Forall_nil_2 _)) as Hnd.
  destruct (getline_loop path "" []) as [|t0 ts0] eqn:E; [discriminate|].
  pose proof (f_equal fst H) as Hc. pose proof (f_equal snd H) as Hs.
  cbn [fst snd] in Hc, Hs. subst ts. clear H. apply check_tokens_Forall in Hc as H.
  rewrite Forall_forall in H, Hnd. apply Forall_forall. intros t Hin.
  destruct (H t Hin) as [Hne Hv]. split; [exact Hne | now apply Hnd].
Qed.

(** X1.  [tokenize_path] returns 0 with the tokens [ts] exactly when [ts]
    is a non-empty list of non-empty words of letters, digits and
    underscores and the path is these words joined by dots, or that
    followed by one more dot; every other path gets [ERR_INVALID], and no
    other code is returned. *)
Theorem tokenize_path_grammar path :
  (forall ts,
     tokenize_path path = (0, ts) <->
     ts <> [] /\ Forall token_ok ts /\ (path = join ts \/ path = join ts ++ "."))
  /\ (fst (tokenize_path path) = 0 \/ fst (tokenize_path path) = ERR_INVALID).
Proof.
  split; [|apply tokenize_path_codes].
  intros ts. split.
  - intros H. destruct (tokenize_path_tokens_ok _ _ H) as [Hne Hok].
    repeat split; [exact Hne | exact Hok |].
    destruct (tokenize_path_accepted _ _ H) as [E|E]; [left | right]; now rewrite E.
  - intros (Hne & Hok & [-> | ->]); now apply tokenize_path_accepts.
Qed.

End tokenize_grammar.

(** ** [insert_node] as a map from paths to nodes *)

Section insert_map.
Import Builder.

Lemma lookup_length path : forall n p,
  snd (insert_node n path false) = Some p -> length p = length path.
Proof.
  induction path as [|token rest IH]; intros n p; simpl.
  - now intros [= <-].
  - destruct (find_child token (children n)) as [[i c]|]; [|discriminate].
    specialize (IH c).
    destruct (insert_node c rest false) as [c1 [q|]]; [|discriminate].
    simpl in *. intros [= <-]. simpl. now rewrite (IH q eq_refl).
Qed.

Lemma last_default_irrelevant {A} (l : list A) d d' :
  l <> [] -> List.last l d = List.last l d'.
Proof.
  induction l as [|x l IH]; intros Hne; [contradiction|].
  destruct l as [|y l]; [reflexivity|].
  change (List.last (y :: l) d = List.last (y :: l) d'). now apply IH.
Qed.

Lemma lookup_name_or_root path n p m :
  snd (insert_node n path false) = Some p ->
  get_node n p = Some m -> name m = List.last path (name n).
Proof.
  destruct path as [|t rest].
  - simpl. intros [= <-]. simpl. now intros [= <-].
  - intros Hp Hm.
    rewrite (last_default_irrelevant (t :: rest) (name n) EmptyString) by discriminate.
    now apply (lookup_name (t :: rest) n p m).
Qed.

Lemma find_child_insert_other u cs : forall i j cj c c',
  find_child u cs = Some (j, cj) -> cs !! i = Some c -> name c' = name c ->
  find_child u (<[i := c']> cs) = Some (j, if decide (j = i) then c' else cj).
Proof.
  induction cs as [|d cs IH]; intros i j cj c c'; simpl; [discriminate|].
  destruct i as [|i]; simpl.
  - intros Hf [= ->] Hn. rewrite Hn.
    destruct (String.eqb (name c) u); [now injection Hf as <- <-|].
    destruct (find_child u cs) as [[j' e]|]; [|discriminate].
    now injection Hf as <- <-.
  - intros Hf Hc Hn.
    destruct (String.eqb (name d) u); [now injection Hf as <- <-|].
    destruct (find_child u cs) as [[j' e]|] eqn:E; [|discriminate].
    injection Hf as <- <-.
    rewrite (IH i j' e c c' eq_refl Hc Hn).
    destruct (decide (j' = i)) as [->|Hne].
    + now rewrite decide_True.
    + rewrite decide_False by lia. reflexivity.
Qed.

Lemma find_child_app_Some u cs l r :
  find_child u cs = Some r -> find_child u (cs ++ l) = Some r.
Proof.
  revert r. induction cs as [|d cs IH]; intros r; simpl; [discriminate|].
  destruct (String.eqb (name d) u); [auto|].
  destruct (find_child u cs) as [[j e]|]; [|discriminate].
  intros [= <-]. now rewrite (IH (j, e) eq_refl).
Qed.

(** What [insert_node] keeps of a node on its way. *)
Lemma insert_node_root_fields path n create :
  name (fst (insert_node n path create)) = name n
  /\ channel_info (fst (insert_node n path create)) = channel_info n
  /\ link (fst (insert_node n path create)) = link n.
Proof.
  destruct path as [|token rest]; simpl; [auto|].
  destruct (find_child token (children n)) as [[i c]|].
  - now destruct (insert_node c rest create).
  - destruct create; [|auto]. now destruct (insert_node _ rest true).
Qed.

(** Every path that led to a node before an insertion leads to it after,
    by the same pointer, and the node has kept its name, its channel info
    and its Link. *)
Lemma insert_node_frame path : forall n q pq mq,
  snd (insert_node n q false) = Some pq -> get_node n pq = Some mq ->
  snd (insert_node (fst (insert_node n path true)) q false) = Some pq
  /\ exists mq', get_node (fst (insert_node n path true)) pq = Some mq'
       /\ name mq' = name mq /\ channel_info mq' = channel_info mq
       /\ link mq' = link mq.
Proof.
  induction path as [|token rest IH]; intros n q pq mq Hq Hm.
  - simpl. split; [exact Hq|]. exists mq. auto.
  - destruct q as [|u q'].
    + simpl in Hq. injection Hq as <-. simpl in Hm. injection Hm as <-.
      split; [reflexivity|]. cbn [get_node].
      exists (fst (insert_node n (token :: rest) true)). split; [reflexivity|].
      apply insert_node_root_fields.
    + simpl in Hq.
      destruct (find_child u (children n)) as [[j cj]|] eqn:Eu; [|discriminate].
      pose proof (find_child_Some _ _ _ _ Eu) as [Ej Hu].
      destruct (insert_node cj q' false) as [cj1 [pq'|]] eqn:Eq'; [|discriminate].
      simpl in Hq. injection Hq as <-. simpl in Hm. rewrite Ej in Hm.
      assert (Hq' : snd (insert_node cj q' false) = Some pq') by now rewrite Eq'.
      cbn [insert_node].
      destruct (find_child token (children n)) as [[i c]|] eqn:Et.
      * pose proof (find_child_Some _ _ _ _ Et) as [Ei _].
        pose proof (name_insert_node rest c true) as Hn.
        specialize (IH c).
        destruct (insert_node c rest true) as [c' r] eqn:Ec'. simpl in Hn, IH.
        cbn [fst]. cbn [insert_node children with_children].
        rewrite (find_child_insert_other u _ i j cj c c' Eu Ei Hn).
        destruct (decide (j = i)) as [->|Hne].
        -- assert (cj = c) by congruence. subst cj.
           destruct (IH q' pq' mq Hq' Hm) as (IH1 & mq' & IH2 & IH3).
           destruct (insert_node c' q' false) as [c2 r2]. simpl in IH1. subst r2.
           split; [reflexivity|]. exists mq'. split; [|exact IH3].
           cbn [get_node children with_children].
           rewrite list_lookup_insert_eq by (eapply lookup_lt_Some; exact Ei).
           exact IH2.
        -- rewrite Eq'. split; [reflexivity|]. exists mq. split; [|auto].
           cbn [get_node children with_children].
           rewrite list_lookup_insert_ne by lia. rewrite Ej. exact Hm.
      * destruct (insert_node (mkNode token None None []) rest true) as [c' r].
        cbn [fst]. cbn [insert_node children with_children].
        rewrite (find_child_app_Some _ _ [c'] _ Eu). rewrite Eq'.
        split; [reflexivity|]. exists mq. split; [|auto].
        cbn [get_node children with_children].
        rewrite lookup_app_l by (eapply lookup_lt_Some; exact Ej).
        rewrite Ej. exact Hm.
Qed.

(** The node at the end of a path that did not exist is as [insert_node]
    made it: no channel info, no Link, no child. *)
Lemma insert_node_fresh path : forall n p m,
  snd (insert_node n path false) = None ->
  snd (insert_node n path true) = Some p ->
  get_node (fst (insert_node n path true)) p = Some m ->
  channel_info m = None /\ link m = None /\ children m = [].
Proof.
  induction path as [|token rest IH]; intros n p m; simpl; [discriminate|].
  destruct (find_child token (children n)) as [[i c]|] eqn:E.
  - apply find_child_Some in E as [E _].
    specialize (IH c).
    destruct (insert_node c rest false) as [c1 [q|]]; [discriminate|].
    destruct (insert_node c rest true) as [c' [q|]]; [|discriminate].
    simpl in *. intros _ [= <-]. simpl.
    rewrite list_lookup_insert_eq by (eapply lookup_lt_Some; exact E).
    now apply IH.
  - intros _.
    destruct rest as [|t2 rest].
    + simpl. intros [= <-]. simpl. rewrite lookup_app_r by lia.
      rewrite Nat.sub_diag. simpl. now intros [= <-].
    + specialize (IH (mkNode token None None [])).
      destruct (insert_node (mkNode token None None []) (t2 :: rest) true)
        as [c' [q|]]; [|discriminate].
      simpl in *. intros [= <-]. simpl. rewrite lookup_app_r by lia.
      rewrite Nat.sub_diag. simpl. now apply IH.
Qed.

(** X2.  [insert_node] with [create = false] is a pure lookup: the tree is
    left as it is, and a pointer that comes back has one index for each
    token and leads to a node named by the last token (the start node for
    the empty path). *)
Theorem insert_node_lookup_is_pure n path :
  fst (insert_node n path false) = n
  /\ forall p, snd (insert_node n path false) = Some p ->
       length p = length path
       /\ exists m, get_node n p = Some m /\ name m = List.last path (name n).
Proof.
  destruct (insert_node_lookup path n) as [H1 H2]. split; [exact H1|].
  intros p Hp. split; [now apply lookup_length in Hp|].
  destruct (H2 p Hp) as [m Hm]. exists m. split; [exact Hm|].
  now apply (lookup_name_or_root path n p m).
Qed.

(** X3.  [insert_node] with [create = true] always hands back a pointer to
    a node of the tree it leaves, named by the last token; a lookup of the
    same path in that tree finds the same pointer, and inserting the path
    once more changes nothing.  When the path existed, nothing was changed
    at all; when it did not, the node is new: no channel info, no Link, no
    child. *)
Theorem insert_node_then_found n path :
  exists n' p m,
    insert_node n path true = (n', Some p)
    /\ get_node n' p = Some m /\ name m = List.last path (name n)
    /\ snd (insert_node n' path false) = Some p
    /\ insert_node n' path true = (n', Some p)
    /\ (forall p0, snd (insert_node n path false) = Some p0 -> n' = n /\ p = p0)
    /\ (snd (insert_node n path false) = None ->
        channel_info m = None /\ link m = None /\ children m = []).
Proof.
  destruct (insert_node_create path n) as (p & m & Hp & Hm).
  pose proof (insert_node_then_lookup path n true) as Hlook.
  pose proof (name_insert_node path n true) as Hname.
  pose proof (insert_node_fresh path n p m) as Hfresh.
  pose proof (insert_node_existing path n) as Hex.
  destruct (insert_node n path true) as [n' r] eqn:E. simpl in *. subst r.
  exists n', p, m. split; [reflexivity|]. split; [exact Hm|].
  split; [|split; [exact Hlook|split; [|split]]].
  - rewrite <- Hname. now apply (lookup_name_or_root path n' p m).
  - now apply insert_node_existing.
  - intros p0 Hp0. specialize (Hex p0 Hp0). now injection Hex as -> ->.
  - intros Hnone. now apply Hfresh.
Qed.

(** X4.  An insertion disturbs no path that existed: each still leads, by
    the same pointer, to a node with the name, the channel info and the
    Link it had. *)
Theorem insert_node_keeps_paths n path q pq mq :
  snd (insert_node n q false) = Some pq -> get_node n pq = Some mq ->
  snd (insert_node (fst (insert_node n path true)) q false) = Some pq
  /\ exists mq', get_node (fst (insert_node n path true)) pq = Some mq'
       /\ name mq' = name mq /\ channel_info mq' = channel_info mq
       /\ link mq' = link mq.
Proof. apply insert_node_frame. Qed.

End insert_map.

(** ** The traversal order *)

Section traversal_order.
Import Builder.

(** X5.  [for_each_node] calls the function on the nodes of the subtree in
    depth-first order, a node before its children and the children in
    insertion order; it stops at the first call that returns a non-zero
    code and returns that code, and returns 0 when every call did. *)
Theorem for_each_node_preorder {S : Type} (f : Node -> S -> outcome (Z * S))
    (n : Node) (s : S) :
  for_each_node (lift_visitor f) n s =
  match visit_list f (nodes n) s with
  | Fault => Fault
  | Ok (ret, s') => Ok (ret, n, s')
  end.
Proof. apply for_each_node_flat. reflexivity. Qed.

End traversal_order.

(** ** What the handle operations do to the heap *)

Section handle_frame.

Lemma linked_inv link h :
  Linkable.linked link h = true ->
  exists l L r, link = Some l /\ links h !! l = Some L /\ Link.river L = Some r.
Proof.
  unfold Linkable.linked. destruct link as [l|]; [|discriminate].
  destruct (links h !! l) as [L|] eqn:HL; [|discriminate].
  destruct (Link.river L) as [r|] eqn:E; [|discriminate].
  intros _. now exists l, L, r.
Qed.

Lemma lock_calls_unlinked link h :
  Linkable.linked link h = false -> lock_calls link h = [].
Proof.
  unfold Linkable.linked, lock_calls. destruct link as [l|]; [|reflexivity].
  destruct (links h !! l) as [L|]; [|reflexivity].
  destruct (Link.river L); [discriminate | reflexivity].
Qed.

Lemma lock_calls_linked l L r h :
  links h !! l = Some L -> Link.river L = Some r ->
  lock_trace (bracketed h L) = lock_trace h ++ lock_calls (Some l) h.
Proof.
  intros HL Hr. unfold lock_calls, bracketed, acquire_if_locked, release_if_locked.
  rewrite HL, Hr. destruct (Link.lock L); simpl.
  - now rewrite <- app_assoc.
  - now rewrite app_nil_r.
Qed.

Lemma bracketed_with_rivers h L rs :
  release_if_locked
    (with_rivers (acquire_if_locked h L) rs) L
  = bracketed (with_rivers h rs) L.
Proof.
  unfold bracketed, acquire_if_locked, release_if_locked.
  now destruct (Link.lock L).
Qed.

Lemma write_bytes_front (dest src : bytes) d' :
  write_bytes dest 0 src = Ok d' ->
  d' = src ++ drop (length src) dest /\ length d' = length dest.
Proof.
  unfold write_bytes. simpl. destruct (length src <=? length dest)%nat eqn:E; [|discriminate].
  apply Nat.leb_le in E. intros [= <-]. split; [reflexivity|].
  rewrite length_app, length_drop. lia.
Qed.

Lemma write_bytes_inv (st : bytes) off (src : bytes) st' :
  write_bytes st off src = Ok st' ->
  (off + length src <= length st)%nat
  /\ st' = take off st ++ src ++ drop (off + length src) st
  /\ length st' = length st.
Proof.
  unfold write_bytes. destruct (off + length src <=? length st)%nat eqn:E; [|discriminate].
  apply Nat.leb_le in E. intros [= <-]. split; [exact E|]. split; [reflexivity|].
  rewrite !length_app, length_take, length_drop. lia.
Qed.

Lemma read_bytes_inv (st : bytes) off n v :
  read_bytes st off n = Ok v ->
  (off + n <= length st)%nat /\ v = take n (drop off st) /\ length v = n.
Proof.
  unfold read_bytes. destruct (off + n <=? length st)%nat eqn:E; [|discriminate].
  apply Nat.leb_le in E. intros [= <-]. split; [exact E|]. split; [reflexivity|].
  rewrite length_take, length_drop. lia.
Qed.

(** [serialize] on a linked handle, step by step. *)
Lemma serialize_inv c dest h d' h' :
  Linkable.linked (Channel.link c) h = true ->
  Channel.serialize c dest h = Ok (d', h') ->
  exists l L r st off src,
    Channel.link c = Some l /\ links h !! l = Some L /\ Link.river L = Some r
    /\ rivers h !! r = Some st /\ Link.channel_offset L = Some off
    /\ read_bytes st off (Channel.size c) = Ok src
    /\ write_bytes dest 0 src = Ok d'
    /\ h' = bracketed h L.
Proof.
  intros Hl. unfold Channel.serialize. rewrite Hl. cbn [negb].
  destruct (linked_inv _ _ Hl) as (l & L & r & Hc & HL & Hr).
  rewrite Hc. unfold get_link, get_storage. heap_simpl. rewrite HL. heap_simpl.
  rewrite Hr. heap_simpl. rewrite acquire_rivers.
  destruct (rivers h !! r) as [st|] eqn:Hst; [|discriminate]. heap_simpl.
  destruct (Link.channel_offset L) as [off|] eqn:Hoff; [|discriminate]. heap_simpl.
  destruct (read_bytes st off (Channel.size c)) as [src|] eqn:Hsrc; [|discriminate].
  heap_simpl.
  destruct (write_bytes dest 0 src) as [d1|] eqn:Hd; [|discriminate]. heap_simpl.
  intros [= <- <-]. exists l, L, r, st, off, src. auto 10.
Qed.

(** [deserialize] on a linked handle, step by step. *)
Lemma deserialize_inv c src h h' :
  Linkable.linked (Channel.link c) h = true ->
  Channel.deserialize c src h = Ok h' ->
  exists l L r st off val st',
    Channel.link c = Some l /\ links h !! l = Some L /\ Link.river L = Some r
    /\ rivers h !! r = Some st /\ Link.channel_offset L = Some off
    /\ read_bytes src 0 (Channel.size c) = Ok val
    /\ write_bytes st off val = Ok st'
    /\ h' = bracketed (with_rivers h (<[r := st']> (rivers h))) L.
Proof.
  intros Hl. unfold Channel.deserialize. rewrite Hl. cbn [negb].
  destruct (linked_inv _ _ Hl) as (l & L & r & Hc & HL & Hr).
  rewrite Hc. unfold get_link, set_storage, get_storage. heap_simpl. rewrite HL.
  heap_simpl. rewrite Hr. heap_simpl. rewrite acquire_rivers.
  destruct (rivers h !! r) as [st|] eqn:Hst; [|discriminate]. heap_simpl.
  destruct (Link.channel_offset L) as [off|] eqn:Hoff; [|discriminate]. heap_simpl.
  destruct (read_bytes src 0 (Channel.size c)) as [val|] eqn:Hval; [|discriminate].
  heap_simpl.
  destruct (write_bytes st off val) as [st'|] eqn:Hst'; [|discriminate]. heap_simpl.
  rewrite bracketed_with_rivers.
  intros [= <-]. exists l, L, r, st, off, val, st'. auto 10.
Qed.

(** [read] on a linked handle and a buffer, step by step. *)
Lemma rivulet_read_inv rv buf h d h' :
  Linkable.linked (Rivulet.link rv) h = true ->
  Rivulet.read rv (Some buf) h = Ok (d, h') ->
  exists l L r st off n src buf',
    Rivulet.link rv = Some l /\ links h !! l = Some L /\ Link.river L = Some r
    /\ rivers h !! r = Some st /\ Link.rivulet_offset L = Some off
    /\ Link.rivulet_size L = Some n
    /\ read_bytes st off n = Ok src
    /\ write_bytes buf 0 src = Ok buf'
    /\ d = Some buf' /\ h' = bracketed h L.
Proof.
  intros Hl. unfold Rivulet.read. rewrite Hl. cbn [negb].
  destruct (linked_inv _ _ Hl) as (l & L & r & Hc & HL & Hr).
  rewrite Hc. unfold get_link, get_storage. heap_simpl. rewrite HL. heap_simpl.
  rewrite Hr. heap_simpl. rewrite acquire_rivers.
  destruct (rivers h !! r) as [st|] eqn:Hst; [|discriminate]. heap_simpl.
  destruct (Link.rivulet_offset L) as [off|] eqn:Hoff; [|discriminate]. heap_simpl.
  destruct (Link.rivulet_size L) as [n|] eqn:Hn; [|discriminate]. heap_simpl.
  destruct (read_bytes st off n) as [src|] eqn:Hsrc; [|discriminate]. heap_simpl.
  destruct (write_bytes buf 0 src) as [d1|] eqn:Hd; [|discriminate]. heap_simpl.
  intros [= <- <-]. exists l, L, r, st, off, n, src, d1. auto 12.
Qed.

(** [write] on a linked handle and a buffer, step by step. *)
Lemma rivulet_write_inv rv src h h' :
  Linkable.linked (Rivulet.link rv) h = true ->
  Rivulet.write rv (Some src) h = Ok h' ->
  exists l L r st off n val st',
    Rivulet.link rv = Some l /\ links h !! l = Some L /\ Link.river L = Some r
    /\ rivers h !! r = Some st /\ Link.rivulet_offset L = Some off
    /\ Link.rivulet_size L = Some n
    /\ read_bytes src 0 n = Ok val
    /\ write_bytes st off val = Ok st'
    /\ h' = bracketed (with_rivers h (<[r := st']> (rivers h))) L.
Proof.
  intros Hl. unfold Rivulet.write. rewrite Hl. cbn [negb].
  destruct (linked_inv _ _ Hl) as (l & L & r & Hc & HL & Hr).
  rewrite Hc. unfold get_link, set_storage, get_storage. heap_simpl. rewrite HL.
  heap_simpl. rewrite Hr. heap_simpl. rewrite acquire_rivers.
  destruct (rivers h !! r) as [st|] eqn:Hst; [|discriminate]. heap_simpl.
  destruct (Link.rivulet_offset L) as [off|] eqn:Hoff; [|discriminate]. heap_simpl.
  destruct (Link.rivulet_size L) as [n|] eqn:Hn; [|discriminate]. heap_simpl.
  destruct (read_bytes src 0 n) as [val|] eqn:Hval; [|discriminate]. heap_simpl.
  destruct (write_bytes st off val) as [st'|] eqn:Hst'; [|discriminate]. heap_simpl.
  rewrite bracketed_with_rivers.
  intros [= <-]. exists l, L, r, st, off, n, val, st'. auto 12.
Qed.

Lemma bracketed_trace_with_rivers h L rs l r :
  links h !! l = Some L -> Link.river L = Some r ->
  lock_trace (bracketed (with_rivers h rs) L) = lock_trace h ++ lock_calls (Some l) h.
Proof.
  intros HL Hr. rewrite <- (lock_calls_linked l L r h HL Hr).
  unfold bracketed, acquire_if_locked, release_if_locked.
  now destruct (Link.lock L).
Qed.

(** X6.  Each of [get], [set], [read] and [write] that returns has made
    on locks exactly the calls of one guarded access, after all earlier
    calls.  For [get], [set], and for [read] and [write] with a buffer:
    nothing when the handle is not linked or the Link holds no lock, else
    one [acquire] followed by one [release] of the lock of the Link.  For
    [read] and [write] with a null pointer: nothing, whatever the Link
    holds. *)
Theorem handle_ops_bracket_the_lock :
  (forall c h v h', Channel.get c h = Ok (v, h') ->
     lock_trace h' = lock_trace h ++ lock_calls (Channel.link c) h)
  /\ (forall c x h h', Channel.set c x h = Ok h' ->
     lock_trace h' = lock_trace h ++ lock_calls (Channel.link c) h)
  /\ (forall rv dest h d h', Rivulet.read rv dest h = Ok (d, h') ->
     lock_trace h' = lock_trace h ++
       match dest with
       | Some _ => lock_calls (Rivulet.link rv) h
       | None => []
       end)
  /\ (forall rv src h h', Rivulet.write rv src h = Ok h' ->
     lock_trace h' = lock_trace h ++
       match src with
       | Some _ => lock_calls (Rivulet.link rv) h
       | None => []
       end).
Proof.
  repeat apply conj.
  - intros c h v h' H.
    destruct (Linkable.linked (Channel.link c) h) eqn:Hl.
    + apply serialize_inv in H as (l & L & r & st & off & src & Hc & HL & Hr & _ & _ & _ & _ & ->);
        [|exact Hl].
      rewrite Hc. now apply (lock_calls_linked l L r).
    + rewrite (lock_calls_unlinked _ _ Hl), app_nil_r.
      unfold Channel.get, Channel.serialize in H. rewrite Hl in H. now injection H as _ <-.
  - intros c x h h' H.
    destruct (Linkable.linked (Channel.link c) h) eqn:Hl.
    + apply deserialize_inv in H
        as (l & L & r & st & off & val & st' & Hc & HL & Hr & _ & _ & _ & _ & ->);
        [|exact Hl].
      rewrite Hc. now apply (bracketed_trace_with_rivers h L _ l r).
    + rewrite (lock_calls_unlinked _ _ Hl), app_nil_r.
      unfold Channel.set, Channel.deserialize in H. rewrite Hl in H. now injection H as <-.
  - intros rv [buf|] h d h' H.
    2:{ cbn [Rivulet.read] in H. injection H as _ <-. now rewrite app_nil_r. }
    destruct (Linkable.linked (Rivulet.link rv) h) eqn:Hl.
    + apply rivulet_read_inv in H
        as (l & L & r & st & off & n & src & buf' & Hc & HL & Hr & _ & _ & _ & _ & _ & _ & ->);
        [|exact Hl].
      rewrite Hc. now apply (lock_calls_linked l L r).
    + rewrite (lock_calls_unlinked _ _ Hl), app_nil_r.
      unfold Rivulet.read in H. rewrite Hl in H. now injection H as _ <-.
  - intros rv [src|] h h' H.
    2:{ cbn [Rivulet.write] in H. injection H as <-. now rewrite app_nil_r. }
    destruct (Linkable.linked (Rivulet.link rv) h) eqn:Hl.
    + apply rivulet_write_inv in H
        as (l & L & r & st & off & n & val & st' & Hc & HL & Hr & _ & _ & _ & _ & _ & ->);
        [|exact Hl].
      rewrite Hc. now apply (bracketed_trace_with_rivers h L _ l r).
    + rewrite (lock_calls_unlinked _ _ Hl), app_nil_r.
      unfold Rivulet.write in H. rewrite Hl in H. now injection H as <-.
Qed.

Lemma river_of_linked l L r h :
  links h !! l = Some L -> Link.river L = Some r -> river_of (Some l) h = Some r.
Proof. intros HL Hr. unfold river_of. now rewrite HL. Qed.

(** A store into the storage of one river: the others are as before and
    the one written keeps its length. *)
Lemma store_frame h L r (st st' : bytes) :
  rivers h !! r = Some st -> length st' = length st ->
  links (bracketed (with_rivers h (<[r := st']> (rivers h))) L) = links h
  /\ length (rivers (bracketed (with_rivers h (<[r := st']> (rivers h))) L))
     = length (rivers h)
  /\ (forall r0 st0, rivers h !! r0 = Some st0 ->
        exists st1,
          rivers (bracketed (with_rivers h (<[r := st']> (rivers h))) L) !! r0 = Some st1
          /\ length st1 = length st0
          /\ (r0 <> r -> st1 = st0)).
Proof.
  intros Hst Hlen. rewrite bracketed_links, bracketed_rivers.
  cbn [links rivers with_rivers]. split; [reflexivity|].
  split; [now rewrite length_insert|].
  intros r0 st0 H0. destruct (decide (r0 = r)) as [->|Hne].
  - exists st'. rewrite list_lookup_insert_eq by (eapply lookup_lt_Some; exact Hst).
    split; [reflexivity|]. split; [congruence | contradiction].
  - exists st0. rewrite list_lookup_insert_ne by congruence. auto.
Qed.

(** X7.  [get] and [read] change neither a Link nor a byte of any storage;
    [get] returns [sizeof(T)] bytes and [read] hands the buffer back at its
    length.  [set] and [write] change no Link, keep the number of rivers
    and the length of every storage, and leave the storage of every river
    other than the one the handle is bound to as it was. *)
Theorem handle_ops_frame :
  (forall c h v h', Channel.get c h = Ok (v, h') ->
     links h' = links h /\ rivers h' = rivers h /\ length v = Channel.size c)
  /\ (forall rv buf h d h', Rivulet.read rv (Some buf) h = Ok (d, h') ->
     links h' = links h /\ rivers h' = rivers h
     /\ exists buf', d = Some buf' /\ length buf' = length buf)
  /\ (forall c x h h', Channel.set c x h = Ok h' ->
     links h' = links h /\ length (rivers h') = length (rivers h)
     /\ forall r0 st0, rivers h !! r0 = Some st0 ->
          exists st1, rivers h' !! r0 = Some st1 /\ length st1 = length st0
                      /\ (river_of (Channel.link c) h <> Some r0 -> st1 = st0))
  /\ (forall rv src h h', Rivulet.write rv (Some src) h = Ok h' ->
     links h' = links h /\ length (rivers h') = length (rivers h)
     /\ forall r0 st0, rivers h !! r0 = Some st0 ->
          exists st1, rivers h' !! r0 = Some st1 /\ length st1 = length st0
                      /\ (river_of (Rivulet.link rv) h <> Some r0 -> st1 = st0)).
Proof.
  repeat apply conj.
  - intros c h v h' H.
    destruct (Linkable.linked (Channel.link c) h) eqn:Hl.
    + apply serialize_inv in H
        as (l & L & r & st & off & src & Hc & HL & Hr & _ & _ & Hsrc & Hd & ->);
        [|exact Hl].
      rewrite bracketed_links, bracketed_rivers. split; [reflexivity|].
      split; [reflexivity|].
      apply write_bytes_front in Hd as [_ Hd]. rewrite Hd.
      unfold Channel.default_value. now rewrite repeat_length.
    + unfold Channel.get, Channel.serialize in H. rewrite Hl in H.
      injection H as <- <-. unfold Channel.default_value. now rewrite repeat_length.
  - intros rv buf h d h' H.
    destruct (Linkable.linked (Rivulet.link rv) h) eqn:Hl.
    + apply rivulet_read_inv in H
        as (l & L & r & st & off & n & src & buf' & Hc & HL & Hr & _ & _ & _ & _ & Hd & -> & ->);
        [|exact Hl].
      rewrite bracketed_links, bracketed_rivers. split; [reflexivity|].
      split; [reflexivity|]. exists buf'. split; [reflexivity|].
      now apply write_bytes_front in Hd as [_ Hd].
    + unfold Rivulet.read in H. rewrite Hl in H. injection H as <- <-.
      split; [reflexivity|]. split; [reflexivity|]. now exists buf.
  - intros c x h h' H.
    destruct (Linkable.linked (Channel.link c) h) eqn:Hl.
    + apply deserialize_inv in H
        as (l & L & r & st & off & val & st' & Hc & HL & Hr & Hst & _ & _ & Hw & ->);
        [|exact Hl].
      apply write_bytes_inv in Hw as (_ & _ & Hlen).
      destruct (store_frame h L r st st' Hst Hlen) as (H1 & H2 & H3).
      split; [exact H1|]. split; [exact H2|].
      intros r0 st0 H0. destruct (H3 r0 st0 H0) as (st1 & Ha & Hb & Hc').
      exists st1. split; [exact Ha|]. split; [exact Hb|].
      intros Hne. apply Hc'. intros ->. apply Hne.
      rewrite Hc. now apply (river_of_linked l L).
    + unfold Channel.set, Channel.deserialize in H. rewrite Hl in H. injection H as <-.
      split; [reflexivity|]. split; [reflexivity|].
      intros r0 st0 H0. exists st0. auto.
  - intros rv src h h' H.
    destruct (Linkable.linked (Rivulet.link rv) h) eqn:Hl.
    + apply rivulet_write_inv in H
        as (l & L & r & st & off & n & val & st' & Hc & HL & Hr & Hst & _ & _ & _ & Hw & ->);
        [|exact Hl].
      apply write_bytes_inv in Hw as (_ & _ & Hlen).
      destruct (store_frame h L r st st' Hst Hlen) as (H1 & H2 & H3).
      split; [exact H1|]. split; [exact H2|].
      intros r0 st0 H0. destruct (H3 r0 st0 H0) as (st1 & Ha & Hb & Hc').
      exists st1. split; [exact Ha|]. split; [exact Hb|].
      intros Hne. apply Hc'. intros ->. apply Hne.
      rewrite Hc. now apply (river_of_linked l L).
    + unfold Rivulet.write in H. rewrite Hl in H. injection H as <-.
      split; [reflexivity|]. split; [reflexivity|].
      intros r0 st0 H0. exists st0. auto.
Qed.

Lemma read_back (st : bytes) off (val : bytes) st' :
  write_bytes st off val = Ok st' -> read_bytes st' off (length val) = Ok val.
Proof.
  intros H. apply write_bytes_inv in H as (Hle & -> & _).
  pose proof (read_bytes_middle (take off st) val (drop (off + length val) st)) as Hr.
  rewrite length_take in Hr. replace (off `min` length st)%nat with off in Hr by lia.
  exact Hr.
Qed.

Lemma read_bytes_all (x : bytes) : read_bytes x 0 (length x) = Ok x.
Proof.
  unfold read_bytes. simpl. rewrite Nat.leb_refl. now rewrite firstn_all.
Qed.

(** X8.  What was written is read back.  After [write] of a buffer of
    [size()] bytes has returned, [read] into a buffer of that length gives
    the bytes written, on a linked rivulet and on one that is not (where the
    size is 0).  After [set] of a value on a linked channel has returned,
    [get] gives that value. *)
Theorem written_is_read_back :
  (forall rv src buf h h1 n,
     Rivulet.write rv (Some src) h = Ok h1 ->
     Rivulet.size rv h = Ok n -> length src = n -> length buf = n ->
     exists h2, Rivulet.read rv (Some buf) h1 = Ok (Some src, h2))
  /\ (forall c x h h1,
     Channel.set c x h = Ok h1 ->
     Linkable.linked (Channel.link c) h = true -> length x = Channel.size c ->
     exists h2, Channel.get c h1 = Ok (x, h2)).
Proof.
  split.
  - intros rv src buf h h1 n Hw Hsz Hsrc Hbuf.
    destruct (Linkable.linked (Rivulet.link rv) h) eqn:Hl.
    + apply rivulet_write_inv in Hw
        as (l & L & r & st & off & n' & val & st' & Hc & HL & Hr & Hst & Hoff & Hn & Hval & Hst' & ->);
        [|exact Hl].
      assert (n' = n) as ->.
      { unfold Rivulet.size in Hsz. rewrite Hl, Hc in Hsz. unfold get_link in Hsz.
        heap_simpl in Hsz. rewrite HL in Hsz. heap_simpl in Hsz. rewrite Hn in Hsz.
        now injection Hsz. }
      assert (val = src) as ->.
      { rewrite <- Hsrc, read_bytes_all in Hval. now injection Hval. }
      destruct rv as [lk]. cbn [Rivulet.link] in *. subst lk.
      pose proof (write_bytes_inv _ _ _ _ Hst') as (Hle & Est' & _).
      eexists.
      apply (rivulet_read_linked l L r (take off st) src (drop (off + length src) st)).
      * now rewrite bracketed_links.
      * exact Hr.
      * rewrite bracketed_rivers. cbn [rivers with_rivers].
        rewrite list_lookup_insert_eq by (eapply lookup_lt_Some; exact Hst).
        now rewrite Est'.
      * rewrite length_take. rewrite Hoff. f_equal. lia.
      * now rewrite Hn, Hsrc.
      * now rewrite Hbuf, <- Hsrc.
    + unfold Rivulet.write in Hw. rewrite Hl in Hw. injection Hw as <-.
      unfold Rivulet.size in Hsz. rewrite Hl in Hsz. injection Hsz as <-.
      exists h. unfold Rivulet.read. rewrite Hl. cbn [negb].
      destruct src; [|discriminate]. destruct buf; [|discriminate]. reflexivity.
  - intros c x h h1 Hs Hl Hx.
    apply deserialize_inv in Hs
      as (l & L & r & st & off & val & st' & Hc & HL & Hr & Hst & Hoff & Hval & Hst' & ->);
      [|exact Hl].
    assert (val = x) as ->.
    { rewrite <- Hx, read_bytes_all in Hval. now injection Hval. }
    eexists. apply (get_linked c l L r st' off).
    + exact Hc.
    + now rewrite bracketed_links.
    + exact Hr.
    + rewrite bracketed_rivers. cbn [rivers with_rivers].
      now rewrite list_lookup_insert_eq by (eapply lookup_lt_Some; exact Hst).
    + exact Hoff.
    + rewrite <- Hx. exact (read_back st off x st' Hst').
Qed.

End handle_frame.

(** ** Calls of the builder that fail, and paths that name no node *)

Section builder_errors.
Import Builder.

(** A failing [channel] leaves the state as it is: [ERR_DUPE] comes after
    [insert_node] ran with [create = true], but the path of a channel
    exists already. *)
Lemma channel_failure_unchanged b path v c σ code c' σ' :
  channel b path v c σ = Ok (code, c', σ') -> code <> 0 -> σ' = σ.
Proof.
  intros H Hcode.
  unfold channel in H. destruct (tokenize_path path) as [ret tokens].
  destruct (negb (ret =? 0)); [now injection H as _ _ <-|].
  destruct (get_node (tree σ) (root b)) as [rn|] eqn:Hrn; [|discriminate].
  heap_simpl in H.
  destruct (insert_node_create tokens rn) as (p & m & Hp & Hm).
  pose proof (insert_node_fresh tokens rn p m) as Hfresh.
  pose proof (insert_node_existing tokens rn) as Hex.
  destruct (insert_node rn tokens true) as [rn' r]. simpl in Hp, Hm, Hfresh. subst r.
  heap_simpl in H. rewrite Hm in H. heap_simpl in H.
  destruct (channel_info m) as [ci|] eqn:Hci.
  - injection H as _ _ <-.
    destruct (snd (insert_node rn tokens false)) as [p0|] eqn:E0.
    + specialize (Hex p0 eq_refl). injection Hex as -> _.
      now rewrite (set_node_id _ _ _ Hrn), with_tree_id.
    + destruct (Hfresh eq_refl eq_refl Hm) as [Hnone _]. congruence.
  - destruct (match link _ with Some l => _ | None => _ end).
    injection H as <- _ _. contradiction.
Qed.

Lemma rivulet_failure_unchanged b path rv σ code rv' σ' :
  rivulet b path rv σ = Ok (code, rv', σ') -> code <> 0 -> σ' = σ.
Proof.
  intros H Hcode.
  unfold rivulet in H. destruct (tokenize_path path) as [ret tokens].
  destruct (negb (ret =? 0)); [now injection H as _ _ <-|].
  destruct (get_node (tree σ) (root b)) as [rn|] eqn:Hrn; [|discriminate].
  heap_simpl in H. rewrite (insert_node_lookup_eq rn tokens) in H.
  rewrite (set_node_id _ _ _ Hrn) in H.
  destruct (snd (insert_node rn tokens false)) as [p|];
    [|now injection H as _ _ <-; rewrite with_tree_id].
  destruct (get_node rn p) as [n|]; [|discriminate]. heap_simpl in H.
  destruct (match link n with Some l => _ | None => _ end).
  injection H as <- _ _. contradiction.
Qed.

Lemma lock_failure_unchanged b path lk σ code σ' :
  lock b path lk σ = Ok (code, σ') -> code <> 0 -> σ' = σ.
Proof.
  intros H Hcode.
  unfold lock in H. destruct (tokenize_path path) as [ret tokens].
  destruct (negb (ret =? 0)); [now injection H as _ <-|].
  destruct (get_node (tree σ) (root b)) as [rn|] eqn:Hrn; [|discriminate].
  heap_simpl in H. rewrite (insert_node_lookup_eq rn tokens) in H.
  rewrite (set_node_id _ _ _ Hrn), with_tree_id in H.
  destruct (snd (insert_node rn tokens false)) as [p|]; [|now injection H as _ <-].
  destruct (get_node rn p) as [n|]; [|discriminate]. heap_simpl in H.
  destruct (for_each_node check_for_locks n (heap σ)) as [[[ret' n'] h']|];
    [|discriminate].
  heap_simpl in H. destruct (negb (ret' =? 0)); [now injection H as _ <-|].
  destruct (for_each_node (assign_lock lk) n (heap σ)) as [r|]; [|discriminate].
  injection H as <- _. contradiction.
Qed.

Lemma sub_failure_unchanged b path b0 σ code b' σ' :
  sub b path b0 σ = Ok (code, b', σ') -> code <> 0 -> σ' = σ /\ b' = b0.
Proof.
  intros H Hcode.
  unfold sub in H. destruct (tokenize_path path) as [ret tokens].
  destruct (negb (ret =? 0)); [now injection H as _ <- <-|].
  destruct (get_node (tree σ) (root b)) as [rn|]; [|discriminate].
  heap_simpl in H. destruct (insert_node rn tokens true) as [rn' [p|]]; [|discriminate].
  injection H as <- _ _. contradiction.
Qed.

Lemma build_failure_unchanged b σ code rr σ' :
  build b σ = Ok (code, rr, σ') -> code <> 0 -> σ' = σ /\ rr = None.
Proof.
  intros H Hcode.
  unfold build in H. destruct (negb (is_root b)); [now injection H as _ <- <-|].
  cbn [new_river] in H.
  destruct (get_node (tree σ) (root b)) as [rn|]; [|discriminate].
  heap_simpl in H. destruct (build_node rn _ _) as [h2|]; [|discriminate].
  heap_simpl in H. destruct (for_each_node remove_link rn tt) as [r|]; [|discriminate].
  injection H as <- _ _. contradiction.
Qed.

(** X9.  A call of [channel], [rivulet], [lock], [sub] or [build] that
    returns an error code has changed nothing: the tree and the heap are
    as before, the caller's handle or builder is as it was passed, and
    [build] hands no river back.  For [channel] this covers [ERR_DUPE],
    which is returned after [insert_node] ran with [create = true]. *)
Theorem failed_calls_change_nothing :
  (forall b path v c σ code c' σ',
     channel b path v c σ = Ok (code, c', σ') -> code <> 0 -> σ' = σ /\ c' = c)
  /\ (forall b path rv σ code rv' σ',
     rivulet b path rv σ = Ok (code, rv', σ') -> code <> 0 -> σ' = σ /\ rv' = rv)
  /\ (forall b path lk σ code σ',
     lock b path lk σ = Ok (code, σ') -> code <> 0 -> σ' = σ)
  /\ (forall b path b0 σ code b' σ',
     sub b path b0 σ = Ok (code, b', σ') -> code <> 0 -> σ' = σ /\ b' = b0)
  /\ (forall b σ code rr σ',
     build b σ = Ok (code, rr, σ') -> code <> 0 -> σ' = σ /\ rr = None).
Proof.
  repeat apply conj.
  - intros b path v c σ code c' σ' H Hcode. split.
    + exact (channel_failure_unchanged _ _ _ _ _ _ _ _ H Hcode).
    + exact (channel_failure_keeps_handle _ _ _ _ _ _ _ _ H Hcode).
  - intros b path rv σ code rv' σ' H Hcode. split.
    + exact (rivulet_failure_unchanged _ _ _ _ _ _ _ H Hcode).
    + exact (rivulet_failure_keeps_handle _ _ _ _ _ _ _ H Hcode).
  - intros b path lk σ code σ'. apply lock_failure_unchanged.
  - intros b path b0 σ code b' σ'. apply sub_failure_unchanged.
  - intros b σ code rr σ'. apply build_failure_unchanged.
Qed.

(** X10.  On an accepted path that names no node below the root of the
    builder, [rivulet] and [lock] return [ERR_NOTFOUND] and create
    nothing: the state is as before and the handle as it was passed. *)
Theorem missing_path_is_not_found b path tokens σ :
  tokenize_path path = (0, tokens) ->
  is_Some (get_node (tree σ) (root b)) ->
  subtree_at b tokens σ = None ->
  (forall rv, rivulet b path rv σ = Ok (ERR_NOTFOUND, rv, σ))
  /\ (forall lk, lock b path lk σ = Ok (ERR_NOTFOUND, σ)).
Proof.
  intros Htok [rn Hrn] Hnone. unfold subtree_at in Hnone. rewrite Hrn in Hnone.
  assert (Hp : snd (insert_node rn tokens false) = None).
  { destruct (snd (insert_node rn tokens false)) as [p|] eqn:E; [|reflexivity].
    destruct (proj2 (insert_node_lookup tokens rn) p E) as [m Hm]. congruence. }
  split.
  - intros rv. unfold rivulet. rewrite Htok. cbn [negb Z.eqb]. rewrite Hrn.
    heap_simpl. rewrite (insert_node_lookup_eq rn tokens), Hp.
    now rewrite (set_node_id _ _ _ Hrn), with_tree_id.
  - intros lk. unfold lock. rewrite Htok. cbn [negb Z.eqb]. rewrite Hrn.
    heap_simpl. rewrite (insert_node_lookup_eq rn tokens), Hp.
    now rewrite (set_node_id _ _ _ Hrn), with_tree_id.
Qed.

Lemma missing_path_is_not_found_witness :
  rivulet (fst new_builder) "a.b" Rivulet.unbound (snd new_builder)
  = Ok (ERR_NOTFOUND, Rivulet.unbound, snd new_builder)
  /\ lock (fst new_builder) "a.b" (Some 0%nat) (snd new_builder)
     = Ok (ERR_NOTFOUND, snd new_builder).
Proof.
  pose proof (missing_path_is_not_found (fst new_builder) "a.b" ["a"; "b"]%string
                (snd new_builder) eq_refl (ex_intro _ _ eq_refl) eq_refl) as [H1 H2].
  split; [apply H1 | apply H2].
Defined.




Lemma lock_all_null ls : forall lks,
  Forall (fun l => forall L, lks !! l = Some L -> Link.lock L = None) ls ->
  lock_all None ls lks = lks.
Proof.
  induction ls as [|l ls IH]; intros lks Hall; [reflexivity|].
  apply Forall_cons in Hall as [Hl Hall]. unfold lock_all in *. cbn [foldl].
  assert (E : alter (Link.set_lock None) l lks = lks).
  { rewrite (list_alter_ext (Link.set_lock None) id lks lks l).
    - now apply list_alter_id.
    - intros L HL. specialize (Hl L HL). destruct L. cbn in *. now subst.
    - reflexivity. }
  rewrite E. now apply IH.
Qed.

(** X12.  [lock] with a null lock pointer on a subtree that is linked and
    holds no lock returns 0 and records nothing: the state is as before,
    so a later [lock] on the same subtree is not refused. *)
Theorem lock_with_null_pointer b path tokens σ n :
  tokenize_path path = (0, tokens) ->
  subtree_at b tokens σ = Some n ->
  NoDup (node_links (tree σ)) ->
  all_linked (heap σ) n -> unlocked (heap σ) n ->
  lock b path None σ = Ok (0, σ)
  /\ forall lk, exists σ', lock b path lk σ = Ok (0, σ') /\ locked_by (heap σ') lk n.
Proof.
  intros Htok Hn Hnd Hl Hu.
  pose proof (subtree_node_links_NoDup _ _ _ _ Hnd Hn) as Hndn.
  split.
  - rewrite (lock_ok _ _ _ _ _ _ Htok Hn Hl Hu Hndn).
    rewrite lock_all_null.
    + now rewrite with_links_id, with_heap_id.
    + apply Forall_forall. intros l Hin L HL.
      apply list_elem_of_omap in Hin as (m & Hm & Hlm).
      unfold unlocked in Hu. rewrite Forall_forall in Hu.
      apply (Hu m Hm). unfold link_of. now rewrite Hlm.
  - intros lk. eexists. split; [exact (lock_ok _ _ _ _ _ _ Htok Hn Hl Hu Hndn)|].
    cbn [heap with_heap]. now apply locked_by_lock_all.
Qed.

Lemma lock_with_null_pointer_witness :
  lock (fst new_builder) "b" None demo_abx = Ok (0, demo_abx).
Proof.
  refine (proj1 (lock_with_null_pointer (fst new_builder) "b" ["b"]%string demo_abx
                   (mkNode "b" (Some (mkChannelInfo [Byte.x03])) (Some 2%nat) [])
                   eq_refl eq_refl _ _ _)).
  - change (NoDup [0; 1; 2]%nat). apply (bool_decide_unpack _). exact I.
  - repeat constructor. eexists. reflexivity.
  - repeat constructor. intros L. cbn. now intros [= <-].
Defined.

End builder_errors.

(** ** The shape of the state after each call of the builder *)

Section call_shapes.
Import Builder.

(** [channel] that returned 0: the node at the end of the path, made if
    need be, has become a channel of the value, with the Link it had or a
    new one. *)
Lemma channel_shape b path v c σ c' σ' :
  channel b path v c σ = Ok (0, c', σ') ->
  exists tokens rn rn' p n0 l,
    tokenize_path path = (0, tokens)
    /\ get_node (tree σ) (root b) = Some rn
    /\ insert_node rn tokens true = (rn', Some p)
    /\ get_node rn' p = Some n0 /\ channel_info n0 = None
    /\ c' = Channel.mk (Some l) (Channel.size c)
    /\ tree σ' = set_node (tree σ) (root b)
                   (set_node rn' p
                      (mkNode (name n0) (Some (mkChannelInfo v)) (Some l) (children n0)))
    /\ ((link n0 = Some l /\ heap σ' = heap σ)
        \/ (link n0 = None /\ l = length (links (heap σ))
            /\ heap σ' = snd (new_link (heap σ)))).
Proof.
  intros H. unfold channel in H.
  destruct (tokenize_path path) as [ret tokens] eqn:Htok.
  destruct (ret =? 0) eqn:Eret; cbn [negb] in H.
  2:{ injection H as -> _ _. discriminate. }
  apply Z.eqb_eq in Eret as ->.
  destruct (get_node (tree σ) (root b)) as [rn|] eqn:Hrn; [|discriminate].
  heap_simpl in H.
  destruct (insert_node_create tokens rn) as (p & n0 & Hp & Hn0).
  pose proof (insert_node_then_lookup tokens rn true) as Hlook.
  destruct (insert_node rn tokens true) as [rn' r] eqn:E. simpl in Hp, Hn0, Hlook.
  subst r. heap_simpl in H. rewrite Hn0 in H. heap_simpl in H.
  destruct (channel_info n0) as [ci|] eqn:Hci; [discriminate|].
  pose proof (tokenize_path_nonempty _ _ Htok) as Hne.
  pose proof (lookup_name tokens rn' p n0 Hne Hlook Hn0) as Hname.
  rewrite <- Hname in H.
  assert (Hroot' : get_node (set_node (tree σ) (root b) rn') (root b) = Some rn')
    by (eapply get_set_node; exact Hrn).
  revert H. cbn [link with_channel_info with_name with_link name channel_info children].
  destruct (link n0) as [l0|] eqn:El0; cbn [new_link];
    rewrite (set_node_app _ _ _ _ rn' Hroot'), set_set_node; intros [= <- <-].
  - exists tokens, rn, rn', p, n0, l0. repeat (split; [reflexivity || assumption|]).
    left. auto.
  - exists tokens, rn, rn', p, n0, (length (links (heap σ))).
    repeat (split; [reflexivity || assumption|]). right. auto.
Qed.

(** [rivulet] that returned 0: the node at the path has the Link it had
    or a new one, and nothing else has changed. *)
Lemma rivulet_shape b path rv σ rv' σ' :
  rivulet b path rv σ = Ok (0, rv', σ') ->
  exists tokens rn p n l,
    tokenize_path path = (0, tokens)
    /\ get_node (tree σ) (root b) = Some rn
    /\ snd (insert_node rn tokens false) = Some p
    /\ get_node rn p = Some n
    /\ rv' = Rivulet.mk (Some l)
    /\ tree σ' = set_node (tree σ) (root b ++ p) (with_link n (Some l))
    /\ ((link n = Some l /\ heap σ' = heap σ)
        \/ (link n = None /\ l = length (links (heap σ))
            /\ heap σ' = snd (new_link (heap σ)))).
Proof.
  intros H. unfold rivulet in H.
  destruct (tokenize_path path) as [ret tokens] eqn:Htok.
  destruct (ret =? 0) eqn:Eret; cbn [negb] in H.
  2:{ injection H as -> _ _. discriminate. }
  apply Z.eqb_eq in Eret as ->.
  destruct (get_node (tree σ) (root b)) as [rn|] eqn:Hrn; [|discriminate].
  heap_simpl in H. rewrite (insert_node_lookup_eq rn tokens) in H.
  rewrite (set_node_id _ _ _ Hrn) in H.
  destruct (snd (insert_node rn tokens false)) as [p|] eqn:Hp; [|discriminate].
  destruct (get_node rn p) as [n|] eqn:Hn; [|discriminate]. heap_simpl in H.
  destruct (link n) as [l0|] eqn:El0; cbn [new_link] in H; injection H as <- <-.
  - exists tokens, rn, p, n, l0. repeat (split; [reflexivity || assumption|]).
    left. auto.
  - exists tokens, rn, p, n, (length (links (heap σ))).
    repeat (split; [reflexivity || assumption|]). right. auto.
Qed.

(** [sub] that returned 0: the path was inserted below the root of the
    builder, and the new builder points to its end. *)
Lemma sub_shape b path b0 σ b' σ' :
  sub b path b0 σ = Ok (0, b', σ') ->
  exists tokens rn rn' p,
    tokenize_path path = (0, tokens)
    /\ get_node (tree σ) (root b) = Some rn
    /\ insert_node rn tokens true = (rn', Some p)
    /\ b' = mk (root b ++ p) false
    /\ σ' = with_tree σ (set_node (tree σ) (root b) rn').
Proof.
  intros H. unfold sub in H.
  destruct (tokenize_path path) as [ret tokens] eqn:Htok.
  destruct (ret =? 0) eqn:Eret; cbn [negb] in H.
  2:{ injection H as -> _ _. discriminate. }
  apply Z.eqb_eq in Eret as ->.
  destruct (get_node (tree σ) (root b)) as [rn|] eqn:Hrn; [|discriminate].
  heap_simpl in H.
  destruct (insert_node rn tokens true) as [rn' [p|]] eqn:E; [|discriminate].
  heap_simpl in H. injection H as <- <-.
  exists tokens, rn, rn', p. repeat split; solve [reflexivity | assumption].
Qed.

(** [build] on a builder with [is_root] set: a new river, [build_node] on
    the subtree of the builder, and every Link of that subtree detached. *)
Lemma build_shape b σ code rr σ' :
  is_root b = true ->
  build b σ = Ok (code, rr, σ') ->
  exists rn,
    get_node (tree σ) (root b) = Some rn
    /\ code = 0 /\ rr = Some (length (rivers (heap σ)))
    /\ tree σ' = set_node (tree σ) (root b) (strip_links rn)
    /\ build_node rn (length (rivers (heap σ))) (with_new_river (heap σ))
       = Ok (heap σ').
Proof.
  intros Hroot H. unfold build in H. rewrite Hroot in H. cbn [negb new_river] in H.
  destruct (get_node (tree σ) (root b)) as [rn|] eqn:Hrn; [|discriminate].
  heap_simpl in H. unfold with_new_river. cbn [new_river snd].
  destruct (build_node rn _ _) as [h2|] eqn:Hb; [|discriminate]. heap_simpl in H.
  rewrite for_each_node_remove_link in H. heap_simpl in H.
  injection H as <- <- <-. exists rn. repeat split; solve [reflexivity | assumption].
Qed.

Lemma flat_map_insert_sublist {A B} (f : A -> list B) cs i c c' :
  cs !! i = Some c -> f c' `sublist_of` f c ->
  flat_map f (<[i := c']> cs) `sublist_of` flat_map f cs.
Proof.
  revert i. induction cs as [|d cs IH]; intros [|i]; simpl; try discriminate.
  - intros [= ->] Hs. now apply sublist_app.
  - intros Hc Hs. apply sublist_app; [reflexivity | now apply IH].
Qed.

(** Storing a node with fewer Links through a pointer leaves the tree
    with fewer Links. *)
Lemma set_node_links_sublist p : forall t m m',
  get_node t p = Some m ->
  node_links m' `sublist_of` node_links m ->
  node_links (set_node t p m') `sublist_of` node_links t.
Proof.
  induction p as [|i p IH]; intros t m m'; simpl.
  - now intros [= ->].
  - destruct (children t !! i) as [c|] eqn:E; [|discriminate].
    intros Hm Hs. rewrite (node_links_unfold t), node_links_unfold.
    cbn [link children with_children].
    apply sublist_app; [reflexivity|].
    eapply flat_map_insert_sublist; [exact E|]. eapply IH; eassumption.
Qed.

(** [build] keeps to [wf], from whatever builder it is called. *)
Lemma wf_build_any b σ code rr σ' :
  wf σ -> build b σ = Ok (code, rr, σ') -> wf σ'.
Proof.
  intros Hwf H. destruct (is_root b) eqn:Hroot.
  2:{ unfold build in H. rewrite Hroot in H. now injection H as _ _ <-. }
  destruct (build_shape _ _ _ _ _ Hroot H) as (rn & Hrn & _ & _ & Ht & Hb).
  destruct Hwf as [Hnd Halloc].
  assert (Hsub : node_links (tree σ') `sublist_of` node_links (tree σ)).
  { rewrite Ht. eapply set_node_links_sublist; [exact Hrn|].
    rewrite node_links_strip. apply sublist_nil_l. }
  assert (Hndrn : NoDup (node_links rn)).
  { eapply sublist_NoDup; [exact Hnd|]. eapply node_links_sublist; exact Hrn. }
  destruct (build_node_post rn _ _ _ [] Hndrn (new_river_lookup (heap σ)) Hb)
    as [(_ & _ & Hlen & _) _].
  split.
  - eapply sublist_NoDup; [exact Hnd | exact Hsub].
  - intros l Hl. rewrite Hlen. unfold with_new_river. cbn [new_river snd links with_rivers].
    apply Halloc. eapply elem_of_sublist; eassumption.
Qed.

(** The handle operations leave every Link as it is. *)
Lemma get_links c h v h' : Channel.get c h = Ok (v, h') -> links h' = links h.
Proof.
  intros H. destruct (Linkable.linked (Channel.link c) h) eqn:Hl.
  - apply serialize_inv in H as (l & L & r & st & off & src & _ & _ & _ & _ & _ & _ & _ & ->);
      [|exact Hl].
    apply bracketed_links.
  - unfold Channel.get, Channel.serialize in H. rewrite Hl in H. now injection H as _ <-.
Qed.

Lemma set_links c x h h' : Channel.set c x h = Ok h' -> links h' = links h.
Proof.
  intros H. destruct (Linkable.linked (Channel.link c) h) eqn:Hl.
  - apply deserialize_inv in H
      as (l & L & r & st & off & val & st' & _ & _ & _ & _ & _ & _ & _ & ->); [|exact Hl].
    now rewrite bracketed_links.
  - unfold Channel.set, Channel.deserialize in H. rewrite Hl in H. now injection H as <-.
Qed.

Lemma read_links rv dest h d h' :
  Rivulet.read rv dest h = Ok (d, h') -> links h' = links h.
Proof.
  intros H. destruct dest as [buf|]; [|now injection H as _ <-].
  destruct (Linkable.linked (Rivulet.link rv) h) eqn:Hl.
  - apply rivulet_read_inv in H
      as (l & L & r & st & off & n & src & buf' & _ & _ & _ & _ & _ & _ & _ & _ & _ & ->);
      [|exact Hl].
    apply bracketed_links.
  - unfold Rivulet.read in H. rewrite Hl in H. now injection H as _ <-.
Qed.

Lemma write_links rv src h h' :
  Rivulet.write rv src h = Ok h' -> links h' = links h.
Proof.
  intros H. destruct src as [buf|]; [|now injection H as <-].
  destruct (Linkable.linked (Rivulet.link rv) h) eqn:Hl.
  - apply rivulet_write_inv in H
      as (l & L & r & st & off & n & val & st' & _ & _ & _ & _ & _ & _ & _ & _ & ->);
      [|exact Hl].
    now rewrite bracketed_links.
  - unfold Rivulet.write in H. rewrite Hl in H. now injection H as <-.
Qed.

(** What a call does to the tree when it is a call on a handle: nothing. *)
Lemma run_call_handle_tree k σ σ' :
  match k with
  | CallGet _ | CallSet _ _ | CallRead _ _ | CallWrite _ _ => True
  | _ => False
  end ->
  run_call k σ = Ok σ' ->
  tree σ' = tree σ /\ links (heap σ') = links (heap σ).
Proof.
  destruct k as [b path v c|b path rv|b path lock|b path b0|b|c|c val|rv dest|rv src];
    try contradiction; intros _; cbn [run_call].
  - destruct (Channel.get c (heap σ)) as [[v h']|] eqn:E; [|discriminate].
    intros [= <-]. split; [reflexivity|]. eapply get_links; exact E.
  - destruct (Channel.set c val (heap σ)) as [h'|] eqn:E; [|discriminate].
    intros [= <-]. split; [reflexivity|]. eapply set_links; exact E.
  - destruct (Rivulet.read rv dest (heap σ)) as [[d h']|] eqn:E; [|discriminate].
    intros [= <-]. split; [reflexivity|]. eapply read_links; exact E.
  - destruct (Rivulet.write rv src (heap σ)) as [h'|] eqn:E; [|discriminate].
    intros [= <-]. split; [reflexivity|]. eapply write_links; exact E.
Qed.

Lemma wf_run_call k σ σ' : wf σ -> run_call k σ = Ok σ' -> wf σ'.
Proof.
  intros Hwf.
  destruct k as [b path v c|b path rv|b path lock|b path b0|b|c|c val|rv dest|rv src];
    cbn [run_call].
  - destruct (channel b path v c σ) as [[[code c'] σ1]|] eqn:E; [|discriminate].
    intros [= <-]. eapply wf_channel; eassumption.
  - destruct (rivulet b path rv σ) as [[[code rv'] σ1]|] eqn:E; [|discriminate].
    intros [= <-]. eapply wf_rivulet; eassumption.
  - destruct (Builder.lock b path lock σ) as [[code σ1]|] eqn:E; [|discriminate].
    intros [= <-]. eapply wf_lock; eassumption.
  - destruct (sub b path b0 σ) as [[[code b'] σ1]|] eqn:E; [|discriminate].
    intros [= <-]. eapply wf_sub; eassumption.
  - destruct (build b σ) as [[[code rr] σ1]|] eqn:E; [|discriminate].
    intros [= <-]. eapply wf_build_any; eassumption.
  - intros H. destruct (run_call_handle_tree (CallGet c) σ σ' I H) as [Ht Hl].
    destruct Hwf as [Hnd Halloc]. split; rewrite Ht; [exact Hnd|].
    intros l Hin. rewrite Hl. now apply Halloc.
  - intros H. destruct (run_call_handle_tree (CallSet c val) σ σ' I H) as [Ht Hl].
    destruct Hwf as [Hnd Halloc]. split; rewrite Ht; [exact Hnd|].
    intros l Hin. rewrite Hl. now apply Halloc.
  - intros H. destruct (run_call_handle_tree (CallRead rv dest) σ σ' I H) as [Ht Hl].
    destruct Hwf as [Hnd Halloc]. split; rewrite Ht; [exact Hnd|].
    intros l Hin. rewrite Hl. now apply Halloc.
  - intros H. destruct (run_call_handle_tree (CallWrite rv src) σ σ' I H) as [Ht Hl].
    destruct Hwf as [Hnd Halloc]. split; rewrite Ht; [exact Hnd|].
    intros l Hin. rewrite Hl. now apply Halloc.
Qed.

Lemma wf_run_calls ks : forall σ σ', wf σ -> run_calls ks σ = Ok σ' -> wf σ'.
Proof.
  induction ks as [|k ks IH]; intros σ σ' Hwf; cbn [run_calls].
  - now intros [= <-].
  - destruct (run_call k σ) as [σ1|] eqn:E; [|discriminate]. cbn [obind].
    apply IH. eapply wf_run_call; eassumption.
Qed.

(** X13.  Whatever a program calls on the builders of a tree and on the
    handles, starting from a new builder, as long as the calls return: no
    two nodes of the tree ever point to the same Link, and every Link the
    tree points to is allocated. *)
Theorem builder_keeps_links_distinct ks σ :
  run_calls ks (snd new_builder) = Ok σ ->
  NoDup (node_links (tree σ))
  /\ forall l, l ∈ node_links (tree σ) -> (l < length (links (heap σ)))%nat.
Proof. intros H. exact (wf_run_calls ks _ _ wf_new_builder H). Qed.

Lemma builder_keeps_links_distinct_witness :
  NoDup (node_links (tree demo_readme_built))
  /\ NoDup (node_links (tree demo_foo)).
Proof.
  split.
  - exact (proj1 (builder_keeps_links_distinct
             [CallChannel (fst new_builder) "system.time" (repeat Byte.x00 8)
                (Channel.unbound 8);
              CallChannel (fst new_builder) "system.abort" [Byte.x00] (Channel.unbound 1);
              CallChannel (fst new_builder) "control.pressure" (repeat Byte.x11 8)
                (Channel.unbound 8);
              CallChannel (fst new_builder) "control.pressure.valid" [Byte.x01]
                (Channel.unbound 1);
              CallChannel (fst new_builder) "control.valve_open" [Byte.x00]
                (Channel.unbound 1);
              CallRivulet (fst new_builder) "control" Rivulet.unbound;
              CallBuild (fst new_builder)]
             demo_readme_built eq_refl)).
  - exact (proj1 (builder_keeps_links_distinct
             [CallChannel (fst new_builder) "foo" [Byte.x2a; Byte.x01] (Channel.unbound 2)]
             demo_foo eq_refl)).
Defined.

End call_shapes.

(** ** Builders handed out by [sub] *)

Section sub_builders.
Import Builder.

Lemma fmap_app_nil (r : option (list nat)) : (fun p2 => [] ++ p2) <$> r = r.
Proof. now destruct r. Qed.

Lemma fmap_cons_app i (q : list nat) (r : option (list nat)) :
  cons i <$> ((fun p2 => q ++ p2) <$> r) = (fun p2 => (i :: q) ++ p2) <$> r.
Proof. now destruct r. Qed.

(** Inserting or looking up a path that goes through a node that exists
    is inserting or looking up the rest of the path from that node. *)
Lemma insert_node_below t1 : forall n p1 m t2 create,
  snd (insert_node n t1 false) = Some p1 -> get_node n p1 = Some m ->
  insert_node n (t1 ++ t2) create
  = (set_node n p1 (fst (insert_node m t2 create)),
     (fun p2 => p1 ++ p2) <$> snd (insert_node m t2 create)).
Proof.
  induction t1 as [|t rest IH]; intros n p1 m t2 create.
  - simpl. intros [= <-]. simpl. intros [= <-]. rewrite fmap_app_nil.
    now destruct (insert_node n t2 create).
  - cbn [insert_node app].
    destruct (find_child t (children n)) as [[i c]|] eqn:E; [|discriminate].
    pose proof (find_child_Some _ _ _ _ E) as [Ei _].
    destruct (insert_node c rest false) as [c1 [q|]] eqn:E1; [|discriminate].
    simpl. intros [= <-]. simpl. rewrite Ei. intros Hm.
    assert (Hq : snd (insert_node c rest false) = Some q) by now rewrite E1.
    rewrite (IH c q m t2 create Hq Hm).
    now rewrite fmap_cons_app.
Qed.

Lemma last_app_ne {A} (l l' : list A) d : l' <> [] -> List.last (l ++ l') d = List.last l' d.
Proof.
  intros Hne. induction l as [|x l IH]; [reflexivity|].
  simpl. destruct (l ++ l') eqn:E; [|exact IH].
  apply app_eq_nil in E as [_ ->]. contradiction.
Qed.

Lemma stands_at_node b ts σ :
  stands_at b ts σ -> exists m, get_node (tree σ) (root b) = Some m.
Proof.
  intros H. destruct (proj2 (insert_node_lookup ts (tree σ)) _ H) as [m Hm]. now exists m.
Qed.

Lemma tokenize_joined ts q tq :
  Forall token_ok ts -> tokenize_path q = (0, tq) ->
  tokenize_path (join (ts ++ tq)) = (0, ts ++ tq) /\ tq <> [].
Proof.
  intros Hts Hq. destruct (tokenize_path_tokens_ok _ _ Hq) as [Hne Hok].
  split; [|exact Hne].
  apply tokenize_path_accepts.
  - intros E. apply app_eq_nil in E as [_ ->]. contradiction.
  - now apply Forall_app.
Qed.

(** The four declarations through a builder that stands at [ts] are the
    declarations of the root builder on the joined path. *)
Lemma channel_relative b ts σ q tq v c :
  stands_at b ts σ -> Forall token_ok ts -> tokenize_path q = (0, tq) ->
  channel b q v c σ = channel (fst new_builder) (join (ts ++ tq)) v c σ.
Proof.
  intros Hb Hts Hq. destruct (stands_at_node _ _ _ Hb) as [m Hm].
  destruct (tokenize_joined ts q tq Hts Hq) as [Hj Hne].
  unfold channel. rewrite Hq, Hj. cbn [negb Z.eqb new_builder fst root get_node].
  rewrite Hm. heap_simpl.
  rewrite (insert_node_below ts (tree σ) (root b) m tq true Hb Hm).
  destruct (insert_node_create tq m) as (p2 & n0 & Hp2 & Hn0).
  destruct (insert_node m tq true) as [m' r]. cbn [fst snd] in *. subst r.
  cbn [fmap option_fmap option_map]. heap_simpl.
  rewrite get_node_app, (get_set_node _ _ _ _ Hm), Hn0. heap_simpl.
  cbn [set_node app]. rewrite (last_app_ne ts tq EmptyString Hne).
  reflexivity.
Qed.

Lemma rivulet_relative b ts σ q tq rv :
  stands_at b ts σ -> Forall token_ok ts -> tokenize_path q = (0, tq) ->
  rivulet b q rv σ = rivulet (fst new_builder) (join (ts ++ tq)) rv σ.
Proof.
  intros Hb Hts Hq. destruct (stands_at_node _ _ _ Hb) as [m Hm].
  destruct (tokenize_joined ts q tq Hts Hq) as [Hj Hne].
  unfold rivulet. rewrite Hq, Hj. cbn [negb Z.eqb new_builder fst root get_node].
  rewrite Hm. heap_simpl.
  rewrite (insert_node_below ts (tree σ) (root b) m tq false Hb Hm).
  rewrite (insert_node_lookup_eq m tq). cbn [fst snd].
  rewrite (set_node_id _ _ _ Hm). cbn [set_node].
  destruct (snd (insert_node m tq false)) as [p2|]; cbn [fmap option_fmap option_map];
    [|reflexivity].
  rewrite get_node_app, Hm. reflexivity.
Qed.

Lemma lock_relative b ts σ q tq lk :
  stands_at b ts σ -> Forall token_ok ts -> tokenize_path q = (0, tq) ->
  lock b q lk σ = lock (fst new_builder) (join (ts ++ tq)) lk σ.
Proof.
  intros Hb Hts Hq. destruct (stands_at_node _ _ _ Hb) as [m Hm].
  destruct (tokenize_joined ts q tq Hts Hq) as [Hj Hne].
  unfold lock. rewrite Hq, Hj. cbn [negb Z.eqb new_builder fst root get_node].
  rewrite Hm. heap_simpl.
  rewrite (insert_node_below ts (tree σ) (root b) m tq false Hb Hm).
  rewrite (insert_node_lookup_eq m tq). cbn [fst snd].
  rewrite (set_node_id _ _ _ Hm). cbn [set_node].
  destruct (snd (insert_node m tq false)) as [p2|]; cbn [fmap option_fmap option_map];
    [|reflexivity].
  rewrite get_node_app, Hm. reflexivity.
Qed.

Lemma sub_relative b ts σ q tq b0 :
  stands_at b ts σ -> Forall token_ok ts -> tokenize_path q = (0, tq) ->
  sub b q b0 σ = sub (fst new_builder) (join (ts ++ tq)) b0 σ.
Proof.
  intros Hb Hts Hq. destruct (stands_at_node _ _ _ Hb) as [m Hm].
  destruct (tokenize_joined ts q tq Hts Hq) as [Hj Hne].
  unfold sub. rewrite Hq, Hj. cbn [negb Z.eqb new_builder fst root get_node].
  rewrite Hm. heap_simpl.
  rewrite (insert_node_below ts (tree σ) (root b) m tq true Hb Hm).
  destruct (insert_node m tq true) as [m' [p2|]]; cbn [fmap option_fmap option_map];
    reflexivity.
Qed.

(** The builder that [sub] hands out stands at the path. *)
Lemma sub_stands_at b ts σ q tq b0 b' σ' :
  stands_at b ts σ -> tokenize_path q = (0, tq) ->
  sub b q b0 σ = Ok (0, b', σ') ->
  stands_at b' (ts ++ tq) σ' /\ is_root b' = false.
Proof.
  intros Hb Hq H. destruct (stands_at_node _ _ _ Hb) as [m Hm].
  destruct (sub_shape _ _ _ _ _ _ H) as (tokens & rn & rn' & p & Htok & Hrn & E & -> & ->).
  assert (tokens = tq) as -> by congruence.
  assert (rn = m) as -> by congruence.
  split; [|reflexivity]. unfold stands_at. cbn [tree with_tree root].
  pose proof (insert_node_below ts (tree σ) (root b) m tq true Hb Hm) as Hins.
  rewrite E in Hins. cbn [fst snd fmap option_fmap option_map] in Hins.
  pose proof (insert_node_then_lookup (ts ++ tq) (tree σ) true) as Hlook.
  rewrite Hins in Hlook. exact Hlook.
Qed.

(** X14.  Paths given to a builder are relative to the node it stands at.
    For a builder that stands at the tokens [ts] (the root builder, with
    no token, or a builder handed out by [sub]), every call of [channel],
    [rivulet], [lock] and [sub] with a path of tokens [tq] is the same call
    on the root builder with the tokens [ts] and [tq] joined by dots: same
    code, same handle, same state.  The builder that [sub] hands out then
    stands at [ts] followed by [tq], and is not a root builder. *)
Theorem sub_builder_paths_are_relative b ts σ q tq :
  stands_at b ts σ -> Forall token_ok ts -> tokenize_path q = (0, tq) ->
  (forall v c, channel b q v c σ = channel (fst new_builder) (join (ts ++ tq)) v c σ)
  /\ (forall rv, rivulet b q rv σ = rivulet (fst new_builder) (join (ts ++ tq)) rv σ)
  /\ (forall lk, lock b q lk σ = lock (fst new_builder) (join (ts ++ tq)) lk σ)
  /\ (forall b0, sub b q b0 σ = sub (fst new_builder) (join (ts ++ tq)) b0 σ)
  /\ (forall b0 b' σ', sub b q b0 σ = Ok (0, b', σ') ->
        stands_at b' (ts ++ tq) σ' /\ is_root b' = false).
Proof.
  intros Hb Hts Hq. repeat apply conj.
  - intros v c. now apply channel_relative.
  - intros rv. now apply rivulet_relative.
  - intros lk. now apply lock_relative.
  - intros b0. now apply sub_relative.
  - intros b0 b' σ'. now apply sub_stands_at.
Qed.

(** ** Lookups are kept by every call *)

Lemma keeps_paths_refl n : keeps_paths n n.
Proof. split; auto. Qed.

Lemma keeps_paths_trans a b c : keeps_paths a b -> keeps_paths b c -> keeps_paths a c.
Proof.
  intros [N1 P1] [N2 P2]. split; [congruence|]. intros q pq H. now apply P2, P1.
Qed.

(** A lookup of a non-empty path looks at the children only. *)
Lemma keeps_paths_fields m m' :
  name m' = name m -> children m' = children m -> keeps_paths m m'.
Proof.
  intros Hn Hc. split; [exact Hn|]. intros [|u q'] pq; [auto|].
  cbn [insert_node]. rewrite Hc.
  destruct (find_child u (children m)) as [[j cj]|]; [|discriminate].
  now destruct (insert_node cj q' false).
Qed.

Lemma keeps_paths_insert path n create : keeps_paths n (fst (insert_node n path create)).
Proof.
  destruct create.
  - split; [apply name_insert_node|]. intros q pq Hq.
    destruct (proj2 (insert_node_lookup q n) pq Hq) as [mq Hmq].
    exact (proj1 (insert_node_frame path n q pq mq Hq Hmq)).
  - rewrite (proj1 (insert_node_lookup path n)). apply keeps_paths_refl.
Qed.

Lemma keeps_paths_set_node p : forall t m m',
  get_node t p = Some m -> keeps_paths m m' -> keeps_paths t (set_node t p m').
Proof.
  induction p as [|i p IH]; intros t m m'; simpl.
  - now intros [= ->].
  - destruct (children t !! i) as [c|] eqn:Ei; [|discriminate].
    intros Hm Hk. destruct (IH c m m' Hm Hk) as [Hname Hpaths].
    split; [reflexivity|]. intros [|u q'] pq; [auto|].
    cbn [insert_node children with_children].
    destruct (find_child u (children t)) as [[j cj]|] eqn:Eu; [|discriminate].
    rewrite (find_child_insert_other u _ i j cj c _ Eu Ei Hname).
    destruct (insert_node cj q' false) as [c1 [pq'|]] eqn:E1; [|discriminate].
    cbn [snd fmap option_fmap option_map]. intros [= <-].
    destruct (decide (j = i)) as [->|Hne].
    + apply find_child_Some in Eu as [Ej _]. assert (cj = c) by congruence. subst cj.
      assert (Hq : snd (insert_node c q' false) = Some pq') by now rewrite E1.
      specialize (Hpaths q' pq' Hq).
      destruct (insert_node (set_node c p m') q' false) as [c2 r2].
      cbn [snd] in *. now subst r2.
    + now rewrite E1.
Qed.

Lemma find_child_map (f : Node -> Node) u cs j cj :
  (forall c, name (f c) = name c) ->
  find_child u cs = Some (j, cj) -> find_child u (map f cs) = Some (j, f cj).
Proof.
  intros Hf. revert j. induction cs as [|d cs IH]; intros j; simpl; [discriminate|].
  rewrite Hf. destruct (String.eqb (name d) u); [now intros [= <- <-]|].
  destruct (find_child u cs) as [[j' e]|]; [|discriminate].
  intros [= <- <-]. now rewrite (IH j' eq_refl).
Qed.

Lemma name_strip_links c : name (strip_links c) = name c.
Proof. now destruct c. Qed.

Lemma keeps_paths_strip n : keeps_paths n (strip_links n).
Proof.
  induction n as [nm ci l cs IH] using Node_ind.
  split; [reflexivity|]. intros [|u q'] pq; [auto|].
  cbn [insert_node strip_links children].
  destruct (find_child u cs) as [[j cj]|] eqn:Eu; [|discriminate].
  rewrite (find_child_map strip_links u cs j cj name_strip_links Eu).
  apply find_child_Some in Eu as [Ej _].
  rewrite Forall_lookup in IH. destruct (IH j cj Ej) as [_ Hpaths].
  destruct (insert_node cj q' false) as [c1 [pq'|]] eqn:E1; [|discriminate].
  cbn [snd fmap option_fmap option_map]. intros [= <-].
  assert (Hq : snd (insert_node cj q' false) = Some pq') by now rewrite E1.
  specialize (Hpaths q' pq' Hq).
  destruct (insert_node (strip_links cj) q' false) as [c2 r2].
  cbn [snd] in *. now subst r2.
Qed.

(** Every call leaves a tree that answers the lookups the tree answered. *)
Lemma run_call_keeps_paths k σ σ' :
  run_call k σ = Ok σ' -> keeps_paths (tree σ) (tree σ').
Proof.
  destruct k as [b path v c|b path rv|b path lock|b path b0|b|c|c val|rv dest|rv src];
    cbn [run_call].
  - destruct (channel b path v c σ) as [[[code c'] σ1]|] eqn:E; [|discriminate].
    intros [= <-]. cbn [snd]. destruct (decide (code = 0)) as [->|Hcode].
    + destruct (channel_shape _ _ _ _ _ _ _ E)
        as (tokens & rn & rn' & p & n0 & l & _ & Hrn & Hins & Hn0 & _ & _ & -> & _).
      apply (keeps_paths_set_node (root b) (tree σ) rn _ Hrn).
      apply (keeps_paths_trans rn rn').
      * pose proof (keeps_paths_insert tokens rn true) as Hk. now rewrite Hins in Hk.
      * apply (keeps_paths_set_node p rn' n0 _ Hn0). now apply keeps_paths_fields.
    + rewrite (channel_failure_unchanged _ _ _ _ _ _ _ _ E Hcode). apply keeps_paths_refl.
  - destruct (rivulet b path rv σ) as [[[code rv'] σ1]|] eqn:E; [|discriminate].
    intros [= <-]. cbn [snd]. destruct (decide (code = 0)) as [->|Hcode].
    + destruct (rivulet_shape _ _ _ _ _ _ E)
        as (tokens & rn & p & n & l & _ & Hrn & _ & Hn & _ & -> & _).
      eapply keeps_paths_set_node.
      * rewrite get_node_app, Hrn. exact Hn.
      * now apply keeps_paths_fields.
    + rewrite (rivulet_failure_unchanged _ _ _ _ _ _ _ E Hcode). apply keeps_paths_refl.
  - destruct (Builder.lock b path lock σ) as [[code σ1]|] eqn:E; [|discriminate].
    intros [= <-]. cbn [snd]. destruct (decide (code = 0)) as [->|Hcode].
    + apply lock_inv in E as (tokens & n & _ & _ & _ & _ & ->). apply keeps_paths_refl.
    + rewrite (lock_failure_unchanged _ _ _ _ _ _ E Hcode). apply keeps_paths_refl.
  - destruct (sub b path b0 σ) as [[[code b'] σ1]|] eqn:E; [|discriminate].
    intros [= <-]. cbn [snd]. destruct (decide (code = 0)) as [->|Hcode].
    + destruct (sub_shape _ _ _ _ _ _ E) as (tokens & rn & rn' & p & _ & Hrn & Hins & _ & ->).
      cbn [tree with_tree]. apply (keeps_paths_set_node (root b) (tree σ) rn _ Hrn).
      pose proof (keeps_paths_insert tokens rn true) as Hk. now rewrite Hins in Hk.
    + rewrite (proj1 (sub_failure_unchanged _ _ _ _ _ _ _ E Hcode)). apply keeps_paths_refl.
  - destruct (build b σ) as [[[code rr] σ1]|] eqn:E; [|discriminate].
    intros [= <-]. cbn [snd]. destruct (is_root b) eqn:Hroot.
    + destruct (build_shape _ _ _ _ _ Hroot E) as (rn & Hrn & _ & _ & -> & _).
      apply (keeps_paths_set_node (root b) (tree σ) rn _ Hrn). apply keeps_paths_strip.
    + unfold build in E. rewrite Hroot in E. injection E as _ _ <-. apply keeps_paths_refl.
  - intros H. rewrite (proj1 (run_call_handle_tree (CallGet c) σ σ' I H)).
    apply keeps_paths_refl.
  - intros H. rewrite (proj1 (run_call_handle_tree (CallSet c val) σ σ' I H)).
    apply keeps_paths_refl.
  - intros H. rewrite (proj1 (run_call_handle_tree (CallRead rv dest) σ σ' I H)).
    apply keeps_paths_refl.
  - intros H. rewrite (proj1 (run_call_handle_tree (CallWrite rv src) σ σ' I H)).
    apply keeps_paths_refl.
Qed.

Lemma run_calls_keeps_paths ks : forall σ σ',
  run_calls ks σ = Ok σ' -> keeps_paths (tree σ) (tree σ').
Proof.
  induction ks as [|k ks IH]; intros σ σ'; cbn [run_calls].
  - intros [= <-]. apply keeps_paths_refl.
  - destruct (run_call k σ) as [σ1|] eqn:E; [|discriminate]. cbn [obind].
    intros H. eapply keeps_paths_trans; [eapply run_call_keeps_paths; exact E|].
    now apply IH.
Qed.

(** X15.  No call ever moves or removes a node.  Whatever is called on
    the builders and the handles afterwards, builds included, as long as
    the calls return: a path that named a node still names it, by the same
    pointer, and a builder that stood at a path still stands at it. *)
Theorem paths_are_never_lost ks σ σ' :
  run_calls ks σ = Ok σ' ->
  (forall ts p, snd (insert_node (tree σ) ts false) = Some p ->
                snd (insert_node (tree σ') ts false) = Some p)
  /\ (forall b ts, stands_at b ts σ -> stands_at b ts σ').
Proof.
  intros H. destruct (run_calls_keeps_paths ks σ σ' H) as [_ Hk].
  split; [exact Hk|]. intros b ts. unfold stands_at. apply Hk.
Qed.

End sub_builders.

(** ** Channels stay declared *)

Section declared_channels.
Import Builder.

Lemma chans_unfold n :
  chans_of (nodes n)
  = option_list (chan_of n) ++ flat_map (fun c => chans_of (nodes c)) (children n).
Proof.
  unfold chans_of. rewrite nodes_unfold.
  change (omap chan_of (n :: flat_map nodes (children n)))
    with (match chan_of n with
          | Some x => x :: omap chan_of (flat_map nodes (children n))
          | None => omap chan_of (flat_map nodes (children n))
          end).
  rewrite omap_flat_map. now destruct (chan_of n).
Qed.

(** [insert_node] makes no channel and changes none. *)
Lemma chans_insert_node path : forall n create,
  chans_of (nodes (fst (insert_node n path create))) = chans_of (nodes n).
Proof.
  induction path as [|token rest IH]; intros n create; cbn [insert_node];
    [reflexivity|].
  destruct (find_child token (children n)) as [[i c]|] eqn:E.
  - apply find_child_Some in E as [E _]. specialize (IH c create).
    destruct (insert_node c rest create) as [c' r]. cbn [fst snd] in *.
    rewrite (chans_unfold n), chans_unfold. unfold chan_of.
    cbn [link channel_info children with_children].
    now rewrite (flat_map_insert_eq (fun c => chans_of (nodes c)) _ _ _ _ E IH).
  - destruct create; [|reflexivity].
    specialize (IH (mkNode token None None []) true).
    destruct (insert_node _ rest true) as [c' r]. cbn [fst snd] in *.
    rewrite (chans_unfold n), chans_unfold. unfold chan_of.
    cbn [link channel_info children with_children].
    rewrite flat_map_app. cbn [flat_map]. rewrite IH.
    rewrite (chans_unfold (mkNode token None None [])). cbn. now rewrite !app_nil_r.
Qed.

(** Storing through a pointer a node that has kept its channels leaves a
    tree that has kept them. *)
Lemma chans_set_node_in p t m m' x :
  get_node t p = Some m ->
  (forall y, y ∈ chans_of (nodes m) -> y ∈ chans_of (nodes m')) ->
  x ∈ chans_of (nodes t) -> x ∈ chans_of (nodes (set_node t p m')).
Proof.
  revert t m. induction p as [|i p IH]; intros t m; cbn [get_node set_node].
  - intros [= ->]. auto.
  - destruct (children t !! i) as [c|] eqn:E; [|discriminate].
    intros Hm Hin. rewrite (chans_unfold t), chans_unfold. unfold chan_of.
    cbn [link channel_info children with_children].
    rewrite !elem_of_app. intros [Hx|Hx]; [now left|]. right.
    rewrite (flat_map_lookup_split _ _ _ _ E) in Hx.
    assert (Hi : (i < length (children t))%nat) by (eapply lookup_lt_Some; exact E).
    rewrite (flat_map_lookup_split _ (<[i := set_node c p m']> (children t)) i
               (set_node c p m')) by now apply list_lookup_insert_eq.
    rewrite take_insert_ge by lia. rewrite drop_insert_lt by lia.
    rewrite !elem_of_app in Hx |- *.
    destruct Hx as [Hx|[Hx|Hx]]; [now left| |now right; right].
    right. left. eapply IH; eassumption.
Qed.

(** No call other than a build from the root takes a channel with its
    Link out of the tree. *)
Lemma run_call_keeps_chans k σ σ' x :
  builds k = false -> run_call k σ = Ok σ' ->
  x ∈ chans_of (nodes (tree σ)) -> x ∈ chans_of (nodes (tree σ')).
Proof.
  destruct k as [b path v c|b path rv|b path lock|b path b0|b|c|c val|rv dest|rv src];
    cbn [run_call builds]; intros Hb.
  - destruct (channel b path v c σ) as [[[code c'] σ1]|] eqn:E; [|discriminate].
    intros [= <-]. cbn [snd]. destruct (decide (code = 0)) as [->|Hcode].
    + destruct (channel_shape _ _ _ _ _ _ _ E)
        as (tokens & rn & rn' & p & n0 & l & _ & Hrn & Hins & Hn0 & Hci & _ & -> & _).
      apply (chans_set_node_in (root b) (tree σ) rn _ x Hrn).
      intros y Hy.
      pose proof (chans_insert_node tokens rn true) as Hch. rewrite Hins in Hch.
      cbn [fst] in Hch. rewrite <- Hch in Hy.
      apply (chans_set_node_in p rn' n0 _ y Hn0); [|exact Hy].
      intros z. rewrite (chans_unfold n0), chans_unfold.
      cbn [children]. rewrite !elem_of_app. intros [Hz|Hz]; [|now right].
      unfold chan_of in Hz. rewrite Hci in Hz. destruct (link n0); inversion Hz.
    + now rewrite (channel_failure_unchanged _ _ _ _ _ _ _ _ E Hcode).
  - destruct (rivulet b path rv σ) as [[[code rv'] σ1]|] eqn:E; [|discriminate].
    intros [= <-]. cbn [snd]. destruct (decide (code = 0)) as [->|Hcode].
    + destruct (rivulet_shape _ _ _ _ _ _ E)
        as (tokens & rn & p & n & l & _ & Hrn & _ & Hn & _ & -> & Hcase).
      assert (Hn' : get_node (tree σ) (root b ++ p) = Some n)
        by now rewrite get_node_app, Hrn.
      apply (chans_set_node_in (root b ++ p) (tree σ) n _ x Hn').
      intros z. rewrite (chans_unfold n), chans_unfold.
      cbn [children with_link]. rewrite !elem_of_app. intros [Hz|Hz]; [|now right].
      left. unfold chan_of in *. cbn [link channel_info with_link].
      destruct Hcase as [[Hl _]|[Hl _]]; rewrite Hl in Hz; [exact Hz | inversion Hz].
    + now rewrite (rivulet_failure_unchanged _ _ _ _ _ _ _ E Hcode).
  - destruct (Builder.lock b path lock σ) as [[code σ1]|] eqn:E; [|discriminate].
    intros [= <-]. cbn [snd]. destruct (decide (code = 0)) as [->|Hcode].
    + now apply lock_inv in E as (tokens & n & _ & _ & _ & _ & ->).
    + now rewrite (lock_failure_unchanged _ _ _ _ _ _ E Hcode).
  - destruct (sub b path b0 σ) as [[[code b'] σ1]|] eqn:E; [|discriminate].
    intros [= <-]. cbn [snd]. destruct (decide (code = 0)) as [->|Hcode].
    + destruct (sub_shape _ _ _ _ _ _ E) as (tokens & rn & rn' & p & _ & Hrn & Hins & _ & ->).
      cbn [tree with_tree]. apply (chans_set_node_in (root b) (tree σ) rn _ x Hrn).
      intros y Hy. pose proof (chans_insert_node tokens rn true) as Hch.
      rewrite Hins in Hch. cbn [fst] in Hch. now rewrite Hch.
    + now rewrite (proj1 (sub_failure_unchanged _ _ _ _ _ _ _ E Hcode)).
  - destruct (build b σ) as [[[code rr] σ1]|] eqn:E; [|discriminate].
    intros [= <-]. cbn [snd]. unfold build in E. rewrite Hb in E.
    now injection E as _ _ <-.
  - intros H. now rewrite (proj1 (run_call_handle_tree (CallGet c) σ σ' I H)).
  - intros H. now rewrite (proj1 (run_call_handle_tree (CallSet c val) σ σ' I H)).
  - intros H. now rewrite (proj1 (run_call_handle_tree (CallRead rv dest) σ σ' I H)).
  - intros H. now rewrite (proj1 (run_call_handle_tree (CallWrite rv src) σ σ' I H)).
Qed.

Lemma run_calls_keeps_chans ks x : forall σ σ',
  Forall (fun k => builds k = false) ks -> run_calls ks σ = Ok σ' ->
  x ∈ chans_of (nodes (tree σ)) -> x ∈ chans_of (nodes (tree σ')).
Proof.
  induction ks as [|k ks IH]; intros σ σ' Hks; cbn [run_calls].
  - now intros [= <-].
  - apply Forall_cons in Hks as [Hk Hks].
    destruct (run_call k σ) as [σ1|] eqn:E; [|discriminate]. cbn [obind].
    intros H Hx. apply (IH σ1 σ' Hks H). eapply run_call_keeps_chans; eassumption.
Qed.

(** X16.  A channel that was declared reads its initial value after the
    next build, whatever was called in between on the builders of the tree
    and on the handles (further channels, rivulets, locks, sub-builders,
    reads and writes), as long as the calls returned. *)
Theorem declared_channel_reads_initial_value b path v c σ c' σ1 ks σ2 rb code rr σ3 :
  wf σ -> Channel.size c = length v ->
  channel b path v c σ = Ok (0, c', σ1) ->
  Forall (fun k => builds k = false) ks -> run_calls ks σ1 = Ok σ2 ->
  is_root rb = true -> root rb = [] ->
  build rb σ2 = Ok (code, rr, σ3) ->
  exists h, Channel.get c' (heap σ3) = Ok (v, h).
Proof.
  intros Hwf Hsz Hch Hks Hrun Hroot Hpos Hb.
  destruct (channel_ok_inv _ _ _ _ _ _ _ Hwf Hch)
    as (tokens & l & m & _ & -> & Hm & Hl & Hci & Hwf1).
  assert (Hin1 : (l, mkChannelInfo v) ∈ chans_of (nodes (tree σ1))).
  { apply list_elem_of_omap. exists m. split.
    - apply list_elem_of_In. eapply subtree_at_in_tree; exact Hm.
    - unfold chan_of. now rewrite Hl, Hci. }
  pose proof (run_calls_keeps_chans ks _ σ1 σ2 Hks Hrun Hin1) as Hin2.
  pose proof (wf_run_calls ks σ1 σ2 Hwf1 Hrun) as Hwf2.
  apply list_elem_of_omap in Hin2 as (m2 & Hm2 & Hc2).
  unfold chan_of in Hc2.
  destruct (link m2) as [l2|] eqn:El2; [|discriminate].
  destruct (channel_info m2) as [ci2|] eqn:Eci2; [|discriminate].
  injection Hc2 as -> ->.
  destruct (built_channel rb σ2 code rr σ3 m2 l (mkChannelInfo v) Hroot Hpos Hwf2 Hb)
    as (L & pre & suf & HL & Hr & Hoff & Hst); [now apply list_elem_of_In|exact El2|exact Eci2|].
  eexists. eapply get_linked; try eassumption; [reflexivity|].
  cbn [Channel.size init_val]. rewrite Hsz. apply read_bytes_middle.
Qed.

Lemma declared_channel_reads_initial_value_witness :
  exists h, Channel.get (Channel.mk (Some 0%nat) 2) (heap demo_foo_bar_built)
            = Ok ([Byte.x2a; Byte.x01], h).
Proof.
  exact (declared_channel_reads_initial_value (fst new_builder) "foo"
           [Byte.x2a; Byte.x01] (Channel.unbound 2) (snd new_builder)
           (Channel.mk (Some 0%nat) 2) demo_foo
           [CallChannel (fst new_builder) "bar" [Byte.x03] (Channel.unbound 1)]
           demo_foo_bar (fst new_builder) 0 (Some 0%nat) demo_foo_bar_built
           wf_new_builder eq_refl eq_refl
           ltac:(repeat constructor) eq_refl eq_refl eq_refl eq_refl).
Defined.

End declared_channels.

(** ** The storage that a build lays out *)

Section storage_layout.
Import Builder.

Lemma init_bytes_cons c chs :
  init_bytes (c :: chs) = init_val (snd c) ++ init_bytes chs.
Proof. reflexivity. Qed.

Lemma laid_out_lookup lks river chs : forall base i c,
  laid_out lks river base chs -> chs !! i = Some c ->
  exists L, lks !! fst c = Some L /\ Link.river L = Some river
    /\ Link.channel_offset L = Some (base + length (init_bytes (take i chs)))%nat.
Proof.
  induction chs as [|a chs IH]; intros base [|i] c; cbn [laid_out lookup list_lookup];
    try discriminate.
  - intros [(L & HL & Hr & Hoff) _] [= <-]. exists L. cbn. rewrite Nat.add_0_r. auto.
  - intros [_ Hrest] Hc. destruct (IH _ i c Hrest Hc) as (L & HL & Hr & Hoff).
    exists L. split; [exact HL|]. split; [exact Hr|]. rewrite Hoff. f_equal.
    cbn [take]. rewrite init_bytes_cons, length_app. unfold size. lia.
Qed.

Lemma init_bytes_take_le chs : forall i j,
  (i <= j)%nat ->
  (length (init_bytes (take i chs)) <= length (init_bytes (take j chs)))%nat.
Proof.
  induction chs as [|a chs IH]; intros i j Hij.
  - now rewrite !take_nil.
  - destruct i as [|i]; [cbn; lia|]. destruct j as [|j]; [lia|].
    cbn [take]. rewrite !init_bytes_cons, !length_app.
    specialize (IH i j). lia.
Qed.

Lemma init_bytes_take_S chs i c :
  chs !! i = Some c ->
  length (init_bytes (take (S i) chs))
  = (length (init_bytes (take i chs)) + size (snd c))%nat.
Proof.
  intros Hc. rewrite (take_S_r _ _ _ Hc), init_bytes_app, length_app.
  cbn. rewrite app_nil_r. reflexivity.
Qed.

Lemma init_bytes_take_total chs i :
  (length (init_bytes (take i chs)) <= length (init_bytes chs))%nat.
Proof.
  rewrite <- (take_drop i chs) at 2. rewrite init_bytes_app, length_app. lia.
Qed.

(** Bytes outside the range of a store are read as before. *)
Lemma read_bytes_disjoint (pre old x suf : bytes) o n :
  length x = length old ->
  (o + n <= length pre \/ length pre + length old <= o)%nat ->
  read_bytes (pre ++ x ++ suf) o n = read_bytes (pre ++ old ++ suf) o n.
Proof.
  intros Hlen Hd. unfold read_bytes. rewrite !length_app, Hlen.
  destruct (o + n <=? length pre + (length old + length suf))%nat; [|reflexivity].
  f_equal. destruct Hd as [Hd|Hd].
  - rewrite !drop_app_le by lia.
    rewrite !take_app_le by (rewrite length_drop; lia). reflexivity.
  - rewrite !(drop_app_ge pre) by lia.
    rewrite !drop_app_ge by lia. now rewrite Hlen.
Qed.

(** X17.  The channels of a built river do not overlap: a [set] through
    one channel changes nothing of what [get] through any other channel of
    the same build returns.  This holds on every later heap with the Links
    of the build and a storage of the built size. *)
Theorem channels_do_not_overlap b σ code rr σ' l1 ci1 l2 ci2 h st x :
  is_root b = true -> root b = [] -> wf σ ->
  build b σ = Ok (code, rr, σ') ->
  (l1, ci1) ∈ chans_of (nodes (tree σ)) ->
  (l2, ci2) ∈ chans_of (nodes (tree σ)) -> l1 <> l2 ->
  links h = links (heap σ') ->
  rivers h !! length (rivers (heap σ)) = Some st ->
  length st = length (layout (tree σ)) ->
  length x = size ci1 ->
  exists h1 v h2 h3,
    Channel.set (handle_of (l1, ci1)) x h = Ok h1
    /\ Channel.get (handle_of (l2, ci2)) h = Ok (v, h2)
    /\ Channel.get (handle_of (l2, ci2)) h1 = Ok (v, h3).
Proof.
  intros Hroot Hpos [Hnd _] Hb H1 H2 Hne Hlinks Hst Hlen Hx.
  destruct (build_post _ _ _ _ _ Hroot Hpos Hnd Hb) as (_ & _ & _ & _ & _ & Hp).
  apply tree_post_laid_out in Hp. unfold layout in Hlen.
  set (chs := chans_of (nodes (tree σ))) in *.
  set (river := length (rivers (heap σ))) in *.
  apply list_elem_of_lookup in H1 as [i Hi]. apply list_elem_of_lookup in H2 as [j Hj].
  assert (Hij : i <> j) by (intros ->; congruence).
  destruct (laid_out_lookup _ _ _ _ _ _ Hp Hi) as (L1 & HL1 & Hr1 & Ho1).
  destruct (laid_out_lookup _ _ _ _ _ _ Hp Hj) as (L2 & HL2 & Hr2 & Ho2).
  cbn [fst Nat.add] in *. rewrite <- Hlinks in HL1, HL2.
  set (o1 := length (init_bytes (take i chs))) in *.
  set (o2 := length (init_bytes (take j chs))) in *.
  pose proof (init_bytes_take_S chs i _ Hi) as HS1.
  pose proof (init_bytes_take_S chs j _ Hj) as HS2.
  pose proof (init_bytes_take_total chs (S i)) as HT1.
  pose proof (init_bytes_take_total chs (S j)) as HT2.
  cbn [snd] in HS1, HS2. fold o1 in HS1. fold o2 in HS2.
  assert (Hdis : (o2 + size ci2 <= o1 \/ o1 + size ci1 <= o2)%nat).
  { destruct (decide (i < j)%nat) as [Hlt|Hge].
    - right. pose proof (init_bytes_take_le chs (S i) j ltac:(lia)). fold o2 in H. lia.
    - left. pose proof (init_bytes_take_le chs (S j) i ltac:(lia)). fold o1 in H. lia. }
  destruct (bytes_split st o1 (size ci1)) as (pre & old & suf & -> & Hpre & Hold); [lia|].
  rewrite <- Hpre in Ho1.
  pose proof (set_linked (handle_of (l1, ci1)) l1 L1 river pre old suf x h
                eq_refl HL1 Hr1 Hst Ho1 Hold Hx) as Hset.
  assert (Hrd : (o2 + size ci2 <=? length (pre ++ old ++ suf))%nat = true)
    by (apply Nat.leb_le; lia).
  set (v := take (size ci2) (drop o2 (pre ++ old ++ suf))).
  assert (Hread : read_bytes (pre ++ old ++ suf) o2 (size ci2) = Ok v)
    by (unfold read_bytes; now rewrite Hrd).
  eexists _, v, _, _. split; [exact Hset|]. split.
  - exact (get_linked (handle_of (l2, ci2)) l2 L2 river _ o2 v h
             eq_refl HL2 Hr2 Hst Ho2 Hread).
  - apply (get_linked (handle_of (l2, ci2)) l2 L2 river (pre ++ x ++ suf) o2 v _ eq_refl).
    + now rewrite bracketed_links.
    + exact Hr2.
    + rewrite bracketed_rivers. cbn [rivers with_rivers].
      apply list_lookup_insert_eq. eapply lookup_lt_Some; exact Hst.
    + exact Ho2.
    + cbn [handle_of Channel.size snd]. rewrite <- Hread.
      apply read_bytes_disjoint; [lia|]. lia.
Qed.

Lemma wf_demo_foo : wf demo_foo.
Proof.
  split.
  - change (NoDup [0%nat]). apply (bool_decide_unpack _). exact I.
  - intros l Hl. change (l ∈ [0%nat]) in Hl. apply list_elem_of_singleton in Hl as ->.
    cbn. lia.
Qed.

Lemma wf_demo_foo_bar : wf demo_foo_bar.
Proof.
  split.
  - change (NoDup [0; 1]%nat). apply (bool_decide_unpack _). exact I.
  - intros l Hl. change (l ∈ [0; 1]%nat) in Hl. cbn.
    apply elem_of_cons in Hl as [->|Hl]; [lia|].
    apply list_elem_of_singleton in Hl as ->. lia.
Qed.

Lemma channels_do_not_overlap_witness :
  exists h1 v h2 h3,
    Channel.set (handle_of (0%nat, mkChannelInfo [Byte.x2a; Byte.x01]))
      [Byte.x11; Byte.x22] (heap demo_foo_bar_built) = Ok h1
    /\ Channel.get (handle_of (1%nat, mkChannelInfo [Byte.x03])) (heap demo_foo_bar_built)
       = Ok (v, h2)
    /\ Channel.get (handle_of (1%nat, mkChannelInfo [Byte.x03])) h1 = Ok (v, h3).
Proof.
  apply (channels_do_not_overlap (fst new_builder) demo_foo_bar 0 (Some 0%nat)
           demo_foo_bar_built 0%nat (mkChannelInfo [Byte.x2a; Byte.x01])
           1%nat (mkChannelInfo [Byte.x03]) (heap demo_foo_bar_built)
           [Byte.x2a; Byte.x01; Byte.x03] [Byte.x11; Byte.x22]);
    try reflexivity.
  - exact wf_demo_foo_bar.
  - change ((0%nat, mkChannelInfo [Byte.x2a; Byte.x01])
            ∈ [(0%nat, mkChannelInfo [Byte.x2a; Byte.x01]);
               (1%nat, mkChannelInfo [Byte.x03])]).
    apply list_elem_of_here.
  - change ((1%nat, mkChannelInfo [Byte.x03])
            ∈ [(0%nat, mkChannelInfo [Byte.x2a; Byte.x01]);
               (1%nat, mkChannelInfo [Byte.x03])]).
    apply list_elem_of_further, list_elem_of_here.
  - discriminate.
Defined.

(** X18.  The storage of a build.  [build] on the root builder, when it
    returns, has returned 0 and added one river after the rivers there
    were; its storage is the initial values of the channels that hold a
    Link, one after the other in depth-first order (a node before its
    children, children in insertion order).  The older rivers, the calls
    made on locks and every lock pointer are as before, no Link was
    allocated, only Links of the tree were written, and the tree is left
    with every Link detached and nothing else changed. *)
Theorem build_appends_one_river b σ code rr σ' :
  is_root b = true -> root b = [] -> wf σ ->
  build b σ = Ok (code, rr, σ') ->
  code = 0 /\ rr = Some (length (rivers (heap σ)))
  /\ rivers (heap σ') = rivers (heap σ) ++ [layout (tree σ)]
  /\ tree σ' = strip_links (tree σ)
  /\ lock_trace (heap σ') = lock_trace (heap σ)
  /\ length (links (heap σ')) = length (links (heap σ))
  /\ (forall l, l ∉ node_links (tree σ) -> links (heap σ') !! l = links (heap σ) !! l)
  /\ (forall l L', links (heap σ') !! l = Some L' ->
        exists L, links (heap σ) !! l = Some L /\ Link.lock L' = Link.lock L).
Proof.
  intros Hroot Hpos [Hnd _] Hb.
  destruct (build_post _ _ _ _ _ Hroot Hpos Hnd Hb)
    as (Hc & Hrr & Ht & Hriv & (_ & Htr & Hlen & Hout & Hlk) & _).
  repeat split; auto.
Qed.

Lemma build_appends_one_river_witness :
  rivers (heap demo_readme_built)
  = rivers (heap demo_readme) ++ [layout (tree demo_readme)].
Proof.
  exact (proj1 (proj2 (proj2 (build_appends_one_river (fst new_builder) demo_readme
           0 (Some 0%nat) demo_readme_built eq_refl eq_refl wf_demo_readme eq_refl)))).
Defined.

(** X19.  The rivulet of a node without children is empty, also when the
    node is a channel: after a build, [size] is 0, [read] hands the buffer
    back as it was and [write] changes no byte of any storage. *)
Theorem rivulet_of_a_leaf_is_empty b σ code rr σ' p g lg h st :
  is_root b = true -> root b = [] -> wf σ ->
  build b σ = Ok (code, rr, σ') ->
  get_node (tree σ) p = Some g -> link g = Some lg -> children g = [] ->
  links h = links (heap σ') ->
  rivers h !! length (rivers (heap σ)) = Some st ->
  Rivulet.size (Rivulet.mk (Some lg)) h = Ok 0%nat
  /\ (forall buf, exists h',
        Rivulet.read (Rivulet.mk (Some lg)) (Some buf) h = Ok (Some buf, h'))
  /\ (forall src, exists h',
        Rivulet.write (Rivulet.mk (Some lg)) (Some src) h = Ok h'
        /\ rivers h' = rivers h).
Proof.
  intros Hroot Hpos [Hnd _] Hb Hg Hlg Hcs Hlinks Hst.
  destruct (build_post _ _ _ _ _ Hroot Hpos Hnd Hb) as (_ & _ & _ & _ & _ & Hp).
  destruct (tree_post_sub _ _ p (tree σ) [] g Hp Hg) as (pre & suf & Hpg & _).
  apply tree_post_unfold in Hpg as [Hown _]. unfold own_post in Hown.
  rewrite Hlg, Hcs in Hown. destruct Hown as (L & HL & Hr & _ & Hsz & Hoff).
  unfold descendants in Hsz. rewrite Hcs in Hsz. cbn in Hsz.
  rewrite <- Hlinks in HL.
  pose proof (linked_true _ _ _ _ HL Hr) as Hlk.
  split; [|split].
  - now apply (rivulet_size_linked lg L _ h 0%nat HL Hr).
  - intros buf. eexists. unfold Rivulet.read. cbn [Rivulet.link]. rewrite Hlk.
    unfold get_link, get_storage. heap_simpl. rewrite HL. heap_simpl. rewrite Hr.
    heap_simpl. rewrite acquire_rivers, Hst. heap_simpl. rewrite Hoff. heap_simpl.
    rewrite Hsz. heap_simpl. unfold read_bytes. cbn [Nat.add Nat.leb take]. heap_simpl.
    unfold write_bytes. cbn [Nat.add length Nat.leb take drop app]. heap_simpl.
    reflexivity.
  - intros src.
    exists (release_if_locked
              (with_rivers (acquire_if_locked h L)
                 (<[length (rivers (heap σ)) := st]> (rivers h))) L).
    split.
    + unfold Rivulet.write. cbn [Rivulet.link]. rewrite Hlk.
      unfold get_link, set_storage, get_storage. heap_simpl. rewrite HL. heap_simpl.
      rewrite Hr. heap_simpl. rewrite acquire_rivers, Hst. heap_simpl. rewrite Hoff.
      heap_simpl. rewrite Hsz. heap_simpl.
      unfold read_bytes. cbn [Nat.add Nat.leb take]. heap_simpl.
      unfold write_bytes. cbn [Nat.add length Nat.leb take drop app]. heap_simpl.
      reflexivity.
    + rewrite release_rivers. cbn [rivers with_rivers].
      now apply list_insert_id.
Qed.

Lemma rivulet_of_a_leaf_is_empty_witness :
  Rivulet.size (Rivulet.mk (Some 0%nat)) (heap demo_foo_built) = Ok 0%nat.
Proof.
  exact (proj1 (rivulet_of_a_leaf_is_empty (fst new_builder) demo_foo 0 (Some 0%nat)
           demo_foo_built [0%nat]
           (mkNode "foo" (Some (mkChannelInfo [Byte.x2a; Byte.x01])) (Some 0%nat) [])
           0%nat (heap demo_foo_built) [Byte.x2a; Byte.x01]
           eq_refl eq_refl wf_demo_foo eq_refl eq_refl eq_refl eq_refl eq_refl eq_refl)).
Defined.

End storage_layout.

(** ** When a build returns *)

Section build_returns.
Import Builder.

Lemma upd_link_total h l f :
  (l < length (links h))%nat ->
  exists h', upd_link h l f = Ok h'
             /\ length (links h') = length (links h) /\ rivers h' = rivers h.
Proof.
  intros Hl. destruct (lookup_lt_is_Some_2 _ _ Hl) as [L HL].
  unfold upd_link, get_link. rewrite HL. heap_simpl. eexists. split; [reflexivity|].
  heap_simpl. now rewrite length_insert.
Qed.

(** The first half of [build_node] returns when the Link of the node is
    allocated and the river exists. *)
Lemma establish_link_total n river h :
  (forall l, link n = Some l -> (l < length (links h))%nat) ->
  (river < length (rivers h))%nat ->
  exists h', establish_link n river h = Ok h'
             /\ length (links h') = length (links h)
             /\ length (rivers h') = length (rivers h).
Proof.
  intros Hl Hr. unfold establish_link.
  destruct (link n) as [l|]; [|now exists h].
  specialize (Hl l eq_refl).
  destruct (lookup_lt_is_Some_2 _ _ Hl) as [L HL].
  destruct (lookup_lt_is_Some_2 _ _ Hr) as [st Hst].
  unfold upd_link at 1, get_link. rewrite HL. heap_simpl.
  destruct (channel_info n) as [ci|].
  - unfold get_storage, set_storage, get_storage, upd_link, get_link.
    heap_simpl. rewrite Hst. heap_simpl.
    rewrite list_lookup_insert_eq by exact Hl. heap_simpl.
    rewrite list_lookup_insert_eq by (rewrite length_insert; exact Hl). heap_simpl.
    rewrite list_lookup_insert_eq by exact Hr. heap_simpl.
    unfold size. rewrite write_bytes_append. heap_simpl.
    eexists. split; [reflexivity|]. heap_simpl. now rewrite !length_insert.
  - eexists. split; [reflexivity|]. heap_simpl. now rewrite length_insert.
Qed.

(** The last part of [build_node] returns when the Link of the node and
    that of its first child are allocated, and the first child has one. *)
Lemma set_rivulet_total n h :
  (forall l, link n = Some l -> (l < length (links h))%nat) ->
  (forall c0 rest l0, children n = c0 :: rest -> link c0 = Some l0 ->
                      (l0 < length (links h))%nat) ->
  first_child_unlinked n = false ->
  exists h', set_rivulet n h = Ok h'
             /\ length (links h') = length (links h)
             /\ length (rivers h') = length (rivers h).
Proof.
  intros Hl Hc0 Hfc. unfold set_rivulet, first_child_unlinked in *.
  destruct (link n) as [l|]; [|now exists h].
  specialize (Hl l eq_refl). rewrite sum_children_total. heap_simpl.
  destruct (lookup_lt_is_Some_2 _ _ Hl) as [L HL].
  unfold upd_link at 1, get_link. rewrite HL. heap_simpl.
  destruct (children n) as [|c0 cs].
  - heap_simpl. unfold upd_link, get_link. heap_simpl.
    rewrite list_lookup_insert_eq by exact Hl. heap_simpl.
    eexists. split; [reflexivity|]. heap_simpl. now rewrite !length_insert.
  - destruct (link c0) as [l0|] eqn:El0; [|discriminate]. heap_simpl.
    specialize (Hc0 c0 cs l0 eq_refl El0).
    unfold get_link. heap_simpl.
    destruct (lookup_lt_is_Some_2 (<[l := Link.set_rivulet_size
                                            (Some (0 + total_size (flat_map nodes (c0 :: cs)))%nat) L]>
                                     (links h)) l0) as [L0 HL0];
      [now rewrite length_insert|].
    rewrite HL0. heap_simpl. unfold upd_link, get_link. heap_simpl.
    rewrite list_lookup_insert_eq by exact Hl. heap_simpl.
    eexists. split; [reflexivity|]. heap_simpl. now rewrite !length_insert.
Qed.

Lemma build_node_total n :
  Forall (fun m => first_child_unlinked m = false) (nodes n) ->
  forall river h,
    (forall l, l ∈ node_links n -> (l < length (links h))%nat) ->
    (river < length (rivers h))%nat ->
    exists h', build_node n river h = Ok h'
               /\ length (links h') = length (links h)
               /\ length (rivers h') = length (rivers h).
Proof.
  induction n as [nm ci lk cs IH] using Node_ind.
  intros Hok river h Halloc Hr. rewrite build_node_unfold.
  rewrite nodes_unfold in Hok. apply Forall_cons in Hok as [Hn Hcs].
  cbn [children] in *.
  set (n := mkNode nm ci lk cs) in *.
  assert (Hself : forall l, link n = Some l -> l ∈ node_links n).
  { intros l El. rewrite node_links_unfold, El. apply elem_of_app. left.
    apply list_elem_of_singleton. reflexivity. }
  assert (Hkids : forall l, l ∈ flat_map node_links cs -> l ∈ node_links n).
  { intros l Hl. rewrite node_links_unfold. apply elem_of_app. now right. }
  destruct (establish_link_total n river h) as (h1 & -> & Hl1 & Hr1); [auto|exact Hr|].
  assert (Hloop : forall cs0 h0,
             Forall (fun c =>
               Forall (fun m => first_child_unlinked m = false) (nodes c) ->
               forall river h,
                 (forall l, l ∈ node_links c -> (l < length (links h))%nat) ->
                 (river < length (rivers h))%nat ->
                 exists h', build_node c river h = Ok h'
                            /\ length (links h') = length (links h)
                            /\ length (rivers h') = length (rivers h)) cs0 ->
             Forall (fun m => first_child_unlinked m = false) (flat_map nodes cs0) ->
             (forall l, l ∈ flat_map node_links cs0 -> (l < length (links h0))%nat) ->
             (river < length (rivers h0))%nat ->
             exists h', build_children build_node river cs0 h0 = Ok h'
                        /\ length (links h') = length (links h0)
                        /\ length (rivers h') = length (rivers h0)).
  { induction cs0 as [|c cs0 IHcs]; intros h0 HIH Hok0 Hal0 Hr0.
    - exists h0. auto.
    - apply Forall_cons in HIH as [Hc HIH]. cbn [flat_map] in Hok0, Hal0.
      apply Forall_app in Hok0 as [Hokc Hok0]. cbn [build_children].
      destruct (Hc Hokc river h0) as (hc & -> & Hlc & Hrc);
        [intros l Hl'; apply Hal0, elem_of_app; now left | exact Hr0 |].
      destruct (IHcs hc HIH Hok0) as (h' & Hb & Hl' & Hr');
        [intros l Hl'; rewrite Hlc; apply Hal0, elem_of_app; now right | lia |].
      exists h'. split; [exact Hb|]. lia. }
  destruct (Hloop cs h1 IH Hcs) as (h2 & -> & Hl2 & Hr2);
    [intros l Hl'; rewrite Hl1; auto | lia |].
  destruct (set_rivulet_total n h2) as (h3 & -> & Hl3 & Hr3).
  - intros l El. rewrite Hl2, Hl1. auto.
  - intros c0 rest l0 Ecs El0. rewrite Hl2, Hl1. apply Halloc, Hkids.
    cbn [children n] in Ecs. rewrite Ecs. cbn [flat_map]. apply elem_of_app. left.
    rewrite node_links_unfold, El0. apply elem_of_app. left.
    apply list_elem_of_singleton. reflexivity.
  - exact Hn.
  - exists h3. split; [reflexivity|]. lia.
Qed.

(** At a node that holds a Link while its first child holds none, the
    last part of [build_node] dereferences a null pointer. *)
Lemma set_rivulet_faults n h : first_child_unlinked n = true -> set_rivulet n h = Fault.
Proof.
  unfold first_child_unlinked, set_rivulet.
  destruct (link n) as [l|]; [|discriminate].
  destruct (children n) as [|c0 cs]; [discriminate|].
  destruct (link c0) as [l0|] eqn:El0; [discriminate|]. intros _.
  rewrite sum_children_total. heap_simpl.
  destruct (upd_link h l _) as [h1|]; reflexivity.
Qed.

Lemma build_node_faults n :
  Exists (fun m => first_child_unlinked m = true) (nodes n) ->
  forall river h, build_node n river h = Fault.
Proof.
  induction n as [nm ci lk cs IH] using Node_ind.
  intros Hex river h. rewrite build_node_unfold.
  rewrite nodes_unfold in Hex. cbn [children] in *.
  destruct (establish_link _ river h) as [h1|]; [|reflexivity].
  apply Exists_cons in Hex as [Hn|Hcs].
  - destruct (build_children build_node river cs h1) as [h2|]; [|reflexivity].
    now apply set_rivulet_faults.
  - assert (Hloop : forall h0, build_children build_node river cs h0 = Fault).
    { clear h1. induction cs as [|c cs IHcs]; intros h0.
      - cbn in Hcs. inversion Hcs.
      - apply Forall_cons in IH as [Hc IH]. cbn [flat_map] in Hcs.
        cbn [build_children]. apply Exists_app in Hcs as [Hcc|Hcs].
        + now rewrite (Hc Hcc river h0).
        + destruct (build_node c river h0) as [hc|]; [|reflexivity].
          now apply IHcs. }
    now rewrite Hloop.
Qed.

(** X20.  [build] on the root builder of a tree that keeps to [wf]
    returns, with the code 0 and a new river, exactly when no node that
    holds a Link has a first child that holds none; in the other case it
    dereferences a null pointer on the way. *)
Theorem build_returns_iff b σ :
  is_root b = true -> root b = [] -> wf σ ->
  (Forall (fun m => first_child_unlinked m = false) (nodes (tree σ)) ->
   exists σ', build b σ = Ok (0, Some (length (rivers (heap σ))), σ'))
  /\ (Exists (fun m => first_child_unlinked m = true) (nodes (tree σ)) ->
      build b σ = Fault).
Proof.
  intros Hroot Hpos [_ Halloc]. split.
  - intros Hok.
    destruct (build_node_total (tree σ) Hok (length (rivers (heap σ)))
                (with_new_river (heap σ))) as (h' & Hb & _).
    + exact Halloc.
    + unfold with_new_river. cbn [new_river snd rivers with_rivers].
      rewrite length_app. cbn. lia.
    + eexists. apply build_ok; eassumption.
  - intros Hex. unfold build. rewrite Hroot, Hpos.
    cbn [negb new_river get_node deref obind].
    now rewrite (build_node_faults (tree σ) Hex).
Qed.

Lemma build_returns_iff_witness :
  exists σ', build (fst new_builder) demo_readme = Ok (0, Some 0%nat, σ').
Proof.
  refine (proj1 (build_returns_iff (fst new_builder) demo_readme eq_refl eq_refl
                   wf_demo_readme) _).
  repeat constructor.
Defined.

End build_returns.

(** ** Printing a builder *)

Section printing.
Local Open Scope string_scope.
Import Builder.

Lemma print_indents_spaces d : forall os, print_indents os d = os ++ spaces d.
Proof.
  induction d as [|d IH]; intros os; cbn [print_indents spaces].
  - now rewrite string_app_empty_r.
  - now rewrite IH, string_app_assoc.
Qed.

Lemma text_of_app xs ys : text_of (xs ++ ys)%list = text_of xs ++ text_of ys.
Proof.
  induction xs as [|x xs IH]; [reflexivity|].
  cbn [app text_of]. now rewrite IH, string_app_assoc.
Qed.

Lemma print_helper_unfold os node root indent_level :
  print_helper os node root indent_level =
  if blank node then os
  else
    print_children
      (fun os' child =>
         print_helper os' child false (indent_level + (if root then 0 else 1))%nat)
      (if negb root
       then print_indents os indent_level ++ name node ++ newline
       else print_indents os indent_level)
      (children node).
Proof. now destruct node. Qed.

Lemma nodes_at_unfold d n :
  nodes_at d n = ((d, n) :: flat_map (nodes_at (S d)) (children n))%list.
Proof. now destruct n. Qed.

(** A node that is not the root of the printed builder: its line, then
    its children one level deeper. *)
Lemma print_helper_below m : forall os d,
  print_helper os m false d = os ++ text_of (nodes_at d m).
Proof.
  induction m as [nm ci l cs IH] using Node_ind.
  intros os d. rewrite print_helper_unfold, nodes_at_unfold.
  cbn [text_of]. unfold line_of. cbn [fst snd negb children name].
  destruct (blank (mkNode nm ci l cs)) eqn:Hb.
  - unfold blank in Hb. cbn [name children] in Hb.
    apply andb_true_iff in Hb as [_ Hcs]. destruct cs; [|discriminate].
    cbn. now rewrite string_app_empty_r.
  - rewrite print_indents_spaces. rewrite Nat.add_1_r.
    change (String "010"%char EmptyString) with newline.
    rewrite !string_app_assoc. clear Hb.
    assert (Hloop : forall os0,
              print_children (fun os' child => print_helper os' child false (S d)) os0 cs
              = os0 ++ text_of (flat_map (nodes_at (S d)) cs)).
    { induction IH as [|c cs Hc _ IHcs]; intros os0.
      - cbn. now rewrite string_app_empty_r.
      - cbn [print_children flat_map]. rewrite IHcs, Hc, text_of_app.
        now rewrite string_app_assoc. }
    rewrite Hloop. now rewrite !string_app_assoc.
Qed.

Lemma print_helper_top rn os :
  print_helper os rn true 0 = os ++ text_of (flat_map (nodes_at 0) (children rn)).
Proof.
  rewrite print_helper_unfold. cbn [negb print_indents Nat.add].
  destruct (blank rn) eqn:Hb.
  - unfold blank in Hb. apply andb_true_iff in Hb as [_ Hcs].
    destruct (children rn); [|discriminate]. cbn. now rewrite string_app_empty_r.
  - generalize (children rn) os. intros cs. induction cs as [|c cs IHcs]; intros os0.
    + cbn. now rewrite string_app_empty_r.
    + cbn [print_children flat_map]. rewrite IHcs, print_helper_below, text_of_app.
      now rewrite string_app_assoc.
Qed.

(** X21.  Printing a builder adds to the stream, after what was written
    before, one line for each node below the node the builder stands at,
    in depth-first order with the children in insertion order: four
    spaces for each level below the children of that node, the name of the
    node, a newline.  The node the builder stands at is not printed, a
    builder without nodes prints nothing, and so does a node without name
    and children. *)
Theorem print_lists_the_nodes os b σ rn :
  get_node (tree σ) (root b) = Some rn ->
  print os b σ = Ok (os ++ text_of (flat_map (nodes_at 0) (children rn))).
Proof.
  intros Hrn. unfold print. rewrite Hrn. cbn [deref obind].
  now rewrite print_helper_top.
Qed.

Lemma print_lists_the_nodes_witness :
  print "" (fst new_builder) demo_pv
  = Ok ("p" ++ newline ++ "    v" ++ newline).
Proof.
  exact (print_lists_the_nodes "" (fst new_builder) demo_pv
           (tree demo_pv) eq_refl).
Defined.

End printing.

(** ** The lock calls of each handle operation *)

Section lock_guards.
Import Builder.

Lemma get_lock_calls c h v h' :
  Channel.get c h = Ok (v, h') ->
  lock_trace h' = lock_trace h ++ lock_calls (Channel.link c) h.
Proof.
  intros H. destruct (Linkable.linked (Channel.link c) h) eqn:Hl.
  - apply serialize_inv in H
      as (l & L & r & st & off & src & Hc & HL & Hr & _ & _ & _ & _ & ->); [|exact Hl].
    rewrite Hc. now apply (lock_calls_linked l L r).
  - rewrite (lock_calls_unlinked _ _ Hl), app_nil_r.
    unfold Channel.get, Channel.serialize in H. rewrite Hl in H. now injection H as _ <-.
Qed.

Lemma set_lock_calls c x h h' :
  Channel.set c x h = Ok h' ->
  lock_trace h' = lock_trace h ++ lock_calls (Channel.link c) h.
Proof.
  intros H. destruct (Linkable.linked (Channel.link c) h) eqn:Hl.
  - apply deserialize_inv in H
      as (l & L & r & st & off & val & st' & Hc & HL & Hr & _ & _ & _ & _ & ->);
      [|exact Hl].
    rewrite Hc. now apply (bracketed_trace_with_rivers h L _ l r).
  - rewrite (lock_calls_unlinked _ _ Hl), app_nil_r.
    unfold Channel.set, Channel.deserialize in H. rewrite Hl in H. now injection H as <-.
Qed.

Lemma read_lock_calls rv buf h d h' :
  Rivulet.read rv (Some buf) h = Ok (d, h') ->
  lock_trace h' = lock_trace h ++ lock_calls (Rivulet.link rv) h.
Proof.
  intros H. destruct (Linkable.linked (Rivulet.link rv) h) eqn:Hl.
  - apply rivulet_read_inv in H
      as (l & L & r & st & off & n & src & buf' & Hc & HL & Hr & _ & _ & _ & _ & _ & _ & ->);
      [|exact Hl].
    rewrite Hc. now apply (lock_calls_linked l L r).
  - rewrite (lock_calls_unlinked _ _ Hl), app_nil_r.
    unfold Rivulet.read in H. rewrite Hl in H. now injection H as _ <-.
Qed.

Lemma write_lock_calls rv src h h' :
  Rivulet.write rv (Some src) h = Ok h' ->
  lock_trace h' = lock_trace h ++ lock_calls (Rivulet.link rv) h.
Proof.
  intros H. destruct (Linkable.linked (Rivulet.link rv) h) eqn:Hl.
  - apply rivulet_write_inv in H
      as (l & L & r & st & off & n & val & st' & Hc & HL & Hr & _ & _ & _ & _ & _ & ->);
      [|exact Hl].
    rewrite Hc. now apply (bracketed_trace_with_rivers h L _ l r).
  - rewrite (lock_calls_unlinked _ _ Hl), app_nil_r.
    unfold Rivulet.write in H. rewrite Hl in H. now injection H as <-.
Qed.

Lemma wf_demo_abx : wf demo_abx.
Proof.
  split.
  - change (NoDup [0; 1; 2]%nat). apply (bool_decide_unpack _). exact I.
  - intros l Hl. change (l ∈ [0; 1; 2]%nat) in Hl. cbn.
    repeat (apply elem_of_cons in Hl as [->|Hl]; [lia|]).
    now apply not_elem_of_nil in Hl.
Qed.

End lock_guards.

(** ** Instances on the demonstration trees *)

Section instances.
Local Open Scope string_scope.
Import Builder.

(** Declaring [c] in the tree with [a], [a.x] and [b] leaves [a.x] where
    it was. *)
Lemma insert_node_keeps_paths_witness :
  snd (insert_node (fst (insert_node (tree demo_abx) ["c"] true)) ["a"; "x"] false)
  = Some [0; 0]%nat
  /\ exists mq',
       get_node (fst (insert_node (tree demo_abx) ["c"] true)) [0; 0]%nat = Some mq'
       /\ name mq' = "x"
       /\ channel_info mq' = Some (mkChannelInfo [Byte.x02])
       /\ link mq' = Some 1%nat.
Proof.
  exact (insert_node_keeps_paths (tree demo_abx) ["c"] ["a"; "x"] [0; 0]%nat
           (mkNode "x" (Some (mkChannelInfo [Byte.x02])) (Some 1%nat) [])
           eq_refl eq_refl).
Defined.

(** The builder that [sub("a")] hands out takes [x] for [a.x]. *)
Lemma sub_builder_paths_are_relative_witness :
  rivulet (mk [0%nat] false) "x" Rivulet.unbound demo_abx
  = rivulet (fst new_builder) "a.x" Rivulet.unbound demo_abx.
Proof.
  refine (proj1 (proj2 (sub_builder_paths_are_relative (mk [0%nat] false) ["a"] demo_abx
                          "x" ["x"] eq_refl _ eq_refl)) Rivulet.unbound).
  constructor; [|constructor]. split; [discriminate|reflexivity].
Defined.

(** The channel [foo] is found at the same place after a build. *)
Lemma paths_are_never_lost_witness :
  snd (insert_node (tree demo_foo_built) ["foo"] false) = Some [0%nat].
Proof.
  exact (proj1 (paths_are_never_lost [CallBuild (fst new_builder)] demo_foo
                  demo_foo_built eq_refl) ["foo"] [0%nat] eq_refl).
Defined.

End instances.

(** ** Every node has a path *)

Section naming.
Import Builder.

Lemma Forall_flat_map_iff {A B} (P : B -> Prop) (f : A -> list B) l :
  Forall P (flat_map f l) <-> Forall (fun x => Forall P (f x)) l.
Proof.
  induction l as [|x l IH]; simpl.
  - split; constructor.
  - rewrite Forall_app, Forall_cons, IH. tauto.
Qed.

Lemma well_named_unfold n :
  well_named n <->
  NoDup (name <$> children n)
  /\ Forall (fun c => token_ok (name c)) (children n)
  /\ Forall well_named (children n).
Proof.
  unfold well_named. rewrite (nodes_unfold n), Forall_cons, Forall_flat_map_iff. tauto.
Qed.

Lemma well_named_fields m m' :
  children m' = children m -> well_named m -> well_named m'.
Proof. intros Hc. rewrite !well_named_unfold, Hc. tauto. Qed.

Lemma get_node_well_named t p m :
  well_named t -> get_node t p = Some m -> well_named m.
Proof.
  intros Ht Hm. unfold well_named in *. rewrite Forall_forall in Ht.
  apply Forall_forall. intros x Hx. apply Ht, list_elem_of_In.
  apply (nodes_trans x m t); [now apply list_elem_of_In|].
  eapply get_node_in_nodes; exact Hm.
Qed.

Lemma insert_node_well_named path : forall n create,
  well_named n -> Forall token_ok path ->
  well_named (fst (insert_node n path create)).
Proof.
  induction path as [|token rest IH]; intros n create Hn Hp; [exact Hn|].
  apply Forall_cons in Hp as [Ht Hrest]. cbn [insert_node].
  apply well_named_unfold in Hn as (Hnd & Htok & Hcs).
  destruct (find_child token (children n)) as [[i c]|] eqn:E.
  - destruct (find_child_Some _ _ _ _ E) as [Hi Hname].
    pose proof (IH c create) as IHc.
    pose proof (insert_node_root_fields rest c create) as (Hnm & _ & _).
    destruct (insert_node c rest create) as [c' r]. cbn [fst] in *.
    apply well_named_unfold. cbn [children with_children].
    assert (Hnames : name <$> <[i := c']> (children n) = name <$> children n).
    { rewrite list_fmap_insert, Hnm. apply list_insert_id.
      now rewrite list_lookup_fmap, Hi. }
    split; [now rewrite Hnames|]. split.
    + apply Forall_insert; [exact Htok|]. now rewrite Hnm, Hname.
    + apply Forall_insert; [exact Hcs|]. apply IHc; [|exact Hrest].
      exact (Forall_lookup_1 _ _ _ _ Hcs Hi).
  - destruct create.
    2:{ cbn [fst]. apply well_named_unfold. auto. }
    pose proof (IH (mkNode token None None []) true) as IHc.
    pose proof (insert_node_root_fields rest (mkNode token None None []) true)
      as (Hnm & _ & _).
    destruct (insert_node (mkNode token None None []) rest true) as [c' r].
    cbn [fst name] in *.
    apply well_named_unfold. cbn [children with_children].
    split; [|split].
    + rewrite fmap_app. apply NoDup_app. split; [exact Hnd|]. split.
      * intros x Hx Hx'. cbn in Hx'. apply list_elem_of_singleton in Hx'. subst x.
        apply list_elem_of_fmap in Hx as (d & Hd & Hin).
        apply (find_child_None _ _ d E); [now apply list_elem_of_In|].
        congruence.
      * cbn. apply NoDup_singleton.
    + apply Forall_app. split; [exact Htok|]. constructor; [|constructor].
      now rewrite Hnm.
    + apply Forall_app. split; [exact Hcs|]. constructor; [|constructor].
      apply IHc; [|exact Hrest]. apply well_named_unfold. cbn [children].
      repeat split; constructor.
Qed.

Lemma set_node_name p t m m' :
  get_node t p = Some m -> name m' = name m -> name (set_node t p m') = name t.
Proof.
  destruct p as [|i p]; simpl.
  - now intros [= ->].
  - destruct (children t !! i); [|discriminate]. reflexivity.
Qed.

Lemma set_node_well_named p : forall t m m',
  get_node t p = Some m -> name m' = name m ->
  well_named t -> well_named m' -> well_named (set_node t p m').
Proof.
  induction p as [|i p IH]; intros t m m'; simpl; [auto|].
  destruct (children t !! i) as [c|] eqn:E; [|discriminate].
  intros Hm Hn Ht Hm'.
  apply well_named_unfold in Ht as (Hnd & Htok & Hcs).
  pose proof (set_node_name p c m m' Hm Hn) as Hnc.
  apply well_named_unfold. cbn [children with_children].
  assert (Hnames : name <$> <[i := set_node c p m']> (children t) = name <$> children t).
  { rewrite list_fmap_insert, Hnc. apply list_insert_id.
    now rewrite list_lookup_fmap, E. }
  split; [now rewrite Hnames|]. split.
  - apply Forall_insert; [exact Htok|]. rewrite Hnc.
    exact (Forall_lookup_1 _ _ _ _ Htok E).
  - apply Forall_insert; [exact Hcs|].
    apply (IH c m m' Hm Hn); [|exact Hm'].
    exact (Forall_lookup_1 _ _ _ _ Hcs E).
Qed.

Lemma strip_links_well_named n : well_named n -> well_named (strip_links n).
Proof.
  induction n as [nm ci l cs IH] using Node_ind.
  rewrite !well_named_unfold. cbn [strip_links children].
  intros (Hnd & Htok & Hcs).
  assert (Hnames : name <$> map strip_links cs = name <$> cs).
  { clear. induction cs as [|c cs IHcs]; [reflexivity|].
    cbn. now rewrite name_strip_links, <- IHcs. }
  split; [now rewrite Hnames|]. split.
  - clear -Htok. induction Htok as [|c cs Hc _ IHcs]; [constructor|].
    cbn. constructor; [now rewrite name_strip_links | exact IHcs].
  - clear -IH Hcs. induction IH as [|c cs Hc _ IHcs]; [constructor|].
    apply Forall_cons in Hcs as [Hwc Hcs]. cbn. constructor; auto.
Qed.

(** The names stay in order through every call. *)
Lemma run_call_well_named k σ σ' :
  run_call k σ = Ok σ' -> well_named (tree σ) -> well_named (tree σ').
Proof.
  destruct k as [b path v c|b path rv|b path lock|b path b0|b|c|c val|rv dest|rv src];
    cbn [run_call].
  - destruct (channel b path v c σ) as [[[code c'] σ1]|] eqn:E; [|discriminate].
    intros [= <-] Hwn. cbn [snd]. destruct (decide (code = 0)) as [->|Hcode].
    + destruct (channel_shape _ _ _ _ _ _ _ E)
        as (tokens & rn & rn' & p & n0 & l & Htok & Hrn & Hins & Hn0 & _ & _ & -> & _).
      destruct (tokenize_path_tokens_ok _ _ Htok) as [_ Hok].
      pose proof (insert_node_well_named tokens rn true
                    (get_node_well_named _ _ _ Hwn Hrn) Hok) as Hrn'.
      pose proof (insert_node_root_fields tokens rn true) as (Hnm & _ & _).
      rewrite Hins in Hrn', Hnm. cbn [fst] in Hrn', Hnm.
      apply (set_node_well_named (root b) (tree σ) rn _ Hrn); [|exact Hwn|].
      * rewrite <- Hnm. now apply (set_node_name p rn' n0).
      * apply (set_node_well_named p rn' n0 _ Hn0); [reflexivity|exact Hrn'|].
        apply (well_named_fields n0); [reflexivity|].
        exact (get_node_well_named _ _ _ Hrn' Hn0).
    + now rewrite (channel_failure_unchanged _ _ _ _ _ _ _ _ E Hcode).
  - destruct (rivulet b path rv σ) as [[[code rv'] σ1]|] eqn:E; [|discriminate].
    intros [= <-] Hwn. cbn [snd]. destruct (decide (code = 0)) as [->|Hcode].
    + destruct (rivulet_shape _ _ _ _ _ _ E)
        as (tokens & rn & p & n & l & _ & Hrn & _ & Hn & _ & -> & _).
      assert (Hg : get_node (tree σ) (root b ++ p) = Some n)
        by (now rewrite get_node_app, Hrn).
      apply (set_node_well_named (root b ++ p) (tree σ) n _ Hg); [reflexivity|exact Hwn|].
      apply (well_named_fields n); [reflexivity|].
      exact (get_node_well_named _ _ _ Hwn Hg).
    + now rewrite (rivulet_failure_unchanged _ _ _ _ _ _ _ E Hcode).
  - destruct (Builder.lock b path lock σ) as [[code σ1]|] eqn:E; [|discriminate].
    intros [= <-] Hwn. cbn [snd]. destruct (decide (code = 0)) as [->|Hcode].
    + apply lock_inv in E as (tokens & n & _ & _ & _ & _ & ->). exact Hwn.
    + now rewrite (lock_failure_unchanged _ _ _ _ _ _ E Hcode).
  - destruct (sub b path b0 σ) as [[[code b'] σ1]|] eqn:E; [|discriminate].
    intros [= <-] Hwn. cbn [snd]. destruct (decide (code = 0)) as [->|Hcode].
    + destruct (sub_shape _ _ _ _ _ _ E)
        as (tokens & rn & rn' & p & Htok & Hrn & Hins & _ & ->).
      destruct (tokenize_path_tokens_ok _ _ Htok) as [_ Hok].
      pose proof (insert_node_well_named tokens rn true
                    (get_node_well_named _ _ _ Hwn Hrn) Hok) as Hrn'.
      pose proof (insert_node_root_fields tokens rn true) as (Hnm & _ & _).
      rewrite Hins in Hrn', Hnm. cbn [fst] in Hrn', Hnm.
      cbn [tree with_tree].
      now apply (set_node_well_named (root b) (tree σ) rn _ Hrn).
    + now rewrite (proj1 (sub_failure_unchanged _ _ _ _ _ _ _ E Hcode)).
  - destruct (build b σ) as [[[code rr] σ1]|] eqn:E; [|discriminate].
    intros [= <-] Hwn. cbn [snd]. destruct (is_root b) eqn:Hroot.
    + destruct (build_shape _ _ _ _ _ Hroot E) as (rn & Hrn & _ & _ & -> & _).
      apply (set_node_well_named (root b) (tree σ) rn _ Hrn);
        [apply name_strip_links | exact Hwn |].
      apply strip_links_well_named. exact (get_node_well_named _ _ _ Hwn Hrn).
    + unfold build in E. rewrite Hroot in E. now injection E as _ _ <-.
  - intros H. now rewrite (proj1 (run_call_handle_tree (CallGet c) σ σ' I H)).
  - intros H. now rewrite (proj1 (run_call_handle_tree (CallSet c val) σ σ' I H)).
  - intros H. now rewrite (proj1 (run_call_handle_tree (CallRead rv dest) σ σ' I H)).
  - intros H. now rewrite (proj1 (run_call_handle_tree (CallWrite rv src) σ σ' I H)).
Qed.

Lemma run_calls_well_named ks : forall σ σ',
  run_calls ks σ = Ok σ' -> well_named (tree σ) -> well_named (tree σ').
Proof.
  induction ks as [|k ks IH]; intros σ σ'; cbn [run_calls].
  - now intros [= <-].
  - destruct (run_call k σ) as [σ1|] eqn:E; [|discriminate]. cbn.
    intros H Hwn. apply (IH σ1 σ' H). exact (run_call_well_named k σ σ1 E Hwn).
Qed.

(** Among children of distinct names the search finds each at its own
    place. *)
Lemma find_child_NoDup cs : forall i c,
  NoDup (name <$> cs) -> cs !! i = Some c -> find_child (name c) cs = Some (i, c).
Proof.
  induction cs as [|d cs IH]; intros [|i] c Hnd; simpl; try discriminate.
  - intros [= ->]. now rewrite String.eqb_refl.
  - intros Hc. cbn in Hnd. apply NoDup_cons in Hnd as [Hd Hnd].
    destruct (String.eqb_spec (name d) (name c)) as [Heq|_].
    + exfalso. apply Hd. rewrite Heq. apply list_elem_of_fmap. exists c.
      split; [reflexivity|]. eapply list_elem_of_lookup_2; exact Hc.
    + now rewrite (IH i c Hnd Hc).
Qed.

Lemma node_has_path p : forall n m,
  well_named n -> get_node n p = Some m ->
  exists ts, Forall token_ok ts /\ length ts = length p
             /\ snd (insert_node n ts false) = Some p.
Proof.
  induction p as [|i p IH]; intros n m Hn; simpl.
  - intros _. exists []. auto.
  - destruct (children n !! i) as [c|] eqn:E; [|discriminate]. intros Hm.
    apply well_named_unfold in Hn as (Hnd & Htok & Hcs).
    destruct (IH c m (Forall_lookup_1 _ _ _ _ Hcs E) Hm) as (ts & Hts & Hlen & Hlook).
    exists (name c :: ts). split; [|split].
    + constructor; [exact (Forall_lookup_1 _ _ _ _ Htok E) | exact Hts].
    + simpl. now rewrite Hlen.
    + cbn [insert_node]. rewrite (find_child_NoDup _ _ _ Hnd E).
      destruct (insert_node c ts false) as [c' r]. cbn [snd] in *. now rewrite Hlook.
Qed.

(** X23.  In a tree made by calls from a new builder no two children of a
    node have the same name, and every node below the root has a path: a
    list of tokens that [tokenize_path] accepts when joined by dots, whose
    lookup leads to the node and whose last token is the name of the node.
    So no node is hidden behind a sibling of the same name. *)
Theorem every_node_has_a_path ks σ :
  run_calls ks (snd new_builder) = Ok σ ->
  (forall m, In m (nodes (tree σ)) -> NoDup (name <$> children m))
  /\ (forall p m, p <> [] -> get_node (tree σ) p = Some m ->
        exists ts, tokenize_path (join ts) = (0, ts)
                   /\ snd (insert_node (tree σ) ts false) = Some p
                   /\ List.last ts EmptyString = name m).
Proof.
  intros H.
  assert (Hwn : well_named (tree σ)).
  { apply (run_calls_well_named ks _ _ H). apply well_named_unfold.
    cbn. repeat split; constructor. }
  split.
  - intros m Hm. unfold well_named in Hwn. rewrite Forall_forall in Hwn.
    exact (proj1 (Hwn m (proj2 (list_elem_of_In _ _) Hm))).
  - intros p m Hp Hm.
    destruct (node_has_path p (tree σ) m Hwn Hm) as (ts & Hts & Hlen & Hlook).
    assert (Hne : ts <> []) by (destruct ts, p; simpl in *; congruence).
    exists ts. split; [exact (proj1 (tokenize_path_accepts ts Hne Hts))|].
    split; [exact Hlook|]. symmetry. exact (lookup_name ts _ p m Hne Hlook Hm).
Qed.

Lemma every_node_has_a_path_witness :
  exists ts, tokenize_path (join ts) = (0, ts)
             /\ snd (insert_node (tree demo_abx) ts false) = Some [0; 0]%nat
             /\ List.last ts EmptyString = "x"%string.
Proof.
  exact (proj2 (every_node_has_a_path
                  [CallChannel (fst new_builder) "a" [Byte.x01] (Channel.unbound 1);
                   CallChannel (fst new_builder) "a.x" [Byte.x02] (Channel.unbound 1);
                   CallChannel (fst new_builder) "b" [Byte.x03] (Channel.unbound 1)]
                  demo_abx eq_refl)
           [0; 0]%nat
           (mkNode "x" (Some (mkChannelInfo [Byte.x02])) (Some 1%nat) [])
           ltac:(discriminate) eq_refl).
Defined.

End naming.

(** ** Where the size of a rivulet and the storage part ways *)

Section rivulet_defects.
Import Builder.
Local Open Scope string_scope.

(** C5 (as the code has it).  [build_node] takes the size of a rivulet
    from [sum_size], which counts every channel below the node, and its
    offset from the Link of the first child, while it lays a channel out
    only where the node holds a Link.
    - A first build with the channel [g.a.x] and a rivulet handle at [g]:
      the subtree of [g] holds one channel of one byte, and the build
      reads through the null [link] of the first child [a].
    - The channels [g.x] and [g.y] of one byte each, a build, then rivulet
      handles at [g.x] and at [g] and a second build: it returns 0, the
      rivulet of [g] has size 2 for the channels [g.x] and [g.y], the
      storage of the second river holds the one byte of [g.x], and [read]
      into a buffer of two bytes copies from beyond the storage. *)
Theorem rivulet_size_and_storage_disagree :
  (exists σ0 rv σ,
     run_calls [CallChannel (fst new_builder) "g.a.x" [Byte.x01] (Channel.unbound 1)]
       (snd new_builder) = Ok σ0
     /\ rivulet (fst new_builder) "g" Rivulet.unbound σ0 = Ok (0, rv, σ)
     /\ build (fst new_builder) σ = Fault)
  /\ (exists σ0 rx σ1 rv σ2 σ3,
     run_calls [CallChannel (fst new_builder) "g.x" [Byte.x01] (Channel.unbound 1);
                CallChannel (fst new_builder) "g.y" [Byte.x02] (Channel.unbound 1);
                CallBuild (fst new_builder)] (snd new_builder) = Ok σ0
     /\ rivulet (fst new_builder) "g.x" Rivulet.unbound σ0 = Ok (0, rx, σ1)
     /\ rivulet (fst new_builder) "g" Rivulet.unbound σ1 = Ok (0, rv, σ2)
     /\ build (fst new_builder) σ2 = Ok (0, Some 1%nat, σ3)
     /\ (exists g, subtree_at (fst new_builder) ["g"] σ2 = Some g
                   /\ map info_size (descendants g) = [1; 1]%nat)
     /\ Rivulet.size rv (heap σ3) = Ok 2%nat
     /\ rivers (heap σ3) !! 1%nat = Some [Byte.x01]
     /\ Rivulet.read rv (Some [Byte.x00; Byte.x00]) (heap σ3) = Fault).
Proof.
  split.
  - do 3 eexists. split; [vm_compute; reflexivity|].
    split; vm_compute; reflexivity.
  - do 6 eexists. split; [vm_compute; reflexivity|].
    split; [vm_compute; reflexivity|]. split; [vm_compute; reflexivity|].
    split; [vm_compute; reflexivity|].
    split; [eexists; split; vm_compute; reflexivity|].
    split; [vm_compute; reflexivity|]. split; vm_compute; reflexivity.
Qed.

End rivulet_defects.

(** ** A lock below a lock *)

Section lock_defects.
Import Builder.
Local Open Scope string_scope.

(** C8 (as the code has it).  The tree holds the channels [a], [a.x] and
    [b]; [lock("a", 7)] returns 0.  The channel [a.y] declared after it
    gets a new Link, which holds no lock, so the scan of [lock("a.y", 8)]
    finds nothing and the call returns 0 although [a.y] lies below the
    locked [a]: the Links of [a] and [a.x] hold lock 7, that of [a.y] lock
    8.  After a build the byte of [a.y], at offset 2, lies in the rivulet
    of [a] (offset 1, size 2): the rivulet handle of [a] reaches it under
    lock 7 and the channel handle of [a.y] under lock 8. *)
Theorem lock_below_a_lock_is_not_refused :
  exists σ1 cy σ2 σ3 ra σ4 σ5,
    lock (fst new_builder) "a" (Some 7%nat) demo_abx = Ok (0, σ1)
    /\ channel (fst new_builder) "a.y" [Byte.x04] (Channel.unbound 1) σ1
       = Ok (0, cy, σ2)
    /\ lock (fst new_builder) "a.y" (Some 8%nat) σ2 = Ok (0, σ3)
    /\ map Link.lock (links (heap σ3)) = [Some 7; Some 7; None; Some 8]%nat
    /\ rivulet (fst new_builder) "a" Rivulet.unbound σ3 = Ok (0, ra, σ4)
    /\ build (fst new_builder) σ4 = Ok (0, Some 0%nat, σ5)
    /\ lock_calls (Rivulet.link ra) (heap σ5) = [Acquire 7%nat; Release 7%nat]
    /\ lock_calls (Channel.link cy) (heap σ5) = [Acquire 8%nat; Release 8%nat]
    /\ (exists La Ly,
          links (heap σ5) !! 0%nat = Some La /\ links (heap σ5) !! 3%nat = Some Ly
          /\ Rivulet.link ra = Some 0%nat /\ Channel.link cy = Some 3%nat
          /\ Link.rivulet_offset La = Some 1%nat /\ Link.rivulet_size La = Some 2%nat
          /\ Link.channel_offset Ly = Some 2%nat).
Proof.
  do 7 eexists. split; [vm_compute; reflexivity|].
  split; [vm_compute; reflexivity|]. split; [vm_compute; reflexivity|].
  split; [vm_compute; reflexivity|]. split; [vm_compute; reflexivity|].
  split; [vm_compute; reflexivity|]. split; [vm_compute; reflexivity|].
  split; [vm_compute; reflexivity|].
  do 2 eexists. repeat split; vm_compute; reflexivity.
Qed.

End lock_defects.

(** ** What a call does to the Links *)

Section call_effects.
Import Builder.

Lemma call_effect_refl σ : call_effect σ σ.
Proof.
  unfold call_effect. repeat split; auto. intros l L HL. exists L. auto.
Qed.

(** A call that leaves the heap as it is or allocates one Link, and puts
    the new Link, if any, into the tree. *)
Lemma effect_of_new_links σ σ' extra :
  node_links (tree σ') ≡ₚ extra ++ node_links (tree σ) ->
  (extra = [] /\ heap σ' = heap σ)
  \/ (extra = [length (links (heap σ))] /\ heap σ' = snd (new_link (heap σ))) ->
  call_effect σ σ' /\ (forall l, l ∈ node_links (tree σ) -> l ∈ node_links (tree σ')).
Proof.
  intros Hperm Hheap. split.
  - unfold call_effect.
    destruct Hheap as [[-> ->]|[-> ->]]; cbn [new_link snd links rivers with_links].
    + repeat split; try lia.
      * intros l Hl. left. now rewrite Hperm in Hl.
      * intros l L HL. exists L. auto.
    + rewrite length_app. cbn [length]. repeat split; try lia.
      * intros l Hl. rewrite Hperm in Hl.
        apply elem_of_cons in Hl as [->|Hl]; [right; lia | now left].
      * intros l _ Hlt. now rewrite lookup_app_l.
      * intros l L HL. exists L. split; [|auto].
        rewrite lookup_app_l; [exact HL|]. eapply lookup_lt_Some; exact HL.
  - intros l Hl. rewrite Hperm. apply elem_of_app. now right.
Qed.

Lemma channel_effect b path v c σ c' σ' :
  channel b path v c σ = Ok (0, c', σ') ->
  call_effect σ σ' /\ (forall l, l ∈ node_links (tree σ) -> l ∈ node_links (tree σ')).
Proof.
  intros E.
  destruct (channel_shape _ _ _ _ _ _ _ E)
    as (tokens & rn & rn' & p & n0 & l & _ & Hrn & Hins & Hn0 & _ & _ & Ht & Hh).
  pose proof (insert_node_links tokens rn true) as Hlinks.
  rewrite Hins in Hlinks. cbn [fst] in Hlinks.
  set (extra := match link n0 with Some _ => [] | None => [l] end).
  apply (effect_of_new_links σ σ' extra).
  - rewrite Ht. apply (set_node_links extra (root b) (tree σ) rn _ Hrn).
    rewrite <- Hlinks. apply (set_node_links extra p rn' n0 _ Hn0).
    rewrite (node_links_unfold n0), node_links_unfold. cbn [link children option_list].
    subst extra. destruct Hh as [[-> _]|[-> _]]; reflexivity.
  - subst extra. destruct Hh as [[-> Hh]|(-> & -> & Hh)]; [left | right]; auto.
Qed.

Lemma rivulet_effect b path rv σ rv' σ' :
  rivulet b path rv σ = Ok (0, rv', σ') ->
  call_effect σ σ' /\ (forall l, l ∈ node_links (tree σ) -> l ∈ node_links (tree σ')).
Proof.
  intros E.
  destruct (rivulet_shape _ _ _ _ _ _ E)
    as (tokens & rn & p & n & l & _ & Hrn & _ & Hn & _ & Ht & Hh).
  assert (Hg : get_node (tree σ) (root b ++ p) = Some n)
    by (now rewrite get_node_app, Hrn).
  set (extra := match link n with Some _ => [] | None => [l] end).
  apply (effect_of_new_links σ σ' extra).
  - rewrite Ht. apply (set_node_links extra (root b ++ p) (tree σ) n _ Hg).
    rewrite (node_links_unfold n), node_links_unfold.
    cbn [link children with_link option_list].
    subst extra. destruct Hh as [[-> _]|[-> _]]; reflexivity.
  - subst extra. destruct Hh as [[-> Hh]|(-> & -> & Hh)]; [left | right]; auto.
Qed.

Lemma sub_effect b path b0 σ b' σ' :
  sub b path b0 σ = Ok (0, b', σ') ->
  call_effect σ σ' /\ (forall l, l ∈ node_links (tree σ) -> l ∈ node_links (tree σ')).
Proof.
  intros E.
  destruct (sub_shape _ _ _ _ _ _ E) as (tokens & rn & rn' & p & _ & Hrn & Hins & _ & ->).
  pose proof (insert_node_links tokens rn true) as Hlinks.
  rewrite Hins in Hlinks. cbn [fst] in Hlinks.
  apply (effect_of_new_links σ _ []); [|left; auto].
  cbn [tree with_tree app]. now apply (set_root_links _ _ rn).
Qed.

Lemma subtree_links_in_tree b tokens σ n l :
  subtree_at b tokens σ = Some n -> l ∈ node_links n -> l ∈ node_links (tree σ).
Proof.
  intros Hn Hl. apply list_elem_of_omap in Hl as (m & Hm & El).
  apply (node_link_in_node_links _ m); [|exact El].
  apply (nodes_trans m n); [now apply list_elem_of_In|].
  eapply subtree_at_in_tree; exact Hn.
Qed.

Lemma lock_effect b path lk σ σ' :
  lock b path lk σ = Ok (0, σ') ->
  call_effect σ σ' /\ tree σ' = tree σ.
Proof.
  intros E. apply lock_inv in E as (tokens & n & _ & Hn & _ & Hun & ->).
  split; [|reflexivity]. unfold call_effect.
  cbn [tree heap with_heap links rivers with_links]. rewrite lock_all_length.
  repeat split; auto.
  - intros l Hl _. rewrite lock_all_lookup. rewrite decide_False; [reflexivity|].
    intros Hin. apply Hl. eapply subtree_links_in_tree; eassumption.
  - intros l L HL. rewrite lock_all_lookup.
    destruct (decide (l ∈ node_links n)) as [Hin|_]; [|exists L; auto].
    rewrite HL. cbn. eexists. split; [reflexivity|]. intros [k Hk]. exfalso.
    apply list_elem_of_omap in Hin as (m & Hm & El).
    unfold unlocked in Hun. rewrite Forall_forall in Hun.
    specialize (Hun m Hm L). unfold link_of in Hun. rewrite El in Hun.
    rewrite (Hun HL) in Hk. discriminate.
Qed.

Lemma build_effect b σ code rr σ' :
  wf σ -> build b σ = Ok (code, rr, σ') -> call_effect σ σ'.
Proof.
  intros [Hnd Halloc] H. destruct (is_root b) eqn:Hroot.
  2:{ unfold build in H. rewrite Hroot in H. injection H as _ _ <-.
      apply call_effect_refl. }
  destruct (build_shape _ _ _ _ _ Hroot H) as (rn & Hrn & _ & _ & Ht & Hb).
  assert (Hsub : node_links (tree σ') `sublist_of` node_links (tree σ)).
  { rewrite Ht. eapply set_node_links_sublist; [exact Hrn|].
    rewrite node_links_strip. apply sublist_nil_l. }
  pose proof (node_links_sublist _ _ _ Hrn) as Hsubrn.
  assert (Hndrn : NoDup (node_links rn)) by (eapply sublist_NoDup; eassumption).
  destruct (build_node_post rn _ _ _ [] Hndrn (new_river_lookup (heap σ)) Hb)
    as [(Hriv & _ & Hlen & Hout & Hlocks) _].
  unfold with_new_river in Hriv, Hlen, Hout, Hlocks.
  cbn [new_river snd links rivers with_rivers] in Hriv, Hlen, Hout, Hlocks.
  unfold call_effect. repeat split.
  - lia.
  - rewrite Hriv, length_insert, length_app. lia.
  - intros l Hl. left. eapply elem_of_sublist; eassumption.
  - intros l Hl _. apply Hout. intros Hin. apply Hl.
    eapply elem_of_sublist; eassumption.
  - intros l L HL.
    destruct (lookup_lt_is_Some_2 (links (heap σ')) l) as [L' HL'].
    { rewrite Hlen. eapply lookup_lt_Some; exact HL. }
    exists L'. split; [exact HL'|]. intros _.
    destruct (Hlocks l L' HL') as (L0 & HL0 & ->). congruence.
Qed.

Lemma handle_rivers_length k σ σ' :
  match k with
  | CallGet _ | CallSet _ _ | CallRead _ _ | CallWrite _ _ => True
  | _ => False
  end ->
  run_call k σ = Ok σ' ->
  length (rivers (heap σ')) = length (rivers (heap σ)).
Proof.
  destruct k as [b path v c|b path rv|b path lock|b path b0|b|c|c val|rv dest|rv src];
    try contradiction; intros _; cbn [run_call].
  - destruct (Channel.get c (heap σ)) as [[v h']|] eqn:E; [|discriminate].
    intros [= <-]. cbn [heap with_heap snd].
    destruct (Linkable.linked (Channel.link c) (heap σ)) eqn:Hl.
    + apply serialize_inv in E as (l & L & r & st & off & src & _ & _ & _ & _ & _ & _ & _ & ->);
        [|exact Hl].
      now rewrite bracketed_rivers.
    + unfold Channel.get, Channel.serialize in E. rewrite Hl in E. now injection E as _ <-.
  - destruct (Channel.set c val (heap σ)) as [h'|] eqn:E; [|discriminate].
    intros [= <-]. cbn [heap with_heap].
    destruct (Linkable.linked (Channel.link c) (heap σ)) eqn:Hl.
    + apply deserialize_inv in E
        as (l & L & r & st & off & v & st' & _ & _ & _ & _ & _ & _ & _ & ->); [|exact Hl].
      rewrite bracketed_rivers. cbn [rivers with_rivers]. apply length_insert.
    + unfold Channel.set, Channel.deserialize in E. rewrite Hl in E. now injection E as <-.
  - destruct (Rivulet.read rv dest (heap σ)) as [[d h']|] eqn:E; [|discriminate].
    intros [= <-]. cbn [heap with_heap snd].
    destruct dest as [buf|]; [|cbn in E; now injection E as _ <-].
    destruct (Linkable.linked (Rivulet.link rv) (heap σ)) eqn:Hl.
    + apply rivulet_read_inv in E
        as (l & L & r & st & off & n & src & buf' & _ & _ & _ & _ & _ & _ & _ & _ & _ & ->);
        [|exact Hl].
      now rewrite bracketed_rivers.
    + unfold Rivulet.read in E. rewrite Hl in E. now injection E as _ <-.
  - destruct (Rivulet.write rv src (heap σ)) as [h'|] eqn:E; [|discriminate].
    intros [= <-]. cbn [heap with_heap].
    destruct src as [buf|]; [|cbn in E; now injection E as <-].
    destruct (Linkable.linked (Rivulet.link rv) (heap σ)) eqn:Hl.
    + apply rivulet_write_inv in E
        as (l & L & r & st & off & n & v & st' & _ & _ & _ & _ & _ & _ & _ & _ & ->);
        [|exact Hl].
      rewrite bracketed_rivers. cbn [rivers with_rivers]. apply length_insert.
    + unfold Rivulet.write in E. rewrite Hl in E. now injection E as <-.
Qed.

Lemma handle_effect k σ σ' :
  match k with
  | CallGet _ | CallSet _ _ | CallRead _ _ | CallWrite _ _ => True
  | _ => False
  end ->
  run_call k σ = Ok σ' ->
  call_effect σ σ' /\ tree σ' = tree σ.
Proof.
  intros Hk H. destruct (run_call_handle_tree k σ σ' Hk H) as [Ht Hl].
  pose proof (handle_rivers_length k σ σ' Hk H) as Hr.
  split; [|exact Ht]. unfold call_effect. rewrite Ht, Hl, Hr.
  repeat split; auto. intros l L HL. exists L. auto.
Qed.

(** Every call that returns has the effect of [call_effect], and a call
    other than a build on a root builder keeps every Link of the tree in
    the tree. *)
Lemma run_call_effect k σ σ' :
  wf σ -> run_call k σ = Ok σ' ->
  call_effect σ σ'
  /\ (builds k = false ->
      forall l, l ∈ node_links (tree σ) -> l ∈ node_links (tree σ')).
Proof.
  intros Hwf.
  destruct k as [b path v c|b path rv|b path lock|b path b0|b|c|c val|rv dest|rv src];
    cbn [run_call builds].
  - destruct (channel b path v c σ) as [[[code c'] σ1]|] eqn:E; [|discriminate].
    intros [= <-]. cbn [snd]. destruct (decide (code = 0)) as [->|Hcode].
    + destruct (channel_effect _ _ _ _ _ _ _ E). auto.
    + rewrite (channel_failure_unchanged _ _ _ _ _ _ _ _ E Hcode).
      split; [apply call_effect_refl | auto].
  - destruct (rivulet b path rv σ) as [[[code rv'] σ1]|] eqn:E; [|discriminate].
    intros [= <-]. cbn [snd]. destruct (decide (code = 0)) as [->|Hcode].
    + destruct (rivulet_effect _ _ _ _ _ _ E). auto.
    + rewrite (rivulet_failure_unchanged _ _ _ _ _ _ _ E Hcode).
      split; [apply call_effect_refl | auto].
  - destruct (Builder.lock b path lock σ) as [[code σ1]|] eqn:E; [|discriminate].
    intros [= <-]. cbn [snd]. destruct (decide (code = 0)) as [->|Hcode].
    + destruct (lock_effect _ _ _ _ _ E) as [He Ht]. split; [exact He|].
      intros _ l. now rewrite Ht.
    + rewrite (lock_failure_unchanged _ _ _ _ _ _ E Hcode).
      split; [apply call_effect_refl | auto].
  - destruct (sub b path b0 σ) as [[[code b'] σ1]|] eqn:E; [|discriminate].
    intros [= <-]. cbn [snd]. destruct (decide (code = 0)) as [->|Hcode].
    + destruct (sub_effect _ _ _ _ _ _ E). auto.
    + rewrite (proj1 (sub_failure_unchanged _ _ _ _ _ _ _ E Hcode)).
      split; [apply call_effect_refl | auto].
  - destruct (build b σ) as [[[code rr] σ1]|] eqn:E; [|discriminate].
    intros [= <-]. cbn [snd]. split; [eapply build_effect; eassumption|].
    intros Hroot. unfold build in E. rewrite Hroot in E. now injection E as _ _ <-.
  - intros H. destruct (handle_effect (CallGet c) σ σ' I H) as [He Ht].
    split; [exact He|]. intros _ l. now rewrite Ht.
  - intros H. destruct (handle_effect (CallSet c val) σ σ' I H) as [He Ht].
    split; [exact He|]. intros _ l. now rewrite Ht.
  - intros H. destruct (handle_effect (CallRead rv dest) σ σ' I H) as [He Ht].
    split; [exact He|]. intros _ l. now rewrite Ht.
  - intros H. destruct (handle_effect (CallWrite rv src) σ σ' I H) as [He Ht].
    split; [exact He|]. intros _ l. now rewrite Ht.
Qed.

(** *** Links the tree has let go of *)

Lemma frozen_step N lks σ σ' : call_effect σ σ' -> frozen N lks σ -> frozen N lks σ'.
Proof.
  intros (Hlen & _ & Htree & Hout & _) (HN & Hge & Heq).
  rewrite Forall_forall in Hge. split; [lia|]. split.
  - apply Forall_forall. intros l Hl. destruct (Htree l Hl) as [Hin|Hnew]; [auto | lia].
  - intros l Hl. rewrite <- (Heq l Hl). apply Hout; [|lia].
    intros Hin. apply Hge in Hin. lia.
Qed.

Lemma run_calls_frozen N lks ks : forall σ σ',
  wf σ -> frozen N lks σ -> run_calls ks σ = Ok σ' ->
  wf σ' /\ frozen N lks σ'
  /\ (length (rivers (heap σ)) <= length (rivers (heap σ')))%nat.
Proof.
  induction ks as [|k ks IH]; intros σ σ' Hwf Hfr; cbn [run_calls].
  - intros [= <-]. auto.
  - destruct (run_call k σ) as [σ1|] eqn:E; [|discriminate]. cbn [obind]. intros H.
    destruct (run_call_effect k σ σ1 Hwf E) as [He _].
    destruct (IH σ1 σ' (wf_run_call k σ σ1 Hwf E) (frozen_step N lks σ σ1 He Hfr) H)
      as (Hwf' & Hfr' & Hr).
    split; [exact Hwf'|]. split; [exact Hfr'|].
    destruct He as (_ & Hr1 & _). lia.
Qed.

(** A build lets go of every Link of the tree. *)
Lemma frozen_after_build b σ code rr σ1 :
  is_root b = true -> root b = [] ->
  build b σ = Ok (code, rr, σ1) ->
  frozen (length (links (heap σ1))) (links (heap σ1)) σ1.
Proof.
  intros Hroot Hpos H. destruct (build_inv _ _ _ _ _ Hroot Hpos H) as (_ & _ & Ht & _).
  split; [lia|]. split; [|auto]. rewrite Ht, node_links_strip. constructor.
Qed.

(** *** A handle sees its own Link and river only *)

Lemma handle_ops_local l L r h h' :
  links h !! l = Some L -> links h' !! l = Some L -> Link.river L = Some r ->
  rivers h' !! r = rivers h !! r ->
  (forall sz, value_of (Channel.get (Channel.mk (Some l) sz) h')
              = value_of (Channel.get (Channel.mk (Some l) sz) h))
  /\ (forall dest, value_of (Rivulet.read (Rivulet.mk (Some l)) dest h')
                   = value_of (Rivulet.read (Rivulet.mk (Some l)) dest h))
  /\ Rivulet.size (Rivulet.mk (Some l)) h' = Rivulet.size (Rivulet.mk (Some l)) h
  /\ (forall sz x, storage_after r (Channel.set (Channel.mk (Some l) sz) x h')
                   = storage_after r (Channel.set (Channel.mk (Some l) sz) x h))
  /\ (forall src, storage_after r (Rivulet.write (Rivulet.mk (Some l)) src h')
                  = storage_after r (Rivulet.write (Rivulet.mk (Some l)) src h)).
Proof.
  intros HL HL' Hr Hriv.
  assert (Hlinked : forall k, links k !! l = Some L -> Linkable.linked (Some l) k = true).
  { intros k Hk. unfold Linkable.linked. rewrite Hk, Hr. reflexivity. }
  assert (Hins : forall st',
            <[r := st']> (rivers h') !! r = <[r := st']> (rivers h) !! r).
  { intros st'. destruct (rivers h !! r) as [st|] eqn:Hst.
    - rewrite !list_lookup_insert_eq; [reflexivity| |];
        eapply lookup_lt_Some; eassumption.
    - rewrite !list_insert_ge; [congruence| |]; apply lookup_ge_None; congruence. }
  split; [|split; [|split; [|split]]].
  - intros sz. unfold Channel.get, Channel.serialize. cbn [Channel.link Channel.size].
    rewrite (Hlinked h HL), (Hlinked h' HL'). cbn [negb].
    unfold get_link, get_storage. heap_simpl. rewrite HL, HL'. heap_simpl.
    rewrite Hr. heap_simpl. rewrite !acquire_rivers, Hriv.
    destruct (rivers h !! r) as [st|]; [|reflexivity]. heap_simpl.
    destruct (Link.channel_offset L) as [off|]; [|reflexivity]. heap_simpl.
    destruct (read_bytes st off sz) as [src|]; [|reflexivity]. heap_simpl.
    destruct (write_bytes _ 0 src) as [d|]; reflexivity.
  - intros [buf|]; [|reflexivity]. unfold Rivulet.read. cbn [Rivulet.link].
    rewrite (Hlinked h HL), (Hlinked h' HL'). cbn [negb].
    unfold get_link, get_storage. heap_simpl. rewrite HL, HL'. heap_simpl.
    rewrite Hr. heap_simpl. rewrite !acquire_rivers, Hriv.
    destruct (rivers h !! r) as [st|]; [|reflexivity]. heap_simpl.
    destruct (Link.rivulet_offset L) as [off|]; [|reflexivity]. heap_simpl.
    destruct (Link.rivulet_size L) as [n|]; [|reflexivity]. heap_simpl.
    destruct (read_bytes st off n) as [src|]; [|reflexivity]. heap_simpl.
    destruct (write_bytes buf 0 src) as [d|]; reflexivity.
  - unfold Rivulet.size. cbn [Rivulet.link].
    rewrite (Hlinked h HL), (Hlinked h' HL'). cbn [negb].
    unfold get_link. heap_simpl. now rewrite HL, HL'.
  - intros sz x. unfold Channel.set, Channel.deserialize. cbn [Channel.link Channel.size].
    rewrite (Hlinked h HL), (Hlinked h' HL'). cbn [negb].
    unfold get_link, set_storage, get_storage. heap_simpl. rewrite HL, HL'. heap_simpl.
    rewrite Hr. heap_simpl. rewrite !acquire_rivers, Hriv.
    destruct (rivers h !! r) as [st|]; [|reflexivity]. heap_simpl.
    destruct (Link.channel_offset L) as [off|]; [|reflexivity]. heap_simpl.
    destruct (read_bytes x 0 sz) as [val|]; [|reflexivity]. heap_simpl.
    destruct (write_bytes st off val) as [st'|]; [|reflexivity]. heap_simpl.
    cbn [storage_after]. rewrite !release_rivers. cbn [rivers with_rivers].
    rewrite ?acquire_rivers. now rewrite Hins.
  - intros [buf|]; [|cbn; now rewrite Hriv]. unfold Rivulet.write. cbn [Rivulet.link].
    rewrite (Hlinked h HL), (Hlinked h' HL'). cbn [negb].
    unfold get_link, set_storage, get_storage. heap_simpl. rewrite HL, HL'. heap_simpl.
    rewrite Hr. heap_simpl. rewrite !acquire_rivers, Hriv.
    destruct (rivers h !! r) as [st|]; [|reflexivity]. heap_simpl.
    destruct (Link.rivulet_offset L) as [off|]; [|reflexivity]. heap_simpl.
    destruct (Link.rivulet_size L) as [n|]; [|reflexivity]. heap_simpl.
    destruct (read_bytes buf 0 n) as [val|]; [|reflexivity]. heap_simpl.
    destruct (write_bytes st off val) as [st'|]; [|reflexivity]. heap_simpl.
    cbn [storage_after]. rewrite !release_rivers. cbn [rivers with_rivers].
    rewrite ?acquire_rivers. now rewrite Hins.
Qed.

(** A [set] or a [write] stores into the river of its Link only. *)
Lemma handle_stores_elsewhere l L r h r0 :
  links h !! l = Some L -> Link.river L = Some r -> r0 <> r ->
  (forall sz x h', Channel.set (Channel.mk (Some l) sz) x h = Ok h' ->
     rivers h' !! r0 = rivers h !! r0)
  /\ (forall src h', Rivulet.write (Rivulet.mk (Some l)) src h = Ok h' ->
     rivers h' !! r0 = rivers h !! r0).
Proof.
  intros HL Hr Hne.
  assert (Hlinked : Linkable.linked (Some l) h = true).
  { unfold Linkable.linked. rewrite HL, Hr. reflexivity. }
  split.
  - intros sz x h' H. apply deserialize_inv in H
      as (l' & L' & r' & st & off & val & st' & Hc & HL' & Hr' & _ & _ & _ & _ & ->);
      [|exact Hlinked].
    cbn [Channel.link] in Hc. injection Hc as <-.
    rewrite HL in HL'. injection HL' as <-. rewrite Hr in Hr'. injection Hr' as <-.
    rewrite bracketed_rivers. cbn [rivers with_rivers].
    apply list_lookup_insert_ne. congruence.
  - intros [buf|] h' H; [|cbn in H; now injection H as <-].
    apply rivulet_write_inv in H
      as (l' & L' & r' & st & off & n & val & st' & Hc & HL' & Hr' & _ & _ & _ & _ & _ & ->);
      [|exact Hlinked].
    cbn [Rivulet.link] in Hc. injection Hc as <-.
    rewrite HL in HL'. injection HL' as <-. rewrite Hr in Hr'. injection Hr' as <-.
    rewrite bracketed_rivers. cbn [rivers with_rivers].
    apply list_lookup_insert_ne. congruence.
Qed.

End call_effects.

(** ** Building again *)

Section rebuild.
Import Builder.

(** C6.  Two builds of the root builder, the first from a state that
    keeps to [wf], with any calls in between that return (declarations,
    locks, sub-builders, further builds, reads and writes).  Both builds
    hand back a river, the second a later one, and both storages exist
    after the second build, which changes no other storage and calls no
    lock.  Every Link that the tree pointed to at the first build, so the
    Link of every handle given out before it, is bound to the first river
    by the first build and is the same after the calls in between and
    after the second build: no later build repoints it.  Through such a
    Link, after the second build [get], [read] and [size] give what they
    gave right before it, [set] and [write] leave the first storage as
    they left it right before it, and they do not touch the second
    storage. *)
Theorem rebuild_is_independent b σ code rr σ1 ks σ2 b2 code2 rr2 σ3 :
  is_root b = true -> root b = [] -> wf σ ->
  build b σ = Ok (code, rr, σ1) ->
  run_calls ks σ1 = Ok σ2 ->
  is_root b2 = true -> root b2 = [] ->
  build b2 σ2 = Ok (code2, rr2, σ3) ->
  let r1 := length (rivers (heap σ)) in
  let r2 := length (rivers (heap σ2)) in
  rr = Some r1 /\ rr2 = Some r2 /\ (r1 < r2)%nat
  /\ is_Some (rivers (heap σ3) !! r1) /\ is_Some (rivers (heap σ3) !! r2)
  /\ (forall r, r <> r2 -> rivers (heap σ3) !! r = rivers (heap σ2) !! r)
  /\ lock_trace (heap σ3) = lock_trace (heap σ2)
  /\ (forall m l, In m (nodes (tree σ)) -> link m = Some l ->
        exists L,
          Link.river L = Some r1
          /\ links (heap σ1) !! l = Some L
          /\ links (heap σ2) !! l = Some L
          /\ links (heap σ3) !! l = Some L
          /\ (forall sz, value_of (Channel.get (Channel.mk (Some l) sz) (heap σ3))
                         = value_of (Channel.get (Channel.mk (Some l) sz) (heap σ2)))
          /\ (forall dest, value_of (Rivulet.read (Rivulet.mk (Some l)) dest (heap σ3))
                           = value_of (Rivulet.read (Rivulet.mk (Some l)) dest (heap σ2)))
          /\ Rivulet.size (Rivulet.mk (Some l)) (heap σ3)
             = Rivulet.size (Rivulet.mk (Some l)) (heap σ2)
          /\ (forall sz x,
                storage_after r1 (Channel.set (Channel.mk (Some l) sz) x (heap σ3))
                = storage_after r1 (Channel.set (Channel.mk (Some l) sz) x (heap σ2)))
          /\ (forall src,
                storage_after r1 (Rivulet.write (Rivulet.mk (Some l)) src (heap σ3))
                = storage_after r1 (Rivulet.write (Rivulet.mk (Some l)) src (heap σ2)))
          /\ (forall sz x h', Channel.set (Channel.mk (Some l) sz) x (heap σ3) = Ok h' ->
                rivers h' !! r2 = rivers (heap σ3) !! r2)
          /\ (forall src h', Rivulet.write (Rivulet.mk (Some l)) src (heap σ3) = Ok h' ->
                rivers h' !! r2 = rivers (heap σ3) !! r2)).
Proof.
  intros Hroot Hpos Hwf Hb Hks Hroot2 Hpos2 Hb2 r1 r2.
  pose proof Hwf as [Hnd _].
  destruct (build_post _ _ _ _ _ Hroot Hpos Hnd Hb) as (_ & -> & _ & Hriv1 & _ & Hp).
  pose proof (wf_build_any _ _ _ _ _ Hwf Hb) as Hwf1.
  pose proof (frozen_after_build _ _ _ _ _ Hroot Hpos Hb) as Hfr1.
  destruct (run_calls_frozen _ _ ks σ1 σ2 Hwf1 Hfr1 Hks) as (Hwf2 & Hfr2 & Hlen).
  pose proof Hwf2 as [Hnd2 _].
  destruct (build_post _ _ _ _ _ Hroot2 Hpos2 Hnd2 Hb2)
    as (_ & -> & _ & Hriv2 & (_ & Htrace & _) & _).
  pose proof (frozen_step _ _ σ2 σ3 (build_effect _ _ _ _ _ Hwf2 Hb2) Hfr2) as Hfr3.
  assert (Hlt : (r1 < r2)%nat).
  { subst r1 r2. rewrite Hriv1, length_app in Hlen. cbn [length] in Hlen. lia. }
  assert (Hold : forall r, r <> r2 -> rivers (heap σ3) !! r = rivers (heap σ2) !! r).
  { intros r Hr. rewrite Hriv2. destruct (decide (r < r2)%nat) as [Hlt'|Hge].
    - now apply lookup_app_l.
    - rewrite (proj2 (lookup_ge_None (rivers (heap σ2)) r)) by (subst r2; lia).
      apply lookup_ge_None. rewrite length_app. cbn [length]. subst r2. lia. }
  split; [reflexivity|]. split; [reflexivity|]. split; [exact Hlt|].
  split; [|split; [|split; [exact Hold|split; [exact Htrace|]]]].
  - apply lookup_lt_is_Some_2. rewrite Hriv2, length_app. cbn [length]. subst r2. lia.
  - apply lookup_lt_is_Some_2. rewrite Hriv2, length_app. cbn [length]. subst r2. lia.
  - intros m l Hm El.
    destruct (tree_post_river _ _ _ 0%nat m l Hp Hm El) as (L & HL1 & Hr).
    pose proof (lookup_lt_Some _ _ _ HL1) as HlN.
    assert (HL2 : links (heap σ2) !! l = Some L).
    { destruct Hfr2 as (_ & _ & Heq). now rewrite (Heq l HlN). }
    assert (HL3 : links (heap σ3) !! l = Some L).
    { destruct Hfr3 as (_ & _ & Heq). now rewrite (Heq l HlN). }
    assert (Hne : r1 <> r2) by lia.
    destruct (handle_ops_local l L r1 (heap σ2) (heap σ3) HL2 HL3 Hr (Hold r1 Hne))
      as (Hg & Hrd & Hsz & Hst & Hwr).
    assert (Hne' : r2 <> r1) by lia.
    destruct (handle_stores_elsewhere l L r1 (heap σ3) r2 HL3 Hr Hne') as [Hs1 Hs2].
    exists L. repeat split; assumption.
Qed.

Lemma rebuild_is_independent_witness :
  exists L,
    Link.river L = Some 0%nat
    /\ links (heap demo_foo_built) !! 0%nat = Some L
    /\ links (heap demo_foo_rebuilt) !! 0%nat = Some L
    /\ value_of (Channel.get (Channel.mk (Some 0%nat) 2) (heap demo_foo_rebuilt))
       = Ok [Byte.x02; Byte.x01]
    /\ length (rivers (heap demo_foo_rebuilt)) = 2%nat.
Proof.
  destruct (rebuild_is_independent (fst new_builder) demo_foo 0 (Some 0%nat)
              demo_foo_built
              [CallRivulet (fst new_builder) "foo" Rivulet.unbound;
               CallSet (Channel.mk (Some 0%nat) 2) [Byte.x02; Byte.x01]]
              demo_foo_relinked (fst new_builder) 0 (Some 1%nat) demo_foo_rebuilt
              eq_refl eq_refl wf_demo_foo eq_refl eq_refl eq_refl eq_refl eq_refl)
    as (_ & _ & _ & _ & _ & _ & _ & Hall).
  destruct (Hall (mkNode "foo" (Some (mkChannelInfo [Byte.x2a; Byte.x01])) (Some 0%nat) [])
              0%nat (or_intror (or_introl eq_refl)) eq_refl)
    as (L & Hr & HL1 & _ & HL3 & Hget & _).
  exists L. split; [exact Hr|]. split; [exact HL1|]. split; [exact HL3|].
  split; [|reflexivity]. rewrite Hget. reflexivity.
Defined.

End rebuild.

(** ** A lock guards the subtree it was given *)

Section lock_guards_subtree.
Import Builder.

(** A Link of the tree that holds a lock stays in the tree and keeps the
    lock as long as no root builder builds. *)
Lemma run_calls_keep_locked l k ks : forall σ σ' L,
  wf σ -> Forall (fun c => builds c = false) ks -> run_calls ks σ = Ok σ' ->
  l ∈ node_links (tree σ) -> links (heap σ) !! l = Some L -> Link.lock L = Some k ->
  wf σ' /\ l ∈ node_links (tree σ')
  /\ exists L', links (heap σ') !! l = Some L' /\ Link.lock L' = Some k.
Proof.
  induction ks as [|c ks IH]; intros σ σ' L Hwf Hks; cbn [run_calls].
  - intros [= <-] Hin HL Hk. eauto.
  - apply Forall_cons in Hks as [Hc Hks].
    destruct (run_call c σ) as [σ1|] eqn:E; [|discriminate]. cbn [obind].
    intros H Hin HL Hk.
    destruct (run_call_effect c σ σ1 Hwf E) as [(_ & _ & _ & _ & Hlocks) Hkeep].
    destruct (Hlocks l L HL) as (L1 & HL1 & Hk1).
    apply (IH σ1 σ' L1 (wf_run_call c σ σ1 Hwf E) Hks H (Hkeep Hc l Hin) HL1).
    rewrite Hk1; [exact Hk|]. rewrite Hk. eauto.
Qed.

(** X22.  A lock guards the subtree it was given.  Let [lock(q, L)] return
    0 and take the Link of a node that the subtree of [q] held at that
    call.  Whatever is called next without a build of a root builder
    (declarations, locks, sub-builders, reads and writes), after the next
    build of the root builder, and whatever is called after that build:
    every [get] and [set], and every [read] and [write] with a buffer,
    that returns through this Link acquires [L] once and then releases it
    once, and makes no other call on a lock; a [read] or [write] with a
    null pointer makes none.  A node declared below [q] after the lock
    call is not among these. *)
Theorem lock_guards_the_subtree b q tq k σ σ1 n ks1 σ2 rb code rr σ3 ks2 σ4 m l :
  wf σ -> tokenize_path q = (0, tq) -> subtree_at b tq σ = Some n ->
  lock b q (Some k) σ = Ok (0, σ1) ->
  Forall (fun c => builds c = false) ks1 -> run_calls ks1 σ1 = Ok σ2 ->
  is_root rb = true -> root rb = [] ->
  build rb σ2 = Ok (code, rr, σ3) ->
  run_calls ks2 σ3 = Ok σ4 ->
  In m (nodes n) -> link m = Some l ->
  forall h, links h = links (heap σ4) ->
  (forall sz v h', Channel.get (Channel.mk (Some l) sz) h = Ok (v, h') ->
     lock_trace h' = lock_trace h ++ [Acquire k; Release k])
  /\ (forall sz x h', Channel.set (Channel.mk (Some l) sz) x h = Ok h' ->
     lock_trace h' = lock_trace h ++ [Acquire k; Release k])
  /\ (forall dest d h', Rivulet.read (Rivulet.mk (Some l)) dest h = Ok (d, h') ->
     lock_trace h' = lock_trace h ++
       match dest with
       | Some _ => [Acquire k; Release k]
       | None => []
       end)
  /\ (forall src h', Rivulet.write (Rivulet.mk (Some l)) src h = Ok h' ->
     lock_trace h' = lock_trace h ++
       match src with
       | Some _ => [Acquire k; Release k]
       | None => []
       end).
Proof.
  intros Hwf Hq Hn Hlock Hks1 Hrun1 Hroot Hpos Hb Hrun2 Hm El h Hlinks.
  (* the lock call *)
  pose proof (wf_lock _ _ _ _ _ _ Hwf Hlock) as Hwf1.
  destruct (lock_inv _ _ _ _ _ Hlock) as (tokens & n' & Htok & Hn' & Hall & _ & Hσ1).
  assert (tokens = tq) as -> by congruence.
  assert (n' = n) as -> by congruence.
  pose proof (locked_by_lock_all (heap σ) (Some k) n Hall) as Hlk.
  unfold locked_by in Hlk. rewrite Forall_forall in Hlk.
  destruct (Hlk m (proj2 (list_elem_of_In _ _) Hm)) as (L1 & HL1 & Hk1).
  unfold link_of in HL1. rewrite El in HL1. cbn [links with_links] in HL1.
  assert (Ht1 : tree σ1 = tree σ) by now rewrite Hσ1.
  assert (Hh1 : links (heap σ1) !! l = Some L1) by now rewrite Hσ1.
  assert (Hin1 : l ∈ node_links (tree σ1)).
  { rewrite Ht1. apply (subtree_links_in_tree b tq σ n); [exact Hn|].
    now apply (node_link_in_node_links n m). }
  (* the calls before the build *)
  destruct (run_calls_keep_locked l k ks1 σ1 σ2 L1 Hwf1 Hks1 Hrun1 Hin1 Hh1 Hk1)
    as (Hwf2 & Hin2 & L2 & HL2 & Hk2).
  (* the build *)
  pose proof Hwf2 as [Hnd2 _].
  destruct (build_post _ _ _ _ _ Hroot Hpos Hnd2 Hb) as (_ & _ & _ & _ & _ & Hp).
  apply list_elem_of_omap in Hin2 as (m2 & Hm2 & El2).
  destruct (tree_post_river _ _ _ 0%nat m2 l Hp (proj1 (list_elem_of_In _ _) Hm2) El2)
    as (L3 & HL3 & Hr3).
  destruct (build_effect _ _ _ _ _ Hwf2 Hb) as (_ & _ & _ & _ & Hlocks).
  destruct (Hlocks l L2 HL2) as (L3' & HL3' & Hk3).
  assert (L3' = L3) as -> by congruence.
  rewrite Hk2 in Hk3. specialize (Hk3 (ex_intro _ k eq_refl)).
  (* the calls after the build *)
  pose proof (wf_build_any _ _ _ _ _ Hwf2 Hb) as Hwf3.
  pose proof (frozen_after_build _ _ _ _ _ Hroot Hpos Hb) as Hfr3.
  destruct (run_calls_frozen _ _ ks2 σ3 σ4 Hwf3 Hfr3 Hrun2) as (_ & (_ & _ & Heq) & _).
  assert (HL4 : links h !! l = Some L3).
  { rewrite Hlinks, (Heq l (lookup_lt_Some _ _ _ HL3)). exact HL3. }
  assert (Hcalls : lock_calls (Some l) h = [Acquire k; Release k]).
  { unfold lock_calls. now rewrite HL4, Hr3, Hk3. }
  repeat apply conj.
  - intros sz v h' H. apply get_lock_calls in H. now rewrite <- Hcalls.
  - intros sz x h' H. apply set_lock_calls in H. now rewrite <- Hcalls.
  - intros [buf|] d h' H.
    + apply read_lock_calls in H. now rewrite <- Hcalls.
    + cbn in H. injection H as _ <-. now rewrite app_nil_r.
  - intros [src|] h' H.
    + apply write_lock_calls in H. now rewrite <- Hcalls.
    + cbn in H. injection H as <-. now rewrite app_nil_r.
Qed.

Lemma lock_guards_the_subtree_witness :
  exists v h',
    Channel.get (Channel.mk (Some 1%nat) 1) (heap demo_abx_locked_used) = Ok (v, h')
    /\ lock_trace h' = [Acquire 7%nat; Release 7%nat; Acquire 7%nat; Release 7%nat].
Proof.
  destruct (Channel.get (Channel.mk (Some 1%nat) 1) (heap demo_abx_locked_used))
    as [[v h']|] eqn:E.
  - exists v, h'. split; [reflexivity|].
    exact (proj1 (lock_guards_the_subtree (fst new_builder) "a" ["a"%string] 7%nat
                    demo_abx demo_abx_locked
                    (mkNode "a" (Some (mkChannelInfo [Byte.x01])) (Some 0%nat)
                       [mkNode "x" (Some (mkChannelInfo [Byte.x02])) (Some 1%nat) []])
                    [CallChannel (fst new_builder) "a.y" [Byte.x04] (Channel.unbound 1)]
                    demo_abx_locked_more
                    (fst new_builder) 0 (Some 0%nat) demo_abx_locked_built
                    [CallGet (Channel.mk (Some 0%nat) 1)] demo_abx_locked_used
                    (mkNode "x" (Some (mkChannelInfo [Byte.x02])) (Some 1%nat) [])
                    1%nat
                    wf_demo_abx eq_refl eq_refl eq_refl
                    ltac:(repeat constructor) eq_refl eq_refl eq_refl eq_refl eq_refl
                    (or_intror (or_introl eq_refl)) eq_refl
                    (heap demo_abx_locked_used) eq_refl) 1%nat v h' E).
  - vm_compute in E. discriminate E.
Defined.

End lock_guards_subtree.
